(** * rc-field-form: the Form Store, the Field entity and the rule engine

    A shallow embedding of [src/useForm.ts] (class [FormStore]), of the
    [Field] component ([onStoreChange], [validateRules], [isFieldDirty]) and
    of [utils/validateUtil] ([replaceMessage], [validateRule],
    [validateRules], [finishOnAllFailed], [finishOnFirstFailed]).

    Promises are modelled by their settlement ([Settled]); promise identity
    (the [===] tests on [validatePromise] and [lastValidatePromise]) by
    natural numbers drawn from a counter; the asynchronous parts of the
    store by a transition system whose events are the promise reactions
    that the JavaScript job queue runs one at a time. *)

From Stdlib Require Import ZArith String Ascii List Bool Lia.
From stdpp Require Import base option list strings gmap pretty.

Open Scope string_scope.
Open Scope list_scope.
Open Scope nat_scope.

(** ** Name paths *)

(** A path segment is a string or a number ([InternalNamePath] is
    [(string | number)[]]). *)
Inductive Segment : Type :=
  | SegStr (s : string)
  | SegNum (n : Z).

#[global] Instance Segment_eq_dec : EqDecision Segment.
Proof. solve_decision. Defined.

Definition Segment_to_sum (s : Segment) : string + Z :=
  match s with SegStr x => inl x | SegNum n => inr n end.

Definition Segment_of_sum (s : string + Z) : Segment :=
  match s with inl x => SegStr x | inr n => SegNum n end.

#[global] Instance Segment_countable : Countable Segment.
Proof.
  apply (inj_countable' Segment_to_sum Segment_of_sum).
  intros []; reflexivity.
Defined.

Abbreviation InternalNamePath := (list Segment).

(** [String(segment)], as [Array.prototype.join] renders it. *)
Definition segmentString (s : Segment) : string :=
  match s with SegStr x => x | SegNum n => pretty n end.

(** [namePath.join(sep)] *)
Definition joinNamePath (sep : string) (namePath : InternalNamePath) : string :=
  String.concat sep (map segmentString namePath).

(** ** Store values *)

(** The values held by the store: primitives and objects.  An object is
    its list of own properties in insertion order; an array is read as the
    object of its indices. *)
#[warnings="-register-all"]
Inductive StoreValue : Type :=
  | VUndefined
  | VBool (b : bool)
  | VNum (n : Z)
  | VStr (s : string)
  | VObj (props : list (Segment * StoreValue)).

Abbreviation Store := StoreValue.

(** [v !== undefined] *)
Definition isDefined (v : StoreValue) : bool :=
  match v with VUndefined => false | _ => true end.

(** *** Objects as property lists *)

Definition getProp (k : Segment) (props : list (Segment * StoreValue))
  : option StoreValue :=
  snd <$> List.find (fun kv => bool_decide (fst kv = k)) props.

(** [obj[k] = v]: an own property keeps its place, a new one goes last. *)
Fixpoint setProp (k : Segment) (v : StoreValue)
    (props : list (Segment * StoreValue)) : list (Segment * StoreValue) :=
  match props with
  | [] => [(k, v)]
  | (k', v') :: rest =>
      if bool_decide (k' = k) then (k, v) :: rest
      else (k', v') :: setProp k v rest
  end.

(** [delete obj[k]] *)
Definition deleteProp (k : Segment) (props : list (Segment * StoreValue))
  : list (Segment * StoreValue) :=
  List.filter (fun kv => negb (bool_decide (fst kv = k))) props.

(** The own properties of a value; a primitive has none. *)
Definition propsOf (v : StoreValue) : list (Segment * StoreValue) :=
  match v with VObj props => props | _ => [] end.

(** [entity[k]] *)
Definition child (k : Segment) (entity : StoreValue) : StoreValue :=
  default VUndefined (getProp k (propsOf entity)).

(** *** [utils/valueUtil] *)

(** [NamePath]: a scalar key or an ordered sequence of keys. *)
Inductive NamePath : Type :=
  | NameScalar (s : Segment)
  | NameList (l : InternalNamePath).

(** Modelled from the spec: [getNamePath] of [utils/valueUtil] is missing
    from the sources; §2, "converts a user-supplied key (scalar or ordered
    sequence of scalars) into a canonical ordered sequence of path
    segments". *)
Definition getNamePath (path : NamePath) : InternalNamePath :=
  match path with
  | NameScalar s => [s]
  | NameList l => l
  end.

(** Modelled from the spec: [matchNamePath] of [utils/valueUtil] is missing
    from the sources; §3, "Two paths are equal iff same length and
    pairwise-equal segments". *)
Definition matchNamePath (namePath changedNamePath : InternalNamePath) : bool :=
  bool_decide (namePath = changedNamePath).

(** Modelled from the spec: [containsNamePath] of [utils/valueUtil] is
    missing from the sources; §4.1, whether a path is among the paths of a
    list ([namePathList && namePathList.some(...)]). *)
Definition containsNamePath (namePathList : list InternalNamePath)
    (namePath : InternalNamePath) : bool :=
  existsb (fun path => matchNamePath path namePath) namePathList.

(** Modelled from the spec: [getValue] of [utils/valueUtil] is missing from
    the sources; §4.1, "[get(store, path)] returns the value at [path] or
    [undefined] if absent at any segment". *)
Fixpoint getValue (store : Store) (namePath : InternalNamePath) : StoreValue :=
  match namePath with
  | [] => store
  | k :: rest =>
      match store with
      | VObj props =>
          match getProp k props with
          | Some v => getValue v rest
          | None => VUndefined
          end
      | _ => VUndefined
      end
  end.

(** Installing [value] at [namePath], intermediate objects created as
    needed. *)
Fixpoint installValue (store : Store) (namePath : InternalNamePath)
    (value : StoreValue) : Store :=
  match namePath with
  | [] => value
  | k :: rest =>
      VObj (setProp k (installValue (child k store) rest value) (propsOf store))
  end.

(** Removing the leaf at [namePath]; nothing happens where the parent object
    does not exist. *)
Fixpoint removeLeaf (store : Store) (namePath : InternalNamePath) : Store :=
  match namePath with
  | [] => VUndefined
  | [k] =>
      match store with
      | VObj props => VObj (deleteProp k props)
      | _ => store
      end
  | k :: rest =>
      match store with
      | VObj props =>
          match getProp k props with
          | Some v => VObj (setProp k (removeLeaf v rest) props)
          | None => store
          end
      | _ => store
      end
  end.

(** Modelled from the spec: [setValue] of [utils/valueUtil] is missing from
    the sources; §4.1, "[set(store, path, value, deleteIfUndefined?)] returns
    a new store with [value] installed at [path], creating intermediate
    maps/lists as needed [...]; when [path] is empty, [set] replaces the
    entire store.  [set] with [deleteIfUndefined=true] and an [undefined]
    value removes the leaf entirely". *)
Definition setValue (store : Store) (namePath : InternalNamePath)
    (value : StoreValue) (removeIfUndefined : bool) : Store :=
  if removeIfUndefined && negb (isDefined value) then removeLeaf store namePath
  else installValue store namePath value.

(** The merge of one object into another: objects merge property by
    property, any other value replaces what was there. *)
Fixpoint internalSetValues (store values : StoreValue) {struct values} : StoreValue :=
  match values with
  | VObj newProps =>
      VObj
        ((fix mergeProps (newProps acc : list (Segment * StoreValue)) {struct newProps}
            : list (Segment * StoreValue) :=
            match newProps with
            | [] => acc
            | (key, value) :: rest =>
                let merged :=
                  match getProp key acc, value with
                  | Some (VObj prevProps), VObj _ =>
                      internalSetValues (VObj prevProps) value
                  | _, _ => value
                  end in
                mergeProps rest (setProp key merged acc)
            end) newProps (propsOf store))
  | _ => VObj (propsOf store)
  end.

(** Modelled from the spec: [setValues] of [utils/valueUtil] is missing from
    the sources; §2, "immutable get/set/merge/clone over an arbitrarily
    nested value graph": [setValues(store, ...restValues)] merges the values
    into the store from left to right. *)
Definition setValues (store : Store) (restValues : list Store) : Store :=
  foldl internalSetValues store restValues.

(** Modelled from the spec: [cloneByNamePathList] of [utils/valueUtil] is
    missing from the sources; §4.1, "extracts a minimal sub-store containing
    only the given paths". *)
Definition cloneByNamePathList (store : Store)
    (namePathList : list InternalNamePath) : Store :=
  foldl (fun newStore namePath =>
           setValue newStore namePath (getValue store namePath) false)
        (VObj []) namePathList.

(** Modelled from the spec: [cloneDeep] of [utils/cloneDeep] is missing from
    the sources; a copy has the same content, and content is all a
    [StoreValue] has. *)
Definition cloneDeep (value : StoreValue) : StoreValue := value.

(** ** Promises *)

(** The state a promise ends up in. *)
Inductive Settled (A E : Type) : Type :=
  | Pending
  | Fulfilled (a : A)
  | Rejected (e : E).
Arguments Pending {A E}.
Arguments Fulfilled {A E} a.
Arguments Rejected {A E} e.

(** ** Messages *)

Abbreviation Message := string.

(** A complete validate-message table.  Only the [default] entry is read by
    the code under study; the other templates are kept under their
    (dotted) key. *)
Record ValidateMessages : Type := {
  vm_default : Message;
  vm_entries : gmap string Message;
}.

(** Caller-supplied overrides of the table ([options.validateMessages]):
    every entry is optional. *)
Record MessageOverrides : Type := {
  mo_default : option Message;
  mo_entries : gmap string Message;
}.

Definition noOverrides : MessageOverrides :=
  {| mo_default := None; mo_entries := ∅ |}.

(** Modelled from the spec: [setValues] of [utils/valueUtil] is not part of
    the sources at hand; on message tables it is the merge of §6,
    "a nested mapping from rule-type keys to template strings, merged with
    caller overrides": [setValues({}, defaultValidateMessages,
    options.validateMessages)]. *)
Definition mergeMessages (defaults : ValidateMessages) (o : MessageOverrides)
  : ValidateMessages :=
  {| vm_default := default (vm_default defaults) (mo_default o);
     vm_entries := mo_entries o ∪ vm_entries defaults |}.

(** *** [replaceMessage] *)

(** [\w] of a JavaScript regular expression. *)
Definition isWordChar (c : ascii) : bool :=
  let n := nat_of_ascii c in
  (((48 <=? n) && (n <=? 57)) || ((65 <=? n) && (n <=? 90))
   || ((97 <=? n) && (n <=? 122)) || (n =? 95))%nat.

(** The scanner behind [template.replace(/\$\{\w+\}/g, fn)]: outside a
    placeholder, after a dollar sign, or inside the braces with the key read
    so far. *)
Inductive ScanState : Type :=
  | ScanText
  | ScanDollar
  | ScanKey (key : string).

(** What a scan state has consumed without emitting, should the match fail. *)
Definition scanPending (st : ScanState) : string :=
  match st with
  | ScanText => ""
  | ScanDollar => "$"
  | ScanKey key => "${" +:+ key
  end.

Definition scanText (c : ascii) : ScanState * string :=
  if Ascii.eqb c "$" then (ScanDollar, "") else (ScanText, String c "").

Definition scanStep (kv : string -> string) (st : ScanState) (c : ascii)
  : ScanState * string :=
  match st with
  | ScanText => scanText c
  | ScanDollar =>
      if Ascii.eqb c "{" then (ScanKey "", "")
      else let '(st', out) := scanText c in (st', "$" +:+ out)
  | ScanKey key =>
      if isWordChar c then (ScanKey (key +:+ String c ""), "")
      else if Ascii.eqb c "}" && negb (String.eqb key "") then (ScanText, kv key)
      else let '(st', out) := scanText c in (st', "${" +:+ key +:+ out)
  end.

Fixpoint scanFrom (kv : string -> string) (st : ScanState) (template : string)
  : string :=
  match template with
  | EmptyString => scanPending st
  | String c rest =>
      let '(st', out) := scanStep kv st c in
      out +:+ scanFrom kv st' rest
  end.

(** [replaceMessage(template, kv)]: every [${key}] becomes [kv[key]]. *)
Definition replaceMessage (template : string) (kv : string -> string) : string :=
  scanFrom kv ScanText template.

Definition CODE_LOGIC_ERROR : string := "CODE_LOGIC_ERROR".

(** ** Rules *)

(** What a call of a validator function does: it throws, it returns a
    promise that is fulfilled or rejected with a reason, or it returns no
    promise and reports through its callback ([callback()] or
    [callback(error)]). *)
Inductive ValidatorOutcome : Type :=
  | Throws
  | PromiseFulfilled
  | PromiseRejected (reason : option string)
  | CallbackCalled (error : option string).

Abbreviation Validator := (StoreValue -> ValidatorOutcome).

Inductive ValidateFirst : Type :=
  | ValidateFirstFalse
  | ValidateFirstTrue
  | ValidateFirstParallel.

(** ** A sample validation library

    The statements below hold for any validation library, message table and
    strict equality; the examples at the end of the file run the code with
    these. *)

(** A descriptor requires a value or nothing. *)
Inductive SampleDescriptor : Type :=
  | Required
  | Unconstrained.

Definition sampleErrors (d : SampleDescriptor) (name : string) (value : StoreValue)
    (messages : ValidateMessages) : list Message :=
  match d, value with
  | Required, VUndefined => ["'${name}' is required"]
  | _, _ => []
  end.

Definition sampleMessages : ValidateMessages :=
  {| vm_default := "Validation error on field '${name}'"; vm_entries := ∅ |}.

(** [===] on primitives; two objects are taken to be distinct. *)
Definition sampleStrictEq (a b : StoreValue) : bool :=
  match a, b with
  | VUndefined, VUndefined => true
  | VBool x, VBool y => Bool.eqb x y
  | VNum x, VNum y => Z.eqb x y
  | VStr x, VStr y => String.eqb x y
  | _, _ => false
  end.

Section Model.

(** The static part of a rule ([required], [type], [pattern], bounds, ...)
    is interpreted by the [async-validator] package, not by this repository:
    [asyncValidatorErrors d name value messages] are the messages the package
    reports for descriptor [d]. *)
Context {Descriptor : Type}.
Variable asyncValidatorErrors :
  Descriptor -> string -> StoreValue -> ValidateMessages -> list Message.

(** [defaultValidateMessages] of [utils/messages]. *)
Variable defaultValidateMessages : ValidateMessages.

(** [RuleObject].  [warningOnly] absent is [false]; [ruleVars] are the
    rule's own fields as a template prints them.  Rules of type array with an
    item-level [defaultField] are outside this model. *)
Record RuleObject : Type := {
  warningOnly : bool;
  validateTrigger : option (list string);
  validator : option Validator;
  descriptor : Descriptor;
  enum : list string;
  ruleVars : gmap string string;
}.

Definition withValidator (rule : RuleObject) (v : option Validator) : RuleObject :=
  {| warningOnly := warningOnly rule;
     validateTrigger := validateTrigger rule;
     validator := v;
     descriptor := descriptor rule;
     enum := enum rule;
     ruleVars := ruleVars rule |}.

(** A rule of [filledRules]: [{ ...currentRule, ruleIndex }]. *)
Record FilledRule : Type := {
  filled : RuleObject;
  ruleIndex : nat;
}.

(** [RuleError] *)
Record RuleError : Type := {
  errors : list Message;
  rule : FilledRule;
}.

(** [ValidateOptions]; an absent [recursive] is [false]. *)
Record ValidateOptions : Type := {
  triggerName : option string;
  validateMessages : option MessageOverrides;
  recursive : bool;
}.

(** *** [validateRule] *)

(** The wrapper [validateRule] puts around [cloneRule.validator]:
    [try { return originValidator(...args) } catch (error) {
       return Promise.reject(CODE_LOGIC_ERROR) }]. *)
Definition catchValidator (originValidator : Validator) : Validator :=
  fun value =>
    match originValidator value with
    | Throws => PromiseRejected (Some CODE_LOGIC_ERROR)
    | outcome => outcome
    end.

(** How [validator.validate] ends. *)
Inductive ValidateResult : Type :=
  | ValidateOk
  | ValidateErrors (messages : list Message)
  | ValidateThrows.

(** [validator.validate({ [name]: value }, options)] of [async-validator] on
    the one rule [cloneRule].  A rule with a validator function is decided by
    that function alone: a callback without error or a fulfilled promise is a
    success, a callback error or a rejection reason [e] is the one error
    message [e].  Any other rule is decided by [asyncValidatorErrors]. *)
Definition asyncValidate (cloneRule : RuleObject) (name : string)
    (value : StoreValue) (messages : ValidateMessages) : ValidateResult :=
  match validator cloneRule with
  | Some v =>
      match v value with
      | Throws => ValidateThrows
      | PromiseFulfilled | CallbackCalled None | PromiseRejected None => ValidateOk
      | PromiseRejected (Some e) | CallbackCalled (Some e) => ValidateErrors [e]
      end
  | None =>
      match asyncValidatorErrors (descriptor cloneRule) name value messages with
      | [] => ValidateOk
      | errs => ValidateErrors errs
      end
  end.

(** The substitution context
    [{ ...rule, name, enum: (rule.enum || []).join(', '), ...messageVariables }],
    [rule] being the rule [validateRule] is called with: a rule of
    [filledRules], whose own fields are those of the rule it was made from
    and [ruleIndex]. *)
Definition messageContext (rule : FilledRule) (name : string)
    (messageVariables : gmap string string) (key : string) : string :=
  match messageVariables !! key with
  | Some v => v
  | None =>
      if String.eqb key "enum" then String.concat ", " (enum (filled rule))
      else if String.eqb key "name" then name
      else if String.eqb key "ruleIndex" then pretty (ruleIndex rule)
      else default "undefined" (ruleVars (filled rule) !! key)
  end.

(** [validateRule(name, value, rule, options, messageVariables)] for a
    rule without [subRuleField].  The branch for a rule of type [array] with
    a [defaultField], which validates each item of the value under
    [name.i] when the rule itself yields no message, needs rules that
    [RuleObject] does not have and is not modelled; where the rule yields a
    message, that branch is not taken. *)
Definition validateRule (name : string) (value : StoreValue) (rule : FilledRule)
    (options : ValidateOptions) (messageVariables : gmap string string)
  : list Message :=
  let cloneRule :=
    withValidator (filled rule) (catchValidator <$> validator (filled rule)) in
  let messages :=
    mergeMessages defaultValidateMessages
      (default noOverrides (validateMessages options)) in
  let result :=
    match asyncValidate cloneRule name value messages with
    | ValidateErrors errs =>
        map (fun message =>
               if String.eqb message CODE_LOGIC_ERROR then vm_default messages
               else message) errs
    | ValidateOk | ValidateThrows => []
    end in
  let kv := messageContext rule name messageVariables in
  map (fun error => replaceMessage error kv) result.

(** *** [validateRules] *)

(** The validator installed by [validateRules] in place of
    [originValidatorFunc]: a returned promise is turned into a call of
    [callback] ([callback()] or [callback(err || ' ')]), a callback-style
    validator keeps its callback; an exception passes through. *)
Definition callbackValidator (originValidatorFunc : Validator) : Validator :=
  fun val =>
    match originValidatorFunc val with
    | Throws => Throws
    | PromiseFulfilled => CallbackCalled None
    | PromiseRejected err =>
        CallbackCalled
          (Some (match err with
                 | Some e => if String.eqb e "" then " " else e
                 | None => " "
                 end))
    | CallbackCalled args => CallbackCalled args
    end.

(** [{ ...currentRule, ruleIndex }] with the validator replaced if needed. *)
Definition fillRule (ruleIndex : nat) (currentRule : RuleObject) : FilledRule :=
  {| filled := withValidator currentRule (callbackValidator <$> validator currentRule);
     ruleIndex := ruleIndex |}.

(** The comparator handed to [sort]. *)
Definition compareRules (r1 r2 : FilledRule) : Z :=
  let w1 := warningOnly (filled r1) in
  let w2 := warningOnly (filled r2) in
  if Bool.eqb w1 w2 then Z.of_nat (ruleIndex r1) - Z.of_nat (ruleIndex r2)
  else if w1 then 1
  else -1.

(** [Array.prototype.sort(compare)], as a stable insertion sort. *)
Fixpoint sortInsert {A : Type} (compare : A -> A -> Z) (x : A) (l : list A) : list A :=
  match l with
  | [] => [x]
  | y :: l' =>
      if (compare x y <=? 0)%Z then x :: y :: l'
      else y :: sortInsert compare x l'
  end.

Fixpoint sortBy {A : Type} (compare : A -> A -> Z) (l : list A) : list A :=
  match l with
  | [] => []
  | x :: l' => sortInsert compare x (sortBy compare l')
  end.

Definition filledRules (rules : list RuleObject) : list FilledRule :=
  sortBy compareRules (imap fillRule rules).

(** What [validateRules] leaves behind: the settlement of [summaryPromise]
    and the rules [validateRule] was called on, in call order. *)
Record RulesRun : Type := {
  summaryPromise : Settled (list RuleError) (list RuleError);
  evaluated : list FilledRule;
}.

Section Scheduling.

Variables (name : string) (value : StoreValue) (options : ValidateOptions)
  (messageVariables : gmap string string).

Definition ruleErrorOf (rule : FilledRule) : RuleError :=
  {| errors := validateRule name value rule options messageVariables;
     rule := rule |}.

(** The [for] loop of the serial branch. *)
Fixpoint validateSerial (rules : list FilledRule) : RulesRun :=
  match rules with
  | [] => {| summaryPromise := Fulfilled []; evaluated := [] |}
  | rule :: rest =>
      let errors := validateRule name value rule options messageVariables in
      match errors with
      | _ :: _ =>
          {| summaryPromise := Rejected [ {| errors := errors; rule := rule |} ];
             evaluated := [rule] |}
      | [] =>
          let run := validateSerial rest in
          {| summaryPromise := summaryPromise run;
             evaluated := rule :: evaluated run |}
      end
  end.

(** [finishOnAllFailed]: [Promise.all], then [[].concat(...errorsList)]. *)
Definition finishOnAllFailed (rulePromises : list RuleError)
  : Settled (list RuleError) (list RuleError) :=
  Fulfilled rulePromises.

(** The promise built by [finishOnFirstFailed] while the rule promises
    settle: its value once resolved, and [count]. *)
Record FirstFailed : Type := {
  resolved : option (list RuleError);
  count : nat;
}.

(** [resolve(v)]: only the first call settles the promise. *)
Definition resolveWith (v : list RuleError) (p : option (list RuleError))
  : option (list RuleError) :=
  match p with Some _ => p | None => Some v end.

(** The reaction to the settlement of the [i]-th rule promise. *)
Definition firstFailedStep (rulePromises : list RuleError) (st : FirstFailed)
    (i : nat) : FirstFailed :=
  match rulePromises !! i with
  | None => st
  | Some ruleError =>
      let r1 :=
        match errors ruleError with
        | _ :: _ => resolveWith [ruleError] (resolved st)
        | [] => resolved st
        end in
      let count' := S (count st) in
      let r2 := if Nat.eqb count' (length rulePromises) then resolveWith [] r1 else r1 in
      {| resolved := r2; count := count' |}
  end.

(** [finishOnFirstFailed], the rule promises settling in the order
    [completion] (a list of positions in [rulePromises]). *)
Definition finishOnFirstFailed (rulePromises : list RuleError)
    (completion : list nat) : Settled (list RuleError) (list RuleError) :=
  let st := foldl (firstFailedStep rulePromises)
                  {| resolved := None; count := 0 |} completion in
  match resolved st with
  | Some v => Fulfilled v
  | None => Pending
  end.

(** [.then(errors => Promise.reject(errors))] *)
Definition alwaysReject (p : Settled (list RuleError) (list RuleError))
  : Settled (list RuleError) (list RuleError) :=
  match p with
  | Fulfilled errors => Rejected errors
  | other => other
  end.

Definition validateRulesRun (rules : list RuleObject)
    (validateFirst : ValidateFirst) (completion : list nat) : RulesRun :=
  let filled := filledRules rules in
  match validateFirst with
  | ValidateFirstTrue => validateSerial filled
  | ValidateFirstParallel =>
      let rulePromises := map ruleErrorOf filled in
      {| summaryPromise := alwaysReject (finishOnFirstFailed rulePromises completion);
         evaluated := filled |}
  | ValidateFirstFalse =>
      let rulePromises := map ruleErrorOf filled in
      {| summaryPromise := alwaysReject (finishOnAllFailed rulePromises);
         evaluated := filled |}
  end.

End Scheduling.

(** [validateRules(namePath, value, rules, options, validateFirst,
    messageVariables)]; [completion] is the order in which the rule promises
    of the parallel branch settle. *)
Definition validateRules (namePath : InternalNamePath) (value : StoreValue)
    (rules : list RuleObject) (options : ValidateOptions)
    (validateFirst : ValidateFirst) (messageVariables : gmap string string)
    (completion : list nat) : RulesRun :=
  validateRulesRun (joinNamePath "." namePath) value options messageVariables
    rules validateFirst completion.

(** ** Field entities *)

(** [a === b] on store values.  Two objects are [===] when they are one and
    the same object, which the content of a [StoreValue] does not tell; the
    test is a parameter of the model. *)
Variable strictEq : StoreValue -> StoreValue -> bool.

Inductive Source : Type :=
  | SourceInternal
  | SourceExternal.

(** The [shouldUpdate] prop: absent, a boolean or a function. *)
Inductive ShouldUpdate : Type :=
  | ShouldUpdateAbsent
  | ShouldUpdateBool (b : bool)
  | ShouldUpdateFun (fn : Store -> Store -> option Source -> bool).

(** [if (shouldUpdate)] *)
Definition shouldUpdateSet (shouldUpdate : ShouldUpdate) : bool :=
  match shouldUpdate with
  | ShouldUpdateAbsent => false
  | ShouldUpdateBool b => b
  | ShouldUpdateFun _ => true
  end.

(** [shouldUpdate === true] *)
Definition shouldUpdateTrue (shouldUpdate : ShouldUpdate) : bool :=
  match shouldUpdate with
  | ShouldUpdateBool true => true
  | _ => false
  end.

(** [FieldData]; [None] is a key the record does not have. *)
Record FieldData : Type := {
  fd_name : NamePath;
  fd_value : option StoreValue;
  fd_touched : option bool;
  fd_validating : option bool;
  fd_errors : option (list Message);
  fd_warnings : option (list Message);
  fd_originRCField : bool;
}.

(** [NotifyInfo] *)
Inductive NotifyInfo : Type :=
  | ValueUpdateInfo (source : Source)
  | ResetInfo
  | SetFieldInfo (data : FieldData)
  | RemoveInfo
  | DependenciesUpdateInfo (relatedFields : list InternalNamePath)
  | ValidateFinishInfo.

(** ['source' in info ? info.source : absent] *)
Definition infoSource (info : NotifyInfo) : option Source :=
  match info with
  | ValueUpdateInfo source => Some source
  | _ => None
  end.

(** [Meta] *)
Record Meta : Type := {
  meta_touched : bool;
  meta_validating : bool;
  meta_errors : list Message;
  meta_warnings : list Message;
  meta_name : InternalNamePath;
}.

(** [InternalFieldData]: [{ ...meta, name, value }]. *)
Record InternalFieldData : Type := {
  ifd_touched : bool;
  ifd_validating : bool;
  ifd_errors : list Message;
  ifd_warnings : list Message;
  ifd_name : InternalNamePath;
  ifd_value : StoreValue;
}.

(** [FieldError] *)
Record FieldError : Type := {
  fe_name : InternalNamePath;
  fe_errors : list Message;
  fe_warnings : list Message;
}.

(** [ValidateErrorEntity] *)
Record ValidateErrorEntity : Type := {
  values : Store;
  errorFields : list FieldError;
  outOfDate : bool;
}.

(** What the store and the fields do to the outside, in the order they do
    it, together with the entry into the two broadcast methods. *)
Inductive Effect : Type :=
  | FxMetaEvent (field : nat) (meta : Meta) (destroy : bool)
  | FxReRender (field : nat)
  | FxRefresh (field : nat)
  | FxOnReset (field : nat)
  | FxNotify (prevStore : Store) (namePathList : option (list InternalNamePath))
      (info : NotifyInfo) (store : Store)
  | FxStoreChange (field : nat) (info : NotifyInfo)
  | FxForceRootUpdate
  | FxNotifyWatch (namePath : list InternalNamePath)
  | FxWatch (callback : nat) (values : Store) (namePath : list InternalNamePath)
  | FxOnValuesChange (changedValues values : Store)
  | FxOnFieldsChange (changedFields fields : list InternalFieldData)
  | FxWarning (message : string).

(** The props of a [Field] the store reads.  [dependencies] and [rules]
    absent are empty lists, [initialValue] absent is [undefined];
    [prefixName] is the one of the field's context; [onReset] tells whether
    the callback is given. *)
Record InternalFieldProps : Type := {
  dependencies : list NamePath;
  name : option InternalNamePath;
  rules : list RuleObject;
  shouldUpdate : ShouldUpdate;
  validateFirst : ValidateFirst;
  messageVariables : gmap string string;
  initialValue : StoreValue;
  onReset : bool;
  preserve : option bool;
  isListField : bool;
  prefixName : InternalNamePath;
}.

(** The promise a field holds in [validatePromise]: the [rootPromise] of a
    run of [validateRules], told apart by a number, or the
    [Promise.resolve([])] installed by a [setField] notification, which is
    no root promise. *)
Inductive PromiseRef : Type :=
  | RootPromise (id : nat)
  | ResolvedPromise.

#[global] Instance PromiseRef_eq_dec : EqDecision PromiseRef.
Proof. solve_decision. Defined.

(** A [Field] instance: its identity, its props and its private state. *)
Record Field : Type := {
  fid : nat;
  props : InternalFieldProps;
  mounted : bool;
  touched : bool;
  dirty : bool;
  validatePromise : option PromiseRef;
  getErrors : list Message;
  getWarnings : list Message;
}.

(** Assignment to the private state of a field. *)
Definition withState (f : Field) (touched' dirty' : bool)
    (validatePromise' : option PromiseRef) (errors' warnings' : list Message)
  : Field :=
  {| fid := fid f; props := props f; mounted := mounted f;
     touched := touched'; dirty := dirty';
     validatePromise := validatePromise';
     getErrors := errors'; getWarnings := warnings' |}.

(** [field.getNamePath()] *)
Definition fieldNamePath (f : Field) : InternalNamePath :=
  match name (props f) with
  | Some n => prefixName (props f) ++ n
  | None => []
  end.

Definition isFieldValidating (f : Field) : bool :=
  bool_decide (validatePromise f <> None).

Definition isFieldTouched (f : Field) : bool := touched f.

Definition getMeta (f : Field) : Meta :=
  {| meta_touched := isFieldTouched f;
     meta_validating := isFieldValidating f;
     meta_errors := getErrors f;
     meta_warnings := getWarnings f;
     meta_name := fieldNamePath f |}.

Definition triggerMetaEvent (f : Field) (destroy : bool) : list Effect :=
  [FxMetaEvent (fid f) (getMeta f) destroy].

Definition reRender (f : Field) : list Effect :=
  if mounted f then [FxReRender (fid f)] else [].

Definition refresh (f : Field) : list Effect :=
  if mounted f then [FxRefresh (fid f)] else [].

Definition requireUpdate (shouldUpdate : ShouldUpdate) (prev next : Store)
    (prevValue nextValue : StoreValue) (info : NotifyInfo) : bool :=
  match shouldUpdate with
  | ShouldUpdateFun fn => fn prev next (infoSource info)
  | _ => negb (strictEq prevValue nextValue)
  end.

(** The state a field is put in before the [switch] of [onStoreChange], when
    the notification is a [valueUpdate] of source [external] and the value at
    the field's path is no longer the same. *)
Definition externalUpdate (f : Field) : Field :=
  withState f true true None [] [].

(** The patch of the [setField] branch. *)
Definition applyFieldData (f : Field) (data : FieldData) : Field :=
  withState f
    (default (touched f) (fd_touched data))
    true
    (match fd_validating data with
     | Some validating =>
         if fd_originRCField data then validatePromise f
         else if validating then Some ResolvedPromise else None
     | None => validatePromise f
     end)
    (default (getErrors f) (fd_errors data))
    (default (getWarnings f) (fd_warnings data)).

(** [onStoreChange(prevStore, namePathList, info)], [info.store] being
    [store]: the field after the call and what it did. *)
Definition onStoreChange (f : Field) (prevStore : Store)
    (namePathList : option (list InternalNamePath)) (info : NotifyInfo)
    (store : Store) : Field * list Effect :=
  let shouldUpdate := shouldUpdate (props f) in
  let dependencies := dependencies (props f) in
  let namePath := fieldNamePath f in
  let prevValue := getValue prevStore namePath in
  let curValue := getValue store namePath in
  let namePathMatch :=
    match namePathList with
    | Some l => containsNamePath l namePath
    | None => false
    end in
  let '(f1, fx1) :=
    match info with
    | ValueUpdateInfo SourceExternal =>
        if negb (strictEq prevValue curValue)
        then (externalUpdate f, triggerMetaEvent (externalUpdate f) false)
        else (f, [])
    | _ => (f, [])
    end in
  let '(f2, fx2, returned) :=
    match info with
    | ResetInfo =>
        if bool_decide (namePathList = None) || namePathMatch then
          let f' := withState f1 false false None [] [] in
          (f', triggerMetaEvent f' false
               ++ (if onReset (props f) then [FxOnReset (fid f)] else [])
               ++ refresh f', true)
        else (f1, [], false)
    | RemoveInfo =>
        if shouldUpdateSet shouldUpdate then (f1, reRender f1, true)
        else (f1, [], false)
    | SetFieldInfo data =>
        if namePathMatch then
          let f' := applyFieldData f1 data in
          (f', triggerMetaEvent f' false ++ reRender f', true)
        else if shouldUpdateSet shouldUpdate
                && bool_decide (namePath = [])
                && requireUpdate shouldUpdate prevStore store prevValue curValue info
        then (f1, reRender f1, true)
        else (f1, [], false)
    | DependenciesUpdateInfo relatedFields =>
        if existsb (fun dependency =>
                      containsNamePath relatedFields (getNamePath dependency))
                   dependencies
        then (f1, reRender f1, true)
        else (f1, [], false)
    | ValueUpdateInfo _ | ValidateFinishInfo =>
        if namePathMatch
           || ((bool_decide (dependencies = [])
                || negb (bool_decide (namePath = []))
                || shouldUpdateSet shouldUpdate)
               && requireUpdate shouldUpdate prevStore store prevValue curValue info)
        then (f1, reRender f1, true)
        else (f1, [], false)
    end in
  (f2, fx1 ++ fx2
       ++ (if returned then []
           else if shouldUpdateTrue shouldUpdate then reRender f2 else [])).


(** ** The form store *)

Record Callbacks : Type := {
  onValuesChange : bool;
  onFieldsChange : bool;
  onFinish : bool;
  onFinishFailed : bool;
}.

(** The promise reactions the store and its fields leave in the job queue. *)
Inductive Job : Type :=
  (** the body of [rootPromise] in [Field.validateRules] *)
  | JobRootBody (field root : nat) (namePath : InternalNamePath)
      (currentValue : StoreValue) (options : ValidateOptions)
  (** [promise.catch(e => e).then(ruleErrors => ...)] in [Field.validateRules] *)
  | JobRuleReaction (field root : nat) (ruleErrors : list RuleError)
  (** [summaryPromise.catch(results => results).then(results => ...)] *)
  | JobValidateFinish (summary : nat) (results : list FieldError)
  (** [summaryPromise.then(() => ...)] of [returnPromise] *)
  | JobSummaryThen (summary : nat) (namePathList : list InternalNamePath)
  (** [.catch(results => ...)] of [returnPromise] *)
  | JobSummaryCatch (summary : nat) (namePathList : list InternalNamePath)
      (results : list FieldError).

(** What the hooks of the store configure. *)
Record Config : Type := {
  subscribable : bool;
  initialValues : Store;
  callbacks : Callbacks;
  formValidateMessages : MessageOverrides;
  formPreserve : option bool;
  watchList : list nat;
}.

(** A [FormStore] with the fields registered in it, followed by the promise
    machinery around it: the next fresh promise identity, the job queue, the
    summary promises that have not settled with the [namePathList] of their
    call, what each [returnPromise] settled with, and the effects so far. *)
Record FormStore : Type := {
  config : Config;
  store : Store;
  fieldEntities : list Field;
  lastValidatePromise : option nat;
  nextPromise : nat;
  jobs : list Job;
  summaries : list (nat * list InternalNamePath);
  returned : list (nat * Settled Store ValidateErrorEntity);
  log : list Effect;
}.

Definition updateStore (st : FormStore) (nextStore : Store) : FormStore :=
  {| config := config st; store := nextStore;
     fieldEntities := fieldEntities st;
     lastValidatePromise := lastValidatePromise st;
     nextPromise := nextPromise st; jobs := jobs st;
     summaries := summaries st; returned := returned st; log := log st |}.

Definition setFieldEntities (st : FormStore) (fields : list Field) : FormStore :=
  {| config := config st; store := store st;
     fieldEntities := fields;
     lastValidatePromise := lastValidatePromise st;
     nextPromise := nextPromise st; jobs := jobs st;
     summaries := summaries st; returned := returned st; log := log st |}.

Definition setConfig (st : FormStore) (c : Config) : FormStore :=
  {| config := c; store := store st;
     fieldEntities := fieldEntities st;
     lastValidatePromise := lastValidatePromise st;
     nextPromise := nextPromise st; jobs := jobs st;
     summaries := summaries st; returned := returned st; log := log st |}.

Definition setJobs (st : FormStore) (js : list Job) : FormStore :=
  {| config := config st; store := store st;
     fieldEntities := fieldEntities st;
     lastValidatePromise := lastValidatePromise st;
     nextPromise := nextPromise st; jobs := js;
     summaries := summaries st; returned := returned st; log := log st |}.

Definition setReturned (st : FormStore)
    (r : list (nat * Settled Store ValidateErrorEntity)) : FormStore :=
  {| config := config st; store := store st;
     fieldEntities := fieldEntities st;
     lastValidatePromise := lastValidatePromise st;
     nextPromise := nextPromise st; jobs := jobs st;
     summaries := summaries st; returned := r; log := log st |}.

Definition setSummaries (st : FormStore)
    (ss : list (nat * list InternalNamePath)) : FormStore :=
  {| config := config st; store := store st;
     fieldEntities := fieldEntities st;
     lastValidatePromise := lastValidatePromise st;
     nextPromise := nextPromise st; jobs := jobs st;
     summaries := ss; returned := returned st; log := log st |}.

(** Recording effects. *)
Definition emit (st : FormStore) (fx : list Effect) : FormStore :=
  {| config := config st; store := store st;
     fieldEntities := fieldEntities st;
     lastValidatePromise := lastValidatePromise st;
     nextPromise := nextPromise st; jobs := jobs st;
     summaries := summaries st; returned := returned st;
     log := log st ++ fx |}.

(** [warning(false, message)] *)
Definition warning (st : FormStore) (message : string) : FormStore :=
  emit st [FxWarning message].

(** *** Fields *)

Definition getFieldEntities (st : FormStore) (pure : bool) : list Field :=
  if pure
  then List.filter (fun field => negb (bool_decide (fieldNamePath field = [])))
         (fieldEntities st)
  else fieldEntities st.

(** Modelled from the spec: [NameMap] of [utils/NameMap] is missing from the
    sources; it is a map keyed by name paths, equal paths (§3) being one
    key. *)
Definition getFieldsMap (st : FormStore) (pure : bool)
  : gmap InternalNamePath Field :=
  foldl (fun cache field => <[fieldNamePath field := field]> cache) ∅
        (getFieldEntities st pure).

(** A field entity, or [{ INVALIDATE_NAME_PATH }]. *)
Definition getFieldEntitiesForNamePathList (st : FormStore)
    (nameList : option (list NamePath)) : list (Field + InternalNamePath) :=
  match nameList with
  | None => inl <$> getFieldEntities st true
  | Some l =>
      let cache := getFieldsMap st true in
      map (fun name =>
             match cache !! getNamePath name with
             | Some field => inl field
             | None => inr (getNamePath name)
             end) l
  end.

(** [getFieldsValue(nameList, filterFunc)], [nameList] being a list or
    absent; [getFieldsValue(true)] is [store]. *)
Definition getFieldsValue (st : FormStore) (nameList : option (list NamePath))
    (filterFunc : option (option Meta -> bool)) : Store :=
  let fieldEntities := getFieldEntitiesForNamePathList st nameList in
  let filteredNameList :=
    omap (fun entity : Field + InternalNamePath =>
            let namePath :=
              match entity with
              | inl field => fieldNamePath field
              | inr path => path
              end in
            let listField :=
              match entity with
              | inl field => isListField (props field)
              | inr _ => false
              end in
            if bool_decide (nameList = None) && listField then None
            else match filterFunc with
                 | None => Some namePath
                 | Some fn =>
                     let meta :=
                       match entity with
                       | inl field => Some (getMeta field)
                       | inr _ => None
                       end in
                     if fn meta then Some namePath else None
                 end) fieldEntities in
  cloneByNamePathList (store st) filteredNameList.

Definition getFieldValue (st : FormStore) (name : NamePath) : StoreValue :=
  getValue (store st) (getNamePath name).

Definition getInitialValue (st : FormStore) (namePath : InternalNamePath)
  : StoreValue :=
  let initValue := getValue (initialValues (config st)) namePath in
  match namePath with
  | [] => initValue
  | _ => cloneDeep initValue
  end.

(** [Field.isFieldDirty], the store being the one of the field's context. *)
Definition isFieldDirty (st : FormStore) (f : Field) : bool :=
  if dirty f || isDefined (initialValue (props f)) then true
  else if isDefined (getInitialValue st (fieldNamePath f)) then true
  else false.

(** [getFields] *)
Definition getFields (st : FormStore) : list InternalFieldData :=
  map (fun field =>
         let namePath := fieldNamePath field in
         let meta := getMeta field in
         {| ifd_touched := meta_touched meta;
            ifd_validating := meta_validating meta;
            ifd_errors := meta_errors meta;
            ifd_warnings := meta_warnings meta;
            ifd_name := namePath;
            ifd_value := getFieldValue st (NameList namePath) |})
      (getFieldEntities st true).

(** *** Observers *)

(** [notifyWatch(namePath)] *)
Definition notifyWatch (st : FormStore) (namePath : list InternalNamePath)
  : FormStore :=
  let st := emit st [FxNotifyWatch namePath] in
  match watchList (config st) with
  | [] => st
  | watchers =>
      let values := getFieldsValue st None None in
      emit st (map (fun callback => FxWatch callback values namePath) watchers)
  end.

(** The [forEach] of [notifyObservers]: each field reacts in turn. *)
Definition broadcast (fields : list Field) (prevStore : Store)
    (namePathList : option (list InternalNamePath)) (info : NotifyInfo)
    (store : Store) : list Field * list Effect :=
  let reactions :=
    map (fun field =>
           let '(field', fx) := onStoreChange field prevStore namePathList info store in
           (field', FxStoreChange (fid field) info :: fx)) fields in
  (map fst reactions, concat (map snd reactions)).

(** [notifyObservers(prevStore, namePathList, info)] *)
Definition notifyObservers (st : FormStore) (prevStore : Store)
    (namePathList : option (list InternalNamePath)) (info : NotifyInfo)
  : FormStore :=
  let st := emit st [FxNotify prevStore namePathList info (store st)] in
  if subscribable (config st) then
    let '(fields, fx) :=
      broadcast (getFieldEntities st false) prevStore namePathList info (store st) in
    emit (setFieldEntities st fields) fx
  else emit st [FxForceRootUpdate].


(** *** Reset *)

(** The argument of [resetWithFieldInitialValue]. *)
Record ResetInfoArg : Type := {
  entities : option (list Field);
  namePathList : option (list InternalNamePath);
  skipExist : bool;
}.

(** The [cache] of [resetWithFieldInitialValue]: for each path, the records
    [{ entity, value }] of the fields that declare an [initialValue]. *)
Definition initialValueRecords (st : FormStore)
  : gmap InternalNamePath (list (Field * StoreValue)) :=
  foldl (fun cache field =>
           let initialValue := initialValue (props field) in
           let namePath := fieldNamePath field in
           if isDefined initialValue then
             let records := default [] (cache !! namePath) in
             <[namePath := records ++ [(field, initialValue)]]> cache
           else cache)
        ∅ (getFieldEntities st true).

(** One round of the [forEach] of [resetWithFields]. *)
Definition resetWithField
    (cache : gmap InternalNamePath (list (Field * StoreValue)))
    (skipExist : bool) (st : FormStore) (field : Field) : FormStore :=
  let initialValue := initialValue (props field) in
  if isDefined initialValue then
    let namePath := fieldNamePath field in
    let formInitialValue := getInitialValue st namePath in
    if isDefined formInitialValue then
      warning st
        ("Form already set 'initialValues' with path '"
           +:+ joinNamePath "." namePath +:+ "'. Field can not overwrite it.")
    else
      match cache !! namePath with
      | Some records =>
          if 1 <? length records then
            warning st
              ("Multiple Field with path '" +:+ joinNamePath "." namePath
                 +:+ "' set 'initialValue'. Can not decide which one to pick.")
          else
            match records with
            | (_, value) :: _ =>
                let originValue := getFieldValue st (NameList namePath) in
                if negb skipExist || negb (isDefined originValue)
                then updateStore st (setValue (store st) namePath value false)
                else st
            | [] => st
            end
      | None => st
      end
  else st.

Definition resetWithFieldInitialValue (st : FormStore) (info : ResetInfoArg)
  : FormStore :=
  let cache := initialValueRecords st in
  let fieldEntities := getFieldEntities st true in
  let requiredFieldEntities :=
    match entities info with
    | Some es => es
    | None =>
        match namePathList info with
        | Some paths =>
            concat (map (fun namePath =>
                           match cache !! namePath with
                           | Some records => map fst records
                           | None => []
                           end) paths)
        | None => fieldEntities
        end
    end in
  foldl (resetWithField cache (skipExist info)) st requiredFieldEntities.

(** [resetFields(nameList)] *)
Definition resetFields (st : FormStore) (nameList : option (list NamePath))
  : FormStore :=
  let prevStore := store st in
  match nameList with
  | None =>
      let st := updateStore st (setValues (VObj []) [initialValues (config st)]) in
      let st := resetWithFieldInitialValue st
                  {| entities := None; namePathList := None; skipExist := false |} in
      let st := notifyObservers st prevStore None ResetInfo in
      notifyWatch st []
  | Some names =>
      let namePathList := map getNamePath names in
      let st :=
        foldl (fun st namePath =>
                 let initialValue := getInitialValue st namePath in
                 updateStore st (setValue (store st) namePath initialValue false))
              st namePathList in
      let st := resetWithFieldInitialValue st
                  {| entities := None; namePathList := Some namePathList;
                     skipExist := false |} in
      let st := notifyObservers st prevStore (Some namePathList) ResetInfo in
      notifyWatch st namePathList
  end.

(** *** [setFields] *)

Definition setFields (st : FormStore) (fields : list FieldData) : FormStore :=
  let prevStore := store st in
  let st :=
    foldl (fun st fieldData =>
             let namePath := getNamePath (fd_name fieldData) in
             let st :=
               match fd_value fieldData with
               | Some value =>
                   updateStore st (setValue (store st) namePath value false)
               | None => st
               end in
             notifyObservers st prevStore (Some [namePath]) (SetFieldInfo fieldData))
          st fields in
  notifyWatch st (map (fun fieldData => getNamePath (fd_name fieldData)) fields).

(** [setFieldValue(name, value)] *)
Definition setFieldValue (st : FormStore) (name : NamePath) (value : StoreValue)
  : FormStore :=
  setFields st
    [ {| fd_name := name; fd_value := Some value; fd_touched := None;
         fd_validating := None; fd_errors := None; fd_warnings := None;
         fd_originRCField := false |} ].

(** [setFieldsValue(store)]; a falsy argument is [None]. *)
Definition setFieldsValue (st : FormStore) (newStore : option Store) : FormStore :=
  let prevStore := store st in
  let st :=
    match newStore with
    | Some values => updateStore st (setValues (store st) [values])
    | None => st
    end in
  let st := notifyObservers st prevStore None (ValueUpdateInfo SourceExternal) in
  notifyWatch st [].

(** *** The dependency cascade *)

(** [set.has(field)] and [set.add(field)] on a [Set<FieldEntity>]: entities
    are told apart by identity and kept in insertion order. *)
Definition hasField (field : Field) (set : list Field) : bool :=
  existsb (fun other => Nat.eqb (fid other) (fid field)) set.

Definition addField (field : Field) (set : list Field) : list Field :=
  if hasField field set then set else set ++ [field].

(** The map [dependencies2fields] built by [getDependencyChildrenFields]. *)
Definition dependencies2fields (st : FormStore)
  : gmap InternalNamePath (list Field) :=
  foldl (fun cache field =>
           foldl (fun cache dependency =>
                    let dependencyNamePath := getNamePath dependency in
                    partial_alter
                      (fun fields => Some (addField field (default [] fields)))
                      dependencyNamePath cache)
                 cache (dependencies (props field)))
        ∅ (getFieldEntities st false).

(** [children] and [childrenFields], the two accumulators of
    [getDependencyChildrenFields]. *)
Record Cascade : Type := {
  children : list Field;
  childrenFields : list InternalNamePath;
}.

(** The [forEach] of [fillChildren], [fillChildren] being the nested call:
    an entity that is not yet in [children] enters it and, if it is dirty and
    has a path, has its path collected and its own dependents filled in. *)
Fixpoint fillEach (st : FormStore)
    (fillChildren : InternalNamePath -> Cascade -> option Cascade)
    (fields : list Field) (acc : Cascade) : option Cascade :=
  match fields with
  | [] => Some acc
  | field :: rest =>
      if hasField field (children acc) then fillEach st fillChildren rest acc
      else
        let acc := {| children := addField field (children acc);
                      childrenFields := childrenFields acc |} in
        let fieldNamePath := fieldNamePath field in
        if isFieldDirty st field && negb (bool_decide (fieldNamePath = []))
        then
          match fillChildren fieldNamePath
                  {| children := children acc;
                     childrenFields := childrenFields acc ++ [fieldNamePath] |}
          with
          | Some acc' => fillEach st fillChildren rest acc'
          | None => None
          end
        else fillEach st fillChildren rest acc
  end.

(** [fillChildren(namePath)].  Each nested call comes after a new entity has
    entered [children]; the depth of the recursion is bounded by [fuel], and
    [None] is a run that needs more. *)
Fixpoint fillChildren (st : FormStore) (fuel : nat) (namePath : InternalNamePath)
    (acc : Cascade) : option Cascade :=
  match fuel with
  | O => None
  | S fuel' =>
      let fields := default [] (dependencies2fields st !! namePath) in
      fillEach st (fillChildren st fuel') fields acc
  end.

(** [getDependencyChildrenFields(rootNamePath)], with fuel for as many
    nested calls as there are registered entities. *)
Definition getDependencyChildrenFields (st : FormStore)
    (rootNamePath : InternalNamePath) : list InternalNamePath :=
  match fillChildren st (S (length (fieldEntities st))) rootNamePath
          {| children := []; childrenFields := [] |} with
  | Some acc => childrenFields acc
  | None => []
  end.

(** *** [triggerOnFieldsChange] *)

(** "Fill errors since [fields] may be replaced by controlled fields": the
    errors of the fields are overwritten by the ones of [filedErrors], the
    last entry for a name winning. *)
Definition fillErrors (filedErrors : list FieldError)
    (fields : list InternalFieldData) : list InternalFieldData :=
  let cache : gmap InternalNamePath (list Message) :=
    foldl (fun cache e => <[fe_name e := fe_errors e]> cache) ∅ filedErrors in
  map (fun field =>
         {| ifd_touched := ifd_touched field;
            ifd_validating := ifd_validating field;
            ifd_errors := default (ifd_errors field) (cache !! ifd_name field);
            ifd_warnings := ifd_warnings field;
            ifd_name := ifd_name field;
            ifd_value := ifd_value field |}) fields.

Definition triggerOnFieldsChange (st : FormStore)
    (namePathList : list InternalNamePath) (filedErrors : option (list FieldError))
  : FormStore :=
  if onFieldsChange (callbacks (config st)) then
    let fields := getFields st in
    let fields :=
      match filedErrors with
      | Some fieldErrors => fillErrors fieldErrors fields
      | None => fields
      end in
    let changedFields :=
      List.filter (fun field => containsNamePath namePathList (ifd_name field)) fields in
    emit st [FxOnFieldsChange changedFields fields]
  else st.

(** *** Validation *)

(** [Field.validateRules(options)] up to its [return]: [rootPromise] is the
    promise numbered [root], its body is left in the job queue. *)
Definition fieldValidateRules (store : Store) (f : Field) (root : nat)
    (options : ValidateOptions) : Field * Job * list Effect :=
  let namePath := fieldNamePath f in
  let currentValue := getValue store namePath in
  let f' := withState f (touched f) true (Some (RootPromise root)) [] [] in
  (f', JobRootBody (fid f) root namePath currentValue options,
   triggerMetaEvent f' false ++ reRender f').

(** [{ ...defaultValidateMessages, ...this.validateMessages }] *)
Definition mergedValidateMessages (st : FormStore) : MessageOverrides :=
  let own := formValidateMessages (config st) in
  {| mo_default :=
       Some (default (vm_default defaultValidateMessages) (mo_default own));
     mo_entries := mo_entries own ∪ vm_entries defaultValidateMessages |}.

(** [{ validateMessages: {...}, ...options }] *)
Definition fieldOptions (st : FormStore) (options : ValidateOptions)
  : ValidateOptions :=
  {| triggerName := triggerName options;
     validateMessages :=
       match validateMessages options with
       | Some own => Some own
       | None => Some (mergedValidateMessages st)
       end;
     recursive := recursive options |}.

(** [namePath.every((nameUnit, i) =>
       nameList[i] === nameUnit || nameList[i] === undefined)]:
    an entry of [nameList] is [===] to a segment only if it is that scalar. *)
Definition recursiveMatch (nameList : list NamePath) (namePath : InternalNamePath)
  : bool :=
  forallb (fun b : bool => b)
    (imap (fun i nameUnit =>
             match nameList !! i with
             | None => true
             | Some (NameScalar s) => bool_decide (s = nameUnit)
             | Some (NameList _) => false
             end) namePath).

(** What the [forEach] of [validateFields] has built so far. *)
Record ValidateLoop : Type := {
  vl_namePathList : list InternalNamePath;
  vl_fields : list Field;
  vl_promiseList : list nat;
  vl_next : nat;
  vl_jobs : list Job;
  vl_effects : list Effect;
}.

Definition validateLoopStep (st : FormStore) (nameList : option (list NamePath))
    (options : ValidateOptions) (acc : ValidateLoop) (field : Field)
  : ValidateLoop :=
  let keep (namePathList : list InternalNamePath) :=
    {| vl_namePathList := namePathList;
       vl_fields := vl_fields acc ++ [field];
       vl_promiseList := vl_promiseList acc;
       vl_next := vl_next acc;
       vl_jobs := vl_jobs acc;
       vl_effects := vl_effects acc |} in
  let fieldNamePath := fieldNamePath field in
  if bool_decide (fieldNamePath = []) then keep (vl_namePathList acc)
  else
    let namePathList :=
      match nameList with
      | None => vl_namePathList acc ++ [fieldNamePath]
      | Some names =>
          if recursive options && recursiveMatch names fieldNamePath
          then vl_namePathList acc ++ [fieldNamePath]
          else vl_namePathList acc
      end in
    match rules (props field) with
    | [] => keep namePathList
    | _ :: _ =>
        if bool_decide (nameList = None) || containsNamePath namePathList fieldNamePath
        then
          let '(field', job, fx) :=
            fieldValidateRules (store st) field (vl_next acc) (fieldOptions st options) in
          {| vl_namePathList := namePathList;
             vl_fields := vl_fields acc ++ [field'];
             vl_promiseList := vl_promiseList acc ++ [vl_next acc];
             vl_next := S (vl_next acc);
             vl_jobs := vl_jobs acc ++ [job];
             vl_effects := vl_effects acc ++ fx |}
        else keep namePathList
    end.

(** [validateFields(nameList, options)] up to its [return]: the fields start
    their rules, [summaryPromise] is the promise numbered [vl_next] after the
    loop and becomes [lastValidatePromise]; its reactions wait for it to
    settle. *)
Definition validateFields (st : FormStore) (nameList : option (list NamePath))
    (options : ValidateOptions) : FormStore :=
  let start :=
    {| vl_namePathList :=
         match nameList with Some names => map getNamePath names | None => [] end;
       vl_fields := [];
       vl_promiseList := [];
       vl_next := nextPromise st;
       vl_jobs := jobs st;
       vl_effects := [] |} in
  let loop := foldl (validateLoopStep st nameList options) start (fieldEntities st) in
  let summaryPromise := vl_next loop in
  {| config := config st;
     store := store st;
     fieldEntities := vl_fields loop;
     lastValidatePromise := Some summaryPromise;
     nextPromise := S summaryPromise;
     jobs := vl_jobs loop;
     summaries := summaries st ++ [(summaryPromise, vl_namePathList loop)];
     returned := returned st;
     log := log st ++ vl_effects loop |}.


(** The reaction of a field to the settlement of its rules: only the run
    whose [rootPromise] is still the field's [validatePromise] writes. *)
Definition ruleReaction (root : nat) (ruleErrors : list RuleError) (f : Field)
  : Field * list Effect :=
  if bool_decide (validatePromise f = Some (RootPromise root)) then
    let nextErrors :=
      flat_map (fun e => if warningOnly (filled (rule e)) then [] else errors e)
               ruleErrors in
    let nextWarnings :=
      flat_map (fun e => if warningOnly (filled (rule e)) then errors e else [])
               ruleErrors in
    let f' := withState f (touched f) (dirty f) None nextErrors nextWarnings in
    (f', triggerMetaEvent f' false ++ reRender f')
  else (f, []).

(** A method of the entity [field] run on the registry. *)
Definition onEntity (field : nat) (method : Field -> Field * list Effect)
    (fields : list Field) : list Field * list Effect :=
  let results :=
    map (fun f => if Nat.eqb (fid f) field then method f else (f, [])) fields in
  (map fst results, concat (map snd results)).

(** The rules of a field armed by [triggerName]. *)
Definition filteredRules (f : Field) (options : ValidateOptions) : list RuleObject :=
  match triggerName options with
  | Some triggerName =>
      List.filter (fun rule =>
                     match validateTrigger rule with
                     | None => true
                     | Some triggerList =>
                         existsb (String.eqb triggerName) triggerList
                     end) (rules (props f))
  | None => rules (props f)
  end.

Definition addJob (st : FormStore) (job : Job) : FormStore :=
  setJobs st (jobs st ++ [job]).

Definition settleReturn (st : FormStore) (summary : nat)
    (outcome : Settled Store ValidateErrorEntity) : FormStore :=
  setReturned st (returned st ++ [(summary, outcome)]).

(** Running one promise reaction; [completion] is the order in which the
    rule promises settle, should the reaction start rules in parallel. *)
Definition runJob (st : FormStore) (job : Job) (completion : list nat)
  : FormStore :=
  match job with
  | JobRootBody field root namePath currentValue options =>
      match List.find (fun f => Nat.eqb (fid f) field) (fieldEntities st) with
      | Some f =>
          if mounted f then
            let promise :=
              validateRules namePath currentValue (filteredRules f options) options
                (validateFirst (props f)) (messageVariables (props f)) completion in
            match summaryPromise promise with
            | Pending => st
            | Fulfilled ruleErrors | Rejected ruleErrors =>
                addJob st (JobRuleReaction field root ruleErrors)
            end
          else st
      | None => st
      end
  | JobRuleReaction field root ruleErrors =>
      let '(fields, fx) :=
        onEntity field (ruleReaction root ruleErrors) (fieldEntities st) in
      emit (setFieldEntities st fields) fx
  | JobValidateFinish summary results =>
      let resultNamePathList := map fe_name results in
      let st :=
        notifyObservers st (store st) (Some resultNamePathList) ValidateFinishInfo in
      triggerOnFieldsChange st resultNamePathList (Some results)
  | JobSummaryThen summary namePathList =>
      if bool_decide (lastValidatePromise st = Some summary) then
        settleReturn st summary
          (Fulfilled (getFieldsValue st (Some (map NameList namePathList)) None))
      else addJob st (JobSummaryCatch summary namePathList [])
  | JobSummaryCatch summary namePathList results =>
      let errorList :=
        List.filter (fun result => negb (Nat.eqb (length (fe_errors result)) 0))
                    results in
      settleReturn st summary
        (Rejected
           {| values := getFieldsValue st (Some (map NameList namePathList)) None;
              errorFields := errorList;
              outOfDate := negb (bool_decide (lastValidatePromise st = Some summary)) |})
  end.

(** [summaryPromise] settles.  [allPromiseFinish] of [utils/asyncUtil] is not
    part of the sources: what the promise settles with is left to the caller.
    Its reactions enter the job queue: the one that notifies the fields, and
    the one of [returnPromise] the settlement selects. *)
Definition settleSummary (st : FormStore) (summary : nat)
    (outcome : Settled (list FieldError) (list FieldError)) : FormStore :=
  match List.find (fun s => Nat.eqb (fst s) summary) (summaries st) with
  | None => st
  | Some (_, namePathList) =>
      let pending :=
        List.filter (fun s => negb (Nat.eqb (fst s) summary)) (summaries st) in
      match outcome with
      | Pending => st
      | Fulfilled results =>
          setJobs (setSummaries st pending)
            (jobs st ++ [JobValidateFinish summary results;
                         JobSummaryThen summary namePathList])
      | Rejected results =>
          setJobs (setSummaries st pending)
            (jobs st ++ [JobValidateFinish summary results;
                         JobSummaryCatch summary namePathList results])
      end
  end.


(** *** Value updates *)

(** [triggerDependenciesUpdate(prevStore, namePath)]: the store after the
    call and the [childrenFields] it returns. *)
Definition triggerDependenciesUpdate (st : FormStore) (prevStore : Store)
    (namePath : InternalNamePath) : FormStore * list InternalNamePath :=
  let childrenFields := getDependencyChildrenFields st namePath in
  let st :=
    match childrenFields with
    | [] => st
    | _ :: _ =>
        validateFields st (Some (map NameList childrenFields))
          {| triggerName := None; validateMessages := None; recursive := false |}
    end in
  (notifyObservers st prevStore (Some childrenFields)
     (DependenciesUpdateInfo (namePath :: childrenFields)),
   childrenFields).

(** [updateValue(name, value)] *)
Definition updateValue (st : FormStore) (name : NamePath) (value : StoreValue)
  : FormStore :=
  let namePath := getNamePath name in
  let prevStore := store st in
  let st := updateStore st (setValue (store st) namePath value false) in
  let st := notifyObservers st prevStore (Some [namePath])
              (ValueUpdateInfo SourceInternal) in
  let st := notifyWatch st [namePath] in
  let '(st, childrenFields) := triggerDependenciesUpdate st prevStore namePath in
  let st :=
    if onValuesChange (callbacks (config st)) then
      let changedValues := cloneByNamePathList (store st) [namePath] in
      emit st [FxOnValuesChange changedValues (getFieldsValue st None None)]
    else st in
  triggerOnFieldsChange st (namePath :: childrenFields) None.

(** [ReducerAction] *)
Inductive ReducerAction : Type :=
  | UpdateAction (namePath : InternalNamePath) (value : StoreValue)
  | ValidateAction (namePath : InternalNamePath) (triggerName : string).

Definition dispatch (st : FormStore) (action : ReducerAction) : FormStore :=
  match action with
  | UpdateAction namePath value => updateValue st (NameList namePath) value
  | ValidateAction namePath triggerName =>
      validateFields st (Some [NameList namePath])
        {| triggerName := Some triggerName; validateMessages := None;
           recursive := false |}
  end.

(** The handler [getControlled] installs under the [trigger] prop of the
    child: the field becomes touched and dirty, then dispatches
    [updateValue]. *)
Definition triggerChange (st : FormStore) (field : nat) (newValue : StoreValue)
  : FormStore :=
  match List.find (fun f => Nat.eqb (fid f) field) (fieldEntities st) with
  | None => st
  | Some f =>
      let '(fields, fx) :=
        onEntity field
          (fun f =>
             let f' := withState f true true (validatePromise f)
                         (getErrors f) (getWarnings f) in
             (f', triggerMetaEvent f' false))
          (fieldEntities st) in
      dispatch (emit (setFieldEntities st fields) fx)
        (UpdateAction (fieldNamePath f) newValue)
  end.

(** *** Registration *)

(** [initEntityValue(entity)] *)
Definition initEntityValue (st : FormStore) (entity : Field) : FormStore :=
  let initialValue := initialValue (props entity) in
  if isDefined initialValue then
    let namePath := fieldNamePath entity in
    let prevValue := getValue (store st) namePath in
    if negb (isDefined prevValue)
    then updateStore st (setValue (store st) namePath initialValue false)
    else st
  else st.

Definition isMergedPreserve (st : FormStore) (fieldPreserve : option bool) : bool :=
  let mergedPreserve :=
    match fieldPreserve with
    | Some b => Some b
    | None => formPreserve (config st)
    end in
  default true mergedPreserve.

(** [registerField(entity)] up to its [return]. *)
Definition registerField (st : FormStore) (entity : Field) : FormStore :=
  let st := setFieldEntities st (fieldEntities st ++ [entity]) in
  let namePath := fieldNamePath entity in
  let st := notifyWatch st [namePath] in
  if isDefined (initialValue (props entity)) then
    let prevStore := store st in
    let st := resetWithFieldInitialValue st
                {| entities := Some [entity]; namePathList := None;
                   skipExist := true |} in
    notifyObservers st prevStore (Some [fieldNamePath entity])
      (ValueUpdateInfo SourceInternal)
  else st.

(** The function [registerField(entity)] returns, called with
    [(isListField, preserve, subNamePath)]. *)
Definition unregisterField (st : FormStore) (entity : Field)
    (isListField : bool) (preserve : option bool) (subNamePath : InternalNamePath)
  : FormStore :=
  let namePath := fieldNamePath entity in
  let st :=
    setFieldEntities st
      (List.filter (fun item => negb (Nat.eqb (fid item) (fid entity)))
                   (fieldEntities st)) in
  let st :=
    if negb (isMergedPreserve st preserve)
       && (negb isListField || (1 <? length subNamePath))
    then
      let defaultValue :=
        if isListField then VUndefined else getInitialValue st namePath in
      if negb (bool_decide (namePath = []))
         && negb (strictEq (getFieldValue st (NameList namePath)) defaultValue)
         && forallb (fun field => negb (matchNamePath (fieldNamePath field) namePath))
                    (fieldEntities st)
      then
        let prevStore := store st in
        let st := updateStore st (setValue prevStore namePath defaultValue true) in
        let st := notifyObservers st prevStore (Some [namePath]) RemoveInfo in
        fst (triggerDependenciesUpdate st prevStore namePath)
      else st
    else st in
  notifyWatch st [namePath].

(** [Field.cancelRegister], for a registered entity. *)
Definition cancelRegister (st : FormStore) (entity : Field) : FormStore :=
  unregisterField st entity (isListField (props entity)) (preserve (props entity))
    (default [] (name (props entity))).

(** ** The store in time *)

(** What happens to a store: a call of its interface, the settlement of a
    summary promise, or the job queue running one of its reactions. *)
Inductive Event : Type :=
  | EvValidateFields (nameList : option (list NamePath)) (options : ValidateOptions)
  | EvSetFields (fields : list FieldData)
  | EvSetFieldValue (name : NamePath) (value : StoreValue)
  | EvSetFieldsValue (newStore : option Store)
  | EvResetFields (nameList : option (list NamePath))
  | EvDispatch (action : ReducerAction)
  | EvTriggerChange (field : nat) (newValue : StoreValue)
  | EvRegisterField (entity : Field)
  | EvCancelRegister (field : nat)
  | EvSettleSummary (summary : nat)
      (outcome : Settled (list FieldError) (list FieldError))
  | EvRunJob (index : nat) (completion : list nat).

Definition step (st : FormStore) (ev : Event) : FormStore :=
  match ev with
  | EvValidateFields nameList options => validateFields st nameList options
  | EvSetFields fields => setFields st fields
  | EvSetFieldValue name value => setFieldValue st name value
  | EvSetFieldsValue newStore => setFieldsValue st newStore
  | EvResetFields nameList => resetFields st nameList
  | EvDispatch action => dispatch st action
  | EvTriggerChange field newValue => triggerChange st field newValue
  | EvRegisterField entity => registerField (initEntityValue st entity) entity
  | EvCancelRegister field =>
      match List.find (fun f => Nat.eqb (fid f) field) (fieldEntities st) with
      | Some entity => cancelRegister st entity
      | None => st
      end
  | EvSettleSummary summary outcome => settleSummary st summary outcome
  | EvRunJob index completion =>
      match jobs st !! index with
      | Some job => runJob (setJobs st (delete index (jobs st))) job completion
      | None => st
      end
  end.

Definition run (st : FormStore) (events : list Event) : FormStore :=
  foldl step st events.

(** A new [FormStore]. *)
Definition newFormStore : FormStore :=
  {| config :=
       {| subscribable := true;
          initialValues := VObj [];
          callbacks := {| onValuesChange := false; onFieldsChange := false;
                          onFinish := false; onFinishFailed := false |};
          formValidateMessages := noOverrides;
          formPreserve := None;
          watchList := [] |};
     store := VObj [];
     fieldEntities := [];
     lastValidatePromise := None;
     nextPromise := 0;
     jobs := [];
     summaries := [];
     returned := [];
     log := [] |}.


(** ** Vocabulary of the statements *)

Definition isWarning (r : FilledRule) : bool := warningOnly (filled r).

Definition isError (r : FilledRule) : bool := negb (warningOnly (filled r)).

(** A rule that produces an error message. *)
Definition fails (name : string) (value : StoreValue) (options : ValidateOptions)
    (messageVariables : gmap string string) (r : FilledRule) : bool :=
  negb (Nat.eqb (length (validateRule name value r options messageVariables)) 0).


(** The messages of the rules that are not [warningOnly]. *)
Definition mergedErrors (ruleErrors : list RuleError) : list Message :=
  flat_map (fun e => if warningOnly (filled (rule e)) then [] else errors e)
           ruleErrors.

(** The messages of the [warningOnly] rules. *)
Definition mergedWarnings (ruleErrors : list RuleError) : list Message :=
  flat_map (fun e => if warningOnly (filled (rule e)) then errors e else [])
           ruleErrors.





(** The promise machinery of a store: everything a validation run can
    change besides the fields and the log. *)
Definition promiseCore (st : FormStore)
  : option nat * nat * list Job * list (nat * list InternalNamePath)
    * list (nat * Settled Store ValidateErrorEntity) :=
  (lastValidatePromise st, nextPromise st, jobs st, summaries st, returned st).

(** A store with another [lastValidatePromise]. *)
Definition withLastValidatePromise (st : FormStore) (promise : option nat)
  : FormStore :=
  {| config := config st; store := store st;
     fieldEntities := fieldEntities st;
     lastValidatePromise := promise;
     nextPromise := nextPromise st; jobs := jobs st;
     summaries := summaries st; returned := returned st; log := log st |}.

(** The calls of [notifyObservers] among effects: the paths and the info. *)
Definition notifications (fx : list Effect)
  : list (option (list InternalNamePath) * NotifyInfo) :=
  omap (fun e => match e with
                 | FxNotify _ namePathList info _ => Some (namePathList, info)
                 | _ => None
                 end) fx.

(** The calls of [notifyWatch] among effects. *)
Definition watchNotifications (fx : list Effect) : list (list InternalNamePath) :=
  omap (fun e => match e with FxNotifyWatch namePath => Some namePath | _ => None end)
       fx.

(** The calls of [onStoreChange] among effects: the entity and the info. *)
Definition storeChanges (fx : list Effect) : list (nat * NotifyInfo) :=
  omap (fun e => match e with
                 | FxStoreChange field info => Some (field, info)
                 | _ => None
                 end) fx.

(** The calls of [onValuesChange] and [onFieldsChange] among effects. *)
Definition callbackCalls (fx : list Effect) : list Effect :=
  List.filter (fun e => match e with
                        | FxOnValuesChange _ _ | FxOnFieldsChange _ _ => true
                        | _ => false
                        end) fx.

(** The calls of watch callbacks among effects. *)
Definition watchCalls (fx : list Effect) : list Effect :=
  List.filter (fun e => match e with FxWatch _ _ _ => true | _ => false end) fx.

(** What a field does on its own: meta events, renders, its reset callback. *)
Definition isFieldEffect (e : Effect) : bool :=
  match e with
  | FxMetaEvent _ _ _ | FxReRender _ | FxRefresh _ | FxOnReset _ => true
  | _ => false
  end.


(** [st'] continues [st]: promise identities are only added, a new
    [lastValidatePromise] is a new identity, no [returnPromise] has settled
    in between and the summary promises that were pending still are. *)
Definition continues (st st' : FormStore) : Prop :=
  nextPromise st <= nextPromise st'
  /\ (lastValidatePromise st' = lastValidatePromise st
      \/ exists l, lastValidatePromise st' = Some l
                   /\ nextPromise st <= l < nextPromise st')
  /\ returned st' = returned st
  /\ exists more, summaries st' = summaries st ++ more.

(** The events that are calls of the interface of the store. *)
Definition isCall (ev : Event) : bool :=
  match ev with
  | EvSettleSummary _ _ | EvRunJob _ _ => false
  | _ => true
  end.

(** The events that settle the summary promise [summary]. *)
Definition settles (summary : nat) (ev : Event) : bool :=
  match ev with
  | EvSettleSummary s _ => Nat.eqb s summary
  | _ => false
  end.


(** A call whose summary promise is not [lastValidatePromise] any more. *)
Definition superseded (st : FormStore) (summary : nat) : Prop :=
  summary < nextPromise st /\ lastValidatePromise st <> Some summary.


(** A field declares a dependency on a path. *)
Definition declaresDependency (field : Field) (namePath : InternalNamePath) : bool :=
  existsb (fun dependency => bool_decide (getNamePath dependency = namePath))
          (dependencies (props field)).

(** The test [fillChildren] makes before it collects a field and goes on
    with the path of the field. *)
Definition cascades (st : FormStore) (field : Field) : bool :=
  isFieldDirty st field && negb (bool_decide (fieldNamePath field = [])).

(** The fields the cascade from [rootNamePath] collects: registered, dirty
    in the sense of [isFieldDirty], with a path, and with a dependency on
    [rootNamePath] or on the path of a collected field. *)
Inductive Cascaded (st : FormStore) (rootNamePath : InternalNamePath)
  : Field -> Prop :=
  | Cascaded_root (field : Field) :
      In field (fieldEntities st) ->
      declaresDependency field rootNamePath = true ->
      cascades st field = true ->
      Cascaded st rootNamePath field
  | Cascaded_step (parent field : Field) :
      Cascaded st rootNamePath parent ->
      In field (fieldEntities st) ->
      declaresDependency field (fieldNamePath parent) = true ->
      cascades st field = true ->
      Cascaded st rootNamePath field.


(** The registered entities a cascade has not met yet. *)
Definition unvisited (st : FormStore) (children : list Field) : nat :=
  length (List.filter (fun field => negb (hasField field children))
                      (fieldEntities st)).

(** The fields [dependencies2fields] holds for a path. *)
Definition dependents (st : FormStore) (namePath : InternalNamePath) : list Field :=
  default [] (dependencies2fields st !! namePath).


(** The accumulators of a cascade are in step: the entities met are
    registered and distinct, and the paths collected are the ones of the
    entities that passed the test, in the order they were met. *)
Definition cascadeWellFormed (st : FormStore) (acc : Cascade) : Prop :=
  (forall f, In f (children acc) -> In f (fieldEntities st))
  /\ NoDup (map fid (children acc))
  /\ childrenFields acc
     = map fieldNamePath (List.filter (cascades st) (children acc)).

(** A path [fillChildren] is called on: the root, or the path of a collected
    field. *)
Definition cascadePath (st : FormStore) (rootNamePath namePath : InternalNamePath)
  : Prop :=
  namePath = rootNamePath
  \/ exists parent, Cascaded st rootNamePath parent /\ fieldNamePath parent = namePath.

(** Every entity met that passed the test is one the cascade collects. *)
Definition cascadeSound (st : FormStore) (rootNamePath : InternalNamePath)
    (acc : Cascade) : Prop :=
  forall g, In g (children acc) -> cascades st g = true ->
            Cascaded st rootNamePath g.

(** From [acc] to [acc'], the fields of [fields] have been met, and so have
    the dependents of every entity met in between that passed the test. *)
Definition cascadeFills (st : FormStore) (fields : list Field) (acc acc' : Cascade)
  : Prop :=
  exists new,
    children acc' = children acc ++ new
    /\ (forall g, In g new -> cascades st g = true ->
                  forall f, In f (dependents st (fieldNamePath g)) ->
                            In f (children acc'))
    /\ (forall f, In f fields -> In f (children acc')).


(** ** Sample forms *)

Definition sampleRule (d : Descriptor) (v : option Validator) : RuleObject :=
  {| warningOnly := false; validateTrigger := None; validator := v;
     descriptor := d; enum := []; ruleVars := ∅ |}.

Definition sampleOptions : ValidateOptions :=
  {| triggerName := None; validateMessages := None; recursive := false |}.

(** A mounted field that nobody has touched. *)
Definition sampleField (id : nat) (path : string) (deps : list NamePath)
    (rs : list RuleObject) (init : StoreValue) : Field :=
  {| fid := id;
     props :=
       {| dependencies := deps; name := Some [SegStr path]; rules := rs;
          shouldUpdate := ShouldUpdateAbsent; validateFirst := ValidateFirstFalse;
          messageVariables := ∅; initialValue := init; onReset := false;
          preserve := None; isListField := false; prefixName := [] |};
     mounted := true; touched := false; dirty := false; validatePromise := None;
     getErrors := []; getWarnings := [] |}.

Definition sampleConfig (subscribe : bool) (initial : Store) : Config :=
  {| subscribable := subscribe;
     initialValues := initial;
     callbacks := {| onValuesChange := false; onFieldsChange := false;
                     onFinish := false; onFinishFailed := false |};
     formValidateMessages := noOverrides;
     formPreserve := None;
     watchList := [] |}.

(** A new store with the given configuration and live values. *)
Definition sampleStore (c : Config) (live : Store) : FormStore :=
  {| config := c; store := live; fieldEntities := [];
     lastValidatePromise := None; nextPromise := 0; jobs := []; summaries := [];
     returned := []; log := [] |}.

(** The field [user], with one rule. *)
Definition userField (required : Descriptor) : Field :=
  sampleField 1 "user" [] [sampleRule required None] VUndefined.

Definition userRequired : FieldError :=
  {| fe_name := [SegStr "user"]; fe_errors := ["'user' is required"];
     fe_warnings := [] |}.

(** A store with the one field [user], without value. *)
Definition userStore (subscribe : bool) (required : Descriptor) : FormStore :=
  run (sampleStore (sampleConfig subscribe (VObj [])) (VObj []))
    [EvRegisterField (userField required)].

(** [confirm] depends on [user] and declares an initial value. *)
Definition confirmField (required : Descriptor) : Field :=
  sampleField 2 "confirm" [NameScalar (SegStr "user")] [sampleRule required None]
    (VNum 5).

Definition cascadeStore (required : Descriptor) : FormStore :=
  run (userStore true required) [EvRegisterField (confirmField required)].


(** ** The queries of the form instance *)

(** [getFieldsError(nameList)]: the entry of an entity that is not
    registered takes its name from [nameList[index]]. *)
Definition getFieldsError (st : FormStore) (nameList : option (list NamePath))
  : list FieldError :=
  imap (fun index (entity : Field + InternalNamePath) =>
          match entity with
          | inl field =>
              {| fe_name := fieldNamePath field;
                 fe_errors := getErrors field;
                 fe_warnings := getWarnings field |}
          | inr _ =>
              {| fe_name :=
                   match nameList with
                   | Some names => default [] (getNamePath <$> names !! index)
                   | None => []
                   end;
                 fe_errors := [];
                 fe_warnings := [] |}
          end)
       (getFieldEntitiesForNamePathList st nameList).

(** [getFieldError(name)]: [this.getFieldsError([namePath])[0].errors]. *)
Definition getFieldError (st : FormStore) (name : NamePath) : list Message :=
  let namePath := getNamePath name in
  match getFieldsError st (Some [NameList namePath]) with
  | fieldError :: _ => fe_errors fieldError
  | [] => []
  end.

(** [getFieldWarning(name)] *)
Definition getFieldWarning (st : FormStore) (name : NamePath) : list Message :=
  let namePath := getNamePath name in
  match getFieldsError st (Some [NameList namePath]) with
  | fieldError :: _ => fe_warnings fieldError
  | [] => []
  end.

(** The ways [isFieldsTouched(...args)] is called: without argument, with a
    list of names, with the flag, with both. *)
Inductive TouchedArgs : Type :=
  | TouchedNoArgs
  | TouchedNames (nameList : list NamePath)
  | TouchedAll (allFieldsTouched : bool)
  | TouchedNamesAll (nameList : list NamePath) (allFieldsTouched : bool).

(** [shortNamePath.every((nameUnit, i) => fieldNamePath[i] === nameUnit)] *)
Definition everyUnitMatches (shortNamePath fieldNamePath : InternalNamePath) : bool :=
  forallb (fun b : bool => b)
    (imap (fun i nameUnit =>
             match fieldNamePath !! i with
             | Some unit => bool_decide (unit = nameUnit)
             | None => false
             end) shortNamePath).

(** [isFieldsTouched(...args)]; the [NameMap] is the one of [getFieldsMap],
    [map.update] that of [dependencies2fields]. *)
Definition isFieldsTouched (st : FormStore) (args : TouchedArgs) : bool :=
  let '(namePathList, isAllFieldsTouched) :=
    match args with
    | TouchedNoArgs => (None, false)
    | TouchedNames arg0 => (Some (map getNamePath arg0), false)
    | TouchedAll arg0 => (None, arg0)
    | TouchedNamesAll arg0 arg1 => (Some (map getNamePath arg0), arg1)
    end in
  let fieldEntities := getFieldEntities st true in
  match namePathList with
  | None =>
      if isAllFieldsTouched then forallb isFieldTouched fieldEntities
      else existsb isFieldTouched fieldEntities
  | Some namePathList =>
      let empty : gmap InternalNamePath (list Field) :=
        foldl (fun cache shortNamePath => <[shortNamePath := []]> cache)
              ∅ namePathList in
      let filled :=
        foldl (fun cache field =>
                 foldl (fun cache shortNamePath =>
                          if everyUnitMatches shortNamePath (fieldNamePath field)
                          then partial_alter
                                 (fun list => Some (default [] list ++ [field]))
                                 shortNamePath cache
                          else cache)
                       cache namePathList)
              empty fieldEntities in
      let isNamePathListTouched (entities : list Field) :=
        existsb isFieldTouched entities in
      let namePathListEntities := (map_to_list filled).*2 in
      if isAllFieldsTouched
      then forallb isNamePathListTouched namePathListEntities
      else existsb isNamePathListTouched namePathListEntities
  end.

(** [FormStore.isFieldTouched(name)]: [this.isFieldsTouched([name])]. *)
Definition FormStore_isFieldTouched (st : FormStore) (name : NamePath) : bool :=
  isFieldsTouched st (TouchedNames [name]).

(** [isFieldsValidating(nameList)] *)
Definition isFieldsValidating (st : FormStore) (nameList : option (list NamePath))
  : bool :=
  let fieldEntities := getFieldEntities st false in
  match nameList with
  | None => existsb isFieldValidating fieldEntities
  | Some names =>
      let namePathList := map getNamePath names in
      existsb (fun testField =>
                 let fieldNamePath := fieldNamePath testField in
                 containsNamePath namePathList fieldNamePath
                 && isFieldValidating testField)
              fieldEntities
  end.

(** [FormStore.isFieldValidating(name)]: [this.isFieldsValidating([name])]. *)
Definition FormStore_isFieldValidating (st : FormStore) (name : NamePath) : bool :=
  isFieldsValidating st (Some [name]).

(** ** The hooks of the form instance *)

(** [useSubscribe(subscribable)] *)
Definition useSubscribe (st : FormStore) (subscribable' : bool) : FormStore :=
  setConfig st
    {| subscribable := subscribable';
       initialValues := initialValues (config st);
       callbacks := callbacks (config st);
       formValidateMessages := formValidateMessages (config st);
       formPreserve := formPreserve (config st);
       watchList := watchList (config st) |}.

(** [setCallbacks(callbacks)] *)
Definition setCallbacks (st : FormStore) (callbacks' : Callbacks) : FormStore :=
  setConfig st
    {| subscribable := subscribable (config st);
       initialValues := initialValues (config st);
       callbacks := callbacks';
       formValidateMessages := formValidateMessages (config st);
       formPreserve := formPreserve (config st);
       watchList := watchList (config st) |}.

(** [setPreserve(preserve)] *)
Definition setPreserve (st : FormStore) (preserve' : option bool) : FormStore :=
  setConfig st
    {| subscribable := subscribable (config st);
       initialValues := initialValues (config st);
       callbacks := callbacks (config st);
       formValidateMessages := formValidateMessages (config st);
       formPreserve := preserve';
       watchList := watchList (config st) |}.

Definition setWatchList (st : FormStore) (watchList' : list nat) : FormStore :=
  setConfig st
    {| subscribable := subscribable (config st);
       initialValues := initialValues (config st);
       callbacks := callbacks (config st);
       formValidateMessages := formValidateMessages (config st);
       formPreserve := formPreserve (config st);
       watchList := watchList' |}.

(** [registerWatch(callback)] up to its [return]: [watchList.push(callback)];
    a callback is told apart by its number. *)
Definition registerWatch (st : FormStore) (callback : nat) : FormStore :=
  setWatchList st (watchList (config st) ++ [callback]).

(** The function [registerWatch(callback)] returns:
    [watchList.filter(fn => fn !== callback)]. *)
Definition cancelWatch (st : FormStore) (callback : nat) : FormStore :=
  setWatchList st
    (List.filter (fun fn => negb (Nat.eqb fn callback)) (watchList (config st))).

(** ** [submit] *)

(** The calls [submit] makes once [validateFields()] has answered. *)
Inductive SubmitCall : Type :=
  | OnFinish (values : Store)
  | OnFinishFailed (errorInfo : ValidateErrorEntity).

(** [submit()] up to its [return]: [this.validateFields()]. *)
Definition submit (st : FormStore) : FormStore :=
  validateFields st None
    {| triggerName := None; validateMessages := None; recursive := false |}.

(** The reactions [submit] chains on the promise of [validateFields]:
    [.then(values => onFinish(values))], the call guarded by [try], and
    [.catch(e => onFinishFailed(e))]; the callbacks are the ones the store
    holds when the promise settles. *)
Definition submitReaction (st : FormStore)
    (outcome : Settled Store ValidateErrorEntity) : list SubmitCall :=
  match outcome with
  | Pending => []
  | Fulfilled values =>
      if onFinish (callbacks (config st)) then [OnFinish values] else []
  | Rejected e =>
      if onFinishFailed (callbacks (config st)) then [OnFinishFailed e] else []
  end.

(** ** Vocabulary of further statements *)

(** The key of a placeholder: [\w+]. *)
Fixpoint allWordChars (s : string) : bool :=
  match s with
  | EmptyString => true
  | String c rest => isWordChar c && allWordChars rest
  end.

Definition isPlaceholderKey (key : string) : bool :=
  negb (String.eqb key "") && allWordChars key.

(** A text without dollar sign. *)
Fixpoint noDollar (s : string) : bool :=
  match s with
  | EmptyString => true
  | String c rest => negb (Ascii.eqb c "$") && noDollar rest
  end.

(** The events that register or unregister an entity. *)
Definition isRegistration (ev : Event) : bool :=
  match ev with
  | EvRegisterField _ | EvCancelRegister _ => true
  | _ => false
  end.

(** The renders among effects: forced updates and refreshes of a field. *)
Definition renders (fx : list Effect) : list Effect :=
  List.filter (fun e => match e with
                        | FxReRender _ | FxRefresh _ => true
                        | _ => false
                        end) fx.

(** The state of a field after the [reset] branch of [onStoreChange]. *)
Definition resetState (f : Field) : Field := withState f false false None [] [].

(** Whether [validateFields(nameList, options)] starts the rules of a
    field: the field has a path and rules, and no [nameList] is given, or its
    path is in [nameList], or [options.recursive] is set and [nameList] read
    as one path matches its path. *)
Definition validates (nameList : option (list NamePath)) (options : ValidateOptions)
    (field : Field) : bool :=
  negb (bool_decide (fieldNamePath field = []))
  && negb (bool_decide (rules (props field) = []))
  && match nameList with
     | None => true
     | Some names =>
         containsNamePath (map getNamePath names) (fieldNamePath field)
         || (recursive options && recursiveMatch names (fieldNamePath field))
     end.

(** What makes an entity the entity it is: its identity, its props and
    whether it is mounted; the rest is its state. *)
Definition entityOf (f : Field) : nat * InternalFieldProps * bool :=
  (fid f, props f, mounted f).

(** From [f] to [f'] the entity is the same, touched as before, and dirty
    if it was. *)
Definition staysTouched (f f' : Field) : Prop :=
  entityOf f' = entityOf f
  /\ touched f' = touched f
  /\ (dirty f = true -> dirty f' = true).

(** A call of the watch callback [callback]. *)
Definition callsWatch (callback : nat) (e : Effect) : bool :=
  match e with
  | FxWatch c _ _ => Nat.eqb c callback
  | _ => false
  end.

(** From [st] to [st'] the hooks have set nothing and the watch callback
    [callback] has not been called. *)
Definition silentFor (callback : nat) (st st' : FormStore) : Prop :=
  config st' = config st
  /\ List.filter (callsWatch callback) (log st')
     = List.filter (callsWatch callback) (log st).

(** ** Further sample forms *)

(** The variables of a message about the field [user]. *)
Definition nameVariables (key : string) : string :=
  if String.eqb key "name" then "user" else "".

(** A rule that only warns. *)
Definition warningRule (d : Descriptor) : RuleObject :=
  {| warningOnly := true; validateTrigger := None; validator := None;
     descriptor := d; enum := []; ruleVars := ∅ |}.

(** A rule that waits for [onBlur]. *)
Definition blurRule (d : Descriptor) : RuleObject :=
  {| warningOnly := false; validateTrigger := Some ["onBlur"]; validator := None;
     descriptor := d; enum := []; ruleVars := ∅ |}.

(** The options of a validation that [onChange] triggers. *)
Definition changeOptions : ValidateOptions :=
  {| triggerName := Some "onChange"; validateMessages := None; recursive := false |}.

(** The field [code], validated in ['parallel'] mode. *)
Definition codeField (rs : list RuleObject) : Field :=
  {| fid := 3;
     props :=
       {| dependencies := []; name := Some [SegStr "code"]; rules := rs;
          shouldUpdate := ShouldUpdateAbsent; validateFirst := ValidateFirstParallel;
          messageVariables := ∅; initialValue := VUndefined; onReset := false;
          preserve := None; isListField := false; prefixName := [] |};
     mounted := true; touched := false; dirty := false; validatePromise := None;
     getErrors := []; getWarnings := [] |}.

(** A store with two fields under the name [user], the second without
    rules. *)
Definition twinStore (required : Descriptor) : FormStore :=
  run (userStore true required)
    [EvRegisterField (sampleField 2 "user" [] [] VUndefined)].

(** * Properties *)

(** ** The rule engine *)

Lemma sortInsert_head {A} (compare : A -> A -> Z) x l :
  Forall (fun y => (compare x y <= 0)%Z) l -> sortInsert compare x l = x :: l.
Proof.
  destruct 1 as [|y l Hy _]; simpl; [reflexivity|].
  destruct (Z.leb_spec (compare x y) 0); [reflexivity|lia].
Qed.

Lemma sortInsert_skip {A} (compare : A -> A -> Z) x l1 l2 :
  Forall (fun y => (0 < compare x y)%Z) l1 ->
  sortInsert compare x (l1 ++ l2) = l1 ++ sortInsert compare x l2.
Proof.
  induction 1 as [|y l1 Hy _ IH]; simpl; [reflexivity|].
  destruct (Z.leb_spec (compare x y) 0); [lia|]. by rewrite IH.
Qed.

Lemma imap_fillRule_index (k : nat) (l : list RuleObject) :
  Forall (fun r : FilledRule => k <= ruleIndex r) (imap (fun i => fillRule (k + i)) l).
Proof.
  revert k. induction l as [|a l IH]; intros k; simpl; constructor.
  - simpl. lia.
  - specialize (IH (S k)). 
    rewrite (imap_ext _ (fun i => fillRule (S k + i))); last first.
    { intros i x _. simpl. f_equal. lia. }
    eapply Forall_impl; [exact IH|]. simpl. intros; lia.
Qed.

Lemma Forall_filter_bool {A} (P : A -> Prop) f (l : list A) :
  Forall P l -> Forall P (List.filter f l).
Proof.
  induction 1; simpl; [constructor|]. destruct (f x); [constructor|]; done.
Qed.

Lemma Forall_filter_holds {A} (f : A -> bool) (l : list A) :
  Forall (fun x => f x = true) (List.filter f l).
Proof.
  induction l as [|x l IH]; simpl; [constructor|].
  destruct (f x) eqn:E; [constructor|]; done.
Qed.

Lemma sortBy_partition_from (k : nat) (l : list RuleObject) :
  let annotated := imap (fun i => fillRule (k + i)) l in
  sortBy compareRules annotated
  = List.filter isError annotated ++ List.filter isWarning annotated.
Proof.
  revert k. induction l as [|a l IH]; intros k; [reflexivity|].
  cbn zeta. cbn [imap sortBy].
  rewrite (imap_ext _ (fun i => fillRule (S k + i))); last first.
  { intros i x _. simpl. f_equal. lia. }
  specialize (IH (S k)). cbn zeta in IH. rewrite IH. clear IH.
  pose proof (imap_fillRule_index (S k) l) as Hidx.
  set (rest := imap (fun i => fillRule (S k + i)) l) in *.
  assert (He : Forall (fun r : FilledRule => S k <= ruleIndex r /\ isError r = true)
                 (List.filter isError rest)).
  { apply Forall_and; split; [by apply Forall_filter_bool|apply Forall_filter_holds]. }
  assert (Hw : Forall (fun r : FilledRule => S k <= ruleIndex r /\ isWarning r = true)
                 (List.filter isWarning rest)).
  { apply Forall_and; split; [by apply Forall_filter_bool|apply Forall_filter_holds]. }
  replace (k + 0) with k by lia.
  cbn [List.filter]. unfold isError at 2, isWarning at 2. cbn [fillRule filled ruleIndex withValidator warningOnly].
  destruct (warningOnly a) eqn:Ea; cbn [negb].
  - rewrite sortInsert_skip.
    + f_equal. apply sortInsert_head.
      eapply Forall_impl; [exact Hw|]. intros r [Hr Hwr].
      unfold compareRules, isWarning in *. cbn. rewrite Ea, Hwr. cbn. lia.
    + eapply Forall_impl; [exact He|]. intros r [Hr Hwr].
      unfold compareRules, isError in *. cbn. rewrite Ea.
      apply negb_true_iff in Hwr. rewrite Hwr. cbn. lia.
  - cbn [app]. apply sortInsert_head. apply Forall_app; split.
    + eapply Forall_impl; [exact He|]. intros r [Hr Hwr].
      unfold compareRules, isError in *. cbn. rewrite Ea.
      apply negb_true_iff in Hwr. rewrite Hwr. cbn. lia.
    + eapply Forall_impl; [exact Hw|]. intros r [Hr Hwr].
      unfold compareRules, isWarning in *. cbn. rewrite Ea, Hwr. cbn. lia.
Qed.

Lemma imap_fillRule_lookup (k : nat) (l : list RuleObject) (i : nat) (r : FilledRule) :
  imap (fun i => fillRule (k + i)) l !! i = Some r ->
  exists currentRule, l !! i = Some currentRule /\ r = fillRule (k + i) currentRule.
Proof.
  rewrite list_lookup_imap. destruct (l !! i) as [currentRule|]; [|done].
  cbn. intros [= <-]. by exists currentRule.
Qed.

Lemma imap_fillRule_indices (k : nat) (l : list RuleObject) :
  map ruleIndex (imap (fun i => fillRule (k + i)) l) = seq k (length l).
Proof.
  revert k. induction l as [|a l IH]; intros k; [done|].
  cbn [imap map length seq]. f_equal; [cbn; lia|].
  rewrite (imap_ext _ (fun i => fillRule (S k + i))); [apply IH|].
  intros i x _. cbn. f_equal. lia.
Qed.

Lemma filter_partition_Permutation {A} (f : A -> bool) (l : list A) :
  Permutation (List.filter (fun x => negb (f x)) l ++ List.filter f l) l.
Proof.
  induction l as [|x l IH]; [done|]. cbn [List.filter].
  destruct (f x); cbn [negb app].
  - symmetry. apply Permutation_cons_app. by symmetry.
  - by constructor.
Qed.

(** C7: [validateRules] annotates each rule with its position in the list
    it is given ([ruleIndex]): the annotated rule at position [i] carries the
    index [i] and is the rule at position [i] with its validator function,
    if it has one, wrapped.  It then sorts the annotated rules so that the
    rules that are not [warningOnly] come first and the [warningOnly] rules
    after them, each of the two groups in the order of the original
    positions; the sorted list carries every index once. *)
Theorem filledRules_partition (rules : list RuleObject) :
  let annotated := imap fillRule rules in
  filledRules rules
  = List.filter isError annotated ++ List.filter isWarning annotated
  /\ map ruleIndex annotated = seq 0 (length rules)
  /\ (forall i r,
        annotated !! i = Some r ->
        ruleIndex r = i
        /\ exists currentRule,
             rules !! i = Some currentRule
             /\ warningOnly (filled r) = warningOnly currentRule
             /\ filled r
                = withValidator currentRule
                    (callbackValidator <$> validator currentRule))
  /\ Permutation (map ruleIndex (filledRules rules)) (seq 0 (length rules)).
Proof.
  cbv zeta. split; [exact (sortBy_partition_from 0 rules)|].
  split; [exact (imap_fillRule_indices 0 rules)|]. split.
  - intros i r Hr.
    destruct (imap_fillRule_lookup 0 rules i r Hr) as (currentRule & Hi & ->).
    split; [done|]. by exists currentRule.
  - rewrite <- (imap_fillRule_indices 0 rules).
    apply Permutation_map.
    assert (filledRules rules
            = List.filter isError (imap fillRule rules)
                ++ List.filter isWarning (imap fillRule rules)) as ->
      by exact (sortBy_partition_from 0 rules).
    exact (filter_partition_Permutation isWarning (imap fillRule rules)).
Qed.

Lemma fails_false name value options mv r :
  fails name value options mv r = false <->
  validateRule name value r options mv = [].
Proof.
  unfold fails. destruct (validateRule _ _ _ _ _); simpl; split; congruence.
Qed.

Lemma fails_true name value options mv r :
  fails name value options mv r = true <->
  validateRule name value r options mv <> [].
Proof.
  unfold fails. destruct (validateRule _ _ _ _ _); simpl; split; congruence.
Qed.



Lemma validateSerial_pass name value options mv (l : list FilledRule) :
  Forall (fun r => validateRule name value r options mv = []) l ->
  validateSerial name value options mv l
  = {| summaryPromise := Fulfilled []; evaluated := l |}.
Proof.
  induction 1 as [|r l Hr _ IH]; simpl; [reflexivity|].
  rewrite Hr, IH. reflexivity.
Qed.

Lemma validateSerial_first name value options mv (pre post : list FilledRule) (A : FilledRule) :
  Forall (fun r => validateRule name value r options mv = []) pre ->
  validateRule name value A options mv <> [] ->
  validateSerial name value options mv
    (pre ++ A :: post)
  = {| summaryPromise := Rejected [ruleErrorOf name value options mv A];
       evaluated := pre ++ [A] |}.
Proof.
  intros Hpre HA. induction Hpre as [|r l Hr _ IH]; simpl.
  - unfold ruleErrorOf. destruct (validateRule name value A options mv); [done|reflexivity].
  - rewrite Hr, IH. reflexivity.
Qed.

(** C3: with [validateFirst === true] the rules are evaluated one after the
    other in the order of [filledRules]; when a rule produces a message after
    rules that produced none, the promise is rejected with the rule error of
    that rule alone, and the rules evaluated are the ones up to it: no later
    rule is evaluated. *)
Theorem validateRules_serial_first_failure
    (namePath : InternalNamePath) (value : StoreValue) (rules : list RuleObject)
    (options : ValidateOptions) (messageVariables : gmap string string)
    (completion : list nat) (pre post : list FilledRule) (A : FilledRule) :
  let name := joinNamePath "." namePath in
  filledRules rules = pre ++ A :: post ->
  Forall (fun r => validateRule name value r options messageVariables = []) pre ->
  validateRule name value A options messageVariables <> [] ->
  validateRules namePath value rules options ValidateFirstTrue messageVariables completion
  = {| summaryPromise :=
         Rejected [ {| errors := validateRule name value A options messageVariables;
                       rule := A |} ];
       evaluated := pre ++ [A] |}.
Proof.
  intros name Hsplit Hpre HA. unfold validateRules, validateRulesRun.
  rewrite Hsplit. by apply validateSerial_first.
Qed.






Lemma catchValidator_throws (originValidatorFunc : Validator) (value : StoreValue) :
  originValidatorFunc value = Throws ->
  catchValidator (callbackValidator originValidatorFunc) value
  = PromiseRejected (Some CODE_LOGIC_ERROR).
Proof. intros H. unfold catchValidator, callbackValidator. by rewrite H. Qed.

(** C8, as amended: when the validator function of a rule throws, the
    exception does not reach [async-validator]: the validator it is handed
    returns a promise rejected with [CODE_LOGIC_ERROR], and [validateRule]
    yields exactly one message, the [default] entry of the message table in
    force (the default table overlaid with the [validateMessages] of the
    options) with its placeholders filled. *)
Theorem validateRule_validator_throws
    (name : string) (value : StoreValue) (currentRule : RuleObject) (index : nat)
    (originValidatorFunc : Validator)
    (options : ValidateOptions) (messageVariables : gmap string string) :
  let rule := fillRule index currentRule in
  let messages :=
    mergeMessages defaultValidateMessages
      (default noOverrides (validateMessages options)) in
  validator currentRule = Some originValidatorFunc ->
  originValidatorFunc value = Throws ->
  (exists wrapped,
      validator (withValidator (filled rule) (catchValidator <$> validator (filled rule)))
      = Some wrapped
      /\ wrapped value = PromiseRejected (Some CODE_LOGIC_ERROR))
  /\ validateRule name value rule options messageVariables
     = [replaceMessage (vm_default messages)
          (messageContext rule name messageVariables)].
Proof.
  intros rule messages Hv Hthrow. split.
  - eexists. split.
    + subst rule. cbn. rewrite Hv. cbn. reflexivity.
    + by apply catchValidator_throws.
  - unfold validateRule. subst rule. cbn [filled fillRule].
    unfold asyncValidate. cbn [validator withValidator]. rewrite Hv. cbn [fmap option_fmap option_map].
    rewrite (catchValidator_throws _ _ Hthrow).
    cbn [map]. rewrite String.eqb_refl. reflexivity.
Qed.

(** ** Facts on the structural store operations *)

Lemma getProp_setProp (k : Segment) (v : StoreValue) props :
  getProp k (setProp k v props) = Some v.
Proof.
  unfold getProp. induction props as [|[k' v'] props IH]; simpl.
  - rewrite bool_decide_true by done. reflexivity.
  - destruct (bool_decide (k' = k)) eqn:E; simpl.
    + rewrite bool_decide_true by done. reflexivity.
    + rewrite E. exact IH.
Qed.

Lemma getProp_deleteProp (k : Segment) props :
  getProp k (deleteProp k props) = None.
Proof.
  unfold getProp, deleteProp. induction props as [|[k' v'] props IH]; simpl; [done|].
  destruct (bool_decide (k' = k)) eqn:E; simpl; [exact IH|].
  rewrite E. exact IH.
Qed.

Lemma getValue_installValue (store : Store) (namePath : InternalNamePath) (value : StoreValue) :
  getValue (installValue store namePath value) namePath = value.
Proof.
  revert store. induction namePath as [|k rest IH]; intros store; simpl; [done|].
  rewrite getProp_setProp. apply IH.
Qed.

Lemma getValue_removeLeaf (store : Store) (namePath : InternalNamePath) :
  getValue (removeLeaf store namePath) namePath = VUndefined.
Proof.
  revert store. induction namePath as [|k rest IH]; intros store; [done|].
  destruct rest as [|k2 rest].
  - destruct store; try done. simpl. by rewrite getProp_deleteProp.
  - destruct store as [| | | |props]; try done.
    cbn [removeLeaf]. destruct (getProp k props) eqn:E.
    + cbn [getValue]. rewrite getProp_setProp. apply IH.
    + cbn [getValue]. by rewrite E.
Qed.

Lemma getValue_setValue (store : Store) (namePath : InternalNamePath)
    (value : StoreValue) (removeIfUndefined : bool) :
  getValue (setValue store namePath value removeIfUndefined) namePath = value.
Proof.
  unfold setValue. destruct removeIfUndefined, value; simpl;
    auto using getValue_installValue, getValue_removeLeaf.
Qed.

(** *** What the observers leave alone *)

Lemma notifyWatch_frame (st : FormStore) namePath :
  let st' := notifyWatch st namePath in
  config st' = config st /\ store st' = store st
  /\ fieldEntities st' = fieldEntities st
  /\ lastValidatePromise st' = lastValidatePromise st
  /\ nextPromise st' = nextPromise st /\ jobs st' = jobs st
  /\ summaries st' = summaries st /\ returned st' = returned st.
Proof. unfold notifyWatch. simpl. destruct (watchList (config st)); simpl; tauto. Qed.

Lemma notifyObservers_frame (st : FormStore) prevStore namePathList info :
  let st' := notifyObservers st prevStore namePathList info in
  config st' = config st /\ store st' = store st
  /\ lastValidatePromise st' = lastValidatePromise st
  /\ nextPromise st' = nextPromise st /\ jobs st' = jobs st
  /\ summaries st' = summaries st /\ returned st' = returned st.
Proof.
  unfold notifyObservers. cbv zeta. cbn [config emit].
  destruct (subscribable (config st)).
  - destruct (broadcast _ _ _ _ _) as [fields fx]. cbn. tauto.
  - cbn. tauto.
Qed.

Lemma notifyObservers_store (st : FormStore) prevStore namePathList info :
  store (notifyObservers st prevStore namePathList info) = store st.
Proof. apply notifyObservers_frame. Qed.

Lemma notifyWatch_store (st : FormStore) namePath :
  store (notifyWatch st namePath) = store st.
Proof. apply notifyWatch_frame. Qed.

Lemma notifyObservers_config (st : FormStore) prevStore namePathList info :
  config (notifyObservers st prevStore namePathList info) = config st.
Proof. apply notifyObservers_frame. Qed.

Lemma validateFields_store (st : FormStore) nameList options :
  store (validateFields st nameList options) = store st.
Proof. reflexivity. Qed.

Lemma validateFields_config (st : FormStore) nameList options :
  config (validateFields st nameList options) = config st.
Proof. reflexivity. Qed.

Lemma triggerDependenciesUpdate_store (st : FormStore) prevStore namePath :
  store (fst (triggerDependenciesUpdate st prevStore namePath))
  = store st.
Proof.
  unfold triggerDependenciesUpdate. cbn [fst]. rewrite notifyObservers_store.
  by destruct (getDependencyChildrenFields st namePath).
Qed.

(** *** Reset *)


Lemma resetWithField_config cache skipExist (st : FormStore) (field : Field) :
  config (resetWithField cache skipExist st field) = config st.
Proof.
  unfold resetWithField. repeat case_match; reflexivity.
Qed.

Lemma resetWithField_fields cache skipExist (st : FormStore) (field : Field) :
  fieldEntities (resetWithField cache skipExist st field) = fieldEntities st.
Proof.
  unfold resetWithField. repeat case_match; reflexivity.
Qed.

Lemma getInitialValue_config (st st' : FormStore) namePath :
  config st' = config st -> getInitialValue st' namePath = getInitialValue st namePath.
Proof. unfold getInitialValue. by intros ->. Qed.

(** One round of [resetWithFields] for a field at [namePath] that declares a
    value. *)
Lemma resetWithField_store (st : FormStore) cache skipExist (f : Field) :
  isDefined (initialValue (props f)) = true ->
  store (resetWithField cache skipExist st f)
  = if isDefined (getInitialValue st (fieldNamePath f)) then store st
    else match cache !! fieldNamePath f with
         | Some [(_, value)] =>
             if negb skipExist
                || negb (isDefined (getValue (store st) (fieldNamePath f)))
             then setValue (store st) (fieldNamePath f) value false
             else store st
         | _ => store st
         end.
Proof.
  intros Hd. unfold resetWithField. rewrite Hd.
  destruct (isDefined (getInitialValue st _)); [done|].
  destruct (cache !! fieldNamePath f) as [[|[g v] [|? ?]]|]; try done.
  cbn. unfold getFieldValue. cbn. by case_match.
Qed.






Lemma resetWithFieldInitialValue_config (st : FormStore) info :
  config (resetWithFieldInitialValue st info) = config st.
Proof.
  unfold resetWithFieldInitialValue.
  generalize (initialValueRecords st). intros cache.
  match goal with |- config (foldl _ _ ?l) = _ => generalize l end.
  intros l. revert st. induction l as [|f l IH]; intros st; [done|].
  cbn [foldl]. rewrite IH. apply resetWithField_config.
Qed.

Lemma resetWithFieldInitialValue_fields (st : FormStore) info :
  fieldEntities (resetWithFieldInitialValue st info) = fieldEntities st.
Proof.
  unfold resetWithFieldInitialValue.
  generalize (initialValueRecords st). intros cache.
  match goal with |- fieldEntities (foldl _ _ ?l) = _ => generalize l end.
  intros l. revert st. induction l as [|f l IH]; intros st; [done|].
  cbn [foldl]. rewrite IH. apply resetWithField_fields.
Qed.








(** ** What the operations of the store leave alone *)

Lemma promiseCore_emit (st : FormStore) fx : promiseCore (emit st fx) = promiseCore st.
Proof. reflexivity. Qed.

Lemma promiseCore_notifyObservers (st : FormStore) prevStore namePathList info :
  promiseCore (notifyObservers st prevStore namePathList info) = promiseCore st.
Proof.
  unfold promiseCore.
  destruct (notifyObservers_frame st prevStore namePathList info)
    as (_ & _ & -> & -> & -> & -> & ->). reflexivity.
Qed.

Lemma promiseCore_notifyWatch (st : FormStore) namePath :
  promiseCore (notifyWatch st namePath) = promiseCore st.
Proof.
  unfold promiseCore.
  destruct (notifyWatch_frame st namePath)
    as (_ & _ & _ & -> & -> & -> & -> & ->). reflexivity.
Qed.

Lemma promiseCore_resetWithField cache skipExist (st : FormStore) (field : Field) :
  promiseCore (resetWithField cache skipExist st field) = promiseCore st.
Proof. unfold resetWithField. repeat case_match; reflexivity. Qed.

Lemma promiseCore_foldl {A} (f : FormStore -> A -> FormStore) (l : list A) :
  (forall st a, promiseCore (f st a) = promiseCore st) ->
  forall st, promiseCore (foldl f st l) = promiseCore st.
Proof.
  intros Hf. induction l as [|a l IH]; intros st; [done|].
  cbn [foldl]. by rewrite IH, Hf.
Qed.

Lemma promiseCore_resetWithFieldInitialValue (st : FormStore) info :
  promiseCore (resetWithFieldInitialValue st info) = promiseCore st.
Proof.
  unfold resetWithFieldInitialValue. apply promiseCore_foldl.
  intros. apply promiseCore_resetWithField.
Qed.

Lemma promiseCore_resetFields (st : FormStore) nameList :
  promiseCore (resetFields st nameList) = promiseCore st.
Proof.
  unfold resetFields. destruct nameList as [names|].
  - rewrite promiseCore_notifyWatch, promiseCore_notifyObservers,
      promiseCore_resetWithFieldInitialValue.
    by apply promiseCore_foldl.
  - by rewrite promiseCore_notifyWatch, promiseCore_notifyObservers,
      promiseCore_resetWithFieldInitialValue.
Qed.

Lemma promiseCore_setFields (st : FormStore) fields :
  promiseCore (setFields st fields) = promiseCore st.
Proof.
  unfold setFields. rewrite promiseCore_notifyWatch.
  generalize (store st). intros prevStore. revert st.
  induction fields as [|fieldData fields IH]; intros st; [done|].
  cbn [foldl]. rewrite IH, promiseCore_notifyObservers. by case_match.
Qed.

Lemma promiseCore_setFieldValue (st : FormStore) name value :
  promiseCore (setFieldValue st name value) = promiseCore st.
Proof. apply promiseCore_setFields. Qed.

Lemma promiseCore_setFieldsValue (st : FormStore) newStore :
  promiseCore (setFieldsValue st newStore) = promiseCore st.
Proof.
  unfold setFieldsValue.
  rewrite promiseCore_notifyWatch, promiseCore_notifyObservers. by case_match.
Qed.

Lemma promiseCore_triggerOnFieldsChange (st : FormStore) namePathList filedErrors :
  promiseCore (triggerOnFieldsChange st namePathList filedErrors) = promiseCore st.
Proof. unfold triggerOnFieldsChange. by case_match. Qed.

Lemma promiseCore_registerField (st : FormStore) entity :
  promiseCore (registerField (initEntityValue st entity) entity) = promiseCore st.
Proof.
  unfold registerField. case_match.
  - rewrite promiseCore_notifyObservers, promiseCore_resetWithFieldInitialValue,
      promiseCore_notifyWatch. unfold initEntityValue. by repeat case_match.
  - rewrite promiseCore_notifyWatch. unfold initEntityValue. by repeat case_match.
Qed.

(** ** The effects of the observers *)

Lemma notifyWatch_log (st : FormStore) namePath :
  log (notifyWatch st namePath)
  = log st ++ FxNotifyWatch namePath
       :: map (fun callback => FxWatch callback (getFieldsValue st None None) namePath)
              (watchList (config st)).
Proof.
  unfold notifyWatch. cbv zeta. cbn [config emit].
  destruct (watchList (config st)) eqn:E; cbn [log emit map]; [done|].
  rewrite <- app_assoc. reflexivity.
Qed.

Lemma notifyObservers_log (st : FormStore) prevStore namePathList info :
  log (notifyObservers st prevStore namePathList info)
  = log st ++ FxNotify prevStore namePathList info (store st)
       :: (if subscribable (config st)
           then snd (broadcast (fieldEntities st) prevStore namePathList info (store st))
           else [FxForceRootUpdate]).
Proof.
  unfold notifyObservers. cbv zeta. cbn [config emit store getFieldEntities fieldEntities].
  destruct (subscribable (config st)).
  - destruct (broadcast _ _ _ _ _) as [fields fx]. cbn. by rewrite <- app_assoc.
  - cbn. by rewrite <- app_assoc.
Qed.

Lemma notifyObservers_fields (st : FormStore) prevStore namePathList info :
  fieldEntities (notifyObservers st prevStore namePathList info)
  = if subscribable (config st)
    then fst (broadcast (fieldEntities st) prevStore namePathList info (store st))
    else fieldEntities st.
Proof.
  unfold notifyObservers. cbv zeta. cbn [config emit store getFieldEntities fieldEntities].
  destruct (subscribable (config st)); [|reflexivity].
  by destruct (broadcast _ _ _ _ _) as [fields fx].
Qed.

Lemma onStoreChange_effects (f : Field) prevStore namePathList info store :
  forallb isFieldEffect (snd (onStoreChange f prevStore namePathList info store)) = true.
Proof.
  unfold onStoreChange, triggerMetaEvent, reRender, refresh.
  repeat case_match; simplify_eq; reflexivity.
Qed.

Lemma broadcast_fst (fields : list Field) prevStore namePathList info store :
  fst (broadcast fields prevStore namePathList info store)
  = map (fun f => fst (onStoreChange f prevStore namePathList info store)) fields.
Proof.
  unfold broadcast. cbn [fst]. rewrite map_map. apply map_ext.
  intros f. by destruct (onStoreChange _ _ _ _ _).
Qed.

Lemma broadcast_snd (fields : list Field) prevStore namePathList info store :
  snd (broadcast fields prevStore namePathList info store)
  = concat (map (fun f => FxStoreChange (fid f) info
                          :: snd (onStoreChange f prevStore namePathList info store))
                fields).
Proof.
  unfold broadcast. cbn [snd]. rewrite map_map. f_equal. apply map_ext.
  intros f. by destruct (onStoreChange _ _ _ _ _).
Qed.

Lemma notifications_app fx1 fx2 :
  notifications (fx1 ++ fx2) = notifications fx1 ++ notifications fx2.
Proof. apply omap_app. Qed.

Lemma watchNotifications_app fx1 fx2 :
  watchNotifications (fx1 ++ fx2) = watchNotifications fx1 ++ watchNotifications fx2.
Proof. apply omap_app. Qed.

Lemma storeChanges_app fx1 fx2 :
  storeChanges (fx1 ++ fx2) = storeChanges fx1 ++ storeChanges fx2.
Proof. apply omap_app. Qed.

Lemma callbackCalls_app fx1 fx2 :
  callbackCalls (fx1 ++ fx2) = callbackCalls fx1 ++ callbackCalls fx2.
Proof. apply List.filter_app. Qed.

Lemma watchCalls_app fx1 fx2 :
  watchCalls (fx1 ++ fx2) = watchCalls fx1 ++ watchCalls fx2.
Proof. apply List.filter_app. Qed.

Lemma fieldEffects_projections (fx : list Effect) :
  forallb isFieldEffect fx = true ->
  notifications fx = [] /\ watchNotifications fx = [] /\ storeChanges fx = []
  /\ callbackCalls fx = [] /\ watchCalls fx = [].
Proof.
  induction fx as [|e fx IH]; [done|]. cbn [forallb].
  intros [He Hfx]%andb_true_iff. destruct (IH Hfx) as (H1 & H2 & H3 & H4 & H5).
  destruct e; try discriminate; simpl; auto.
Qed.

Lemma broadcast_projections (fields : list Field) prevStore namePathList info store :
  let fx := snd (broadcast fields prevStore namePathList info store) in
  notifications fx = [] /\ watchNotifications fx = []
  /\ storeChanges fx = map (fun f => (fid f, info)) fields
  /\ callbackCalls fx = [] /\ watchCalls fx = [].
Proof.
  cbv zeta. rewrite broadcast_snd.
  induction fields as [|f fields IH]; [done|].
  cbn [map concat]. destruct IH as (H1 & H2 & H3 & H4 & H5).
  destruct (fieldEffects_projections _
              (onStoreChange_effects f prevStore namePathList info store))
    as (F1 & F2 & F3 & F4 & F5).
  change (FxStoreChange (fid f) info
          :: snd (onStoreChange f prevStore namePathList info store))
    with ([FxStoreChange (fid f) info]
          ++ snd (onStoreChange f prevStore namePathList info store)).
  rewrite !notifications_app, !watchNotifications_app, !storeChanges_app,
    !callbackCalls_app, !watchCalls_app.
  rewrite H1, H2, H3, H4, H5, F1, F2, F3, F4, F5. done.
Qed.


(** ** External value updates *)

Lemma onStoreChange_external_changed (f : Field) prevStore namePathList store :
  strictEq (getValue prevStore (fieldNamePath f)) (getValue store (fieldNamePath f))
  = false ->
  let reaction :=
    onStoreChange f prevStore namePathList (ValueUpdateInfo SourceExternal) store in
  fst reaction = externalUpdate f
  /\ exists rest,
       snd reaction = triggerMetaEvent (externalUpdate f) false ++ rest
       /\ (rest = [] \/ rest = reRender (externalUpdate f)).
Proof.
  intros Hneq. cbv zeta. unfold onStoreChange. rewrite Hneq. cbn [negb].
  repeat case_match; simplify_eq; cbn [fst snd]; (split; [reflexivity|]);
    eexists; (split; [reflexivity|]); rewrite ?app_nil_r; auto.
Qed.

Lemma onStoreChange_external_same (f : Field) prevStore namePathList store :
  strictEq (getValue prevStore (fieldNamePath f)) (getValue store (fieldNamePath f))
  = true ->
  fst (onStoreChange f prevStore namePathList (ValueUpdateInfo SourceExternal) store)
  = f.
Proof.
  intros Heq. unfold onStoreChange. rewrite Heq. cbn [negb].
  repeat case_match; simplify_eq; reflexivity.
Qed.

Lemma setFieldsValue_fields (st : FormStore) (values : Store) :
  subscribable (config st) = true ->
  let nextStore := setValues (store st) [values] in
  fieldEntities (setFieldsValue st (Some values))
  = map (fun f =>
           if strictEq (getValue (store st) (fieldNamePath f))
                       (getValue nextStore (fieldNamePath f))
           then f else externalUpdate f)
        (fieldEntities st).
Proof.
  intros Hsub. cbv zeta. unfold setFieldsValue.
  destruct (notifyWatch_frame
              (notifyObservers (updateStore st (setValues (store st) [values]))
                 (store st) None (ValueUpdateInfo SourceExternal)) [])
    as (_ & _ & -> & _).
  rewrite notifyObservers_fields. cbn [config updateStore]. rewrite Hsub.
  rewrite broadcast_fst. cbn [fieldEntities store updateStore].
  apply map_ext. intros f.
  destruct (strictEq _ _) eqn:E.
  - by apply onStoreChange_external_same.
  - by apply onStoreChange_external_changed.
Qed.

(** C6, as amended: a [valueUpdate] notification of source [external] puts
    every registered field whose value at its path is no longer the same
    (by [===]) in the state touched, dirty, not validating, without errors
    nor warnings, and this before the reaction of the branch: the meta event
    of that state is the first thing the field does.  The fields of a store
    in subscribe mode receive this notification from [setFieldsValue]. *)
Theorem setFieldsValue_marks_changed_fields
    (st : FormStore) (values : Store) (f : Field) :
  let nextStore := setValues (store st) [values] in
  let reaction :=
    onStoreChange f (store st) None (ValueUpdateInfo SourceExternal) nextStore in
  subscribable (config st) = true ->
  In f (fieldEntities st) ->
  strictEq (getValue (store st) (fieldNamePath f))
           (getValue nextStore (fieldNamePath f)) = false ->
  In (fst reaction) (fieldEntities (setFieldsValue st (Some values)))
  /\ fid (fst reaction) = fid f
  /\ touched (fst reaction) = true
  /\ dirty (fst reaction) = true
  /\ isFieldValidating (fst reaction) = false
  /\ getErrors (fst reaction) = []
  /\ getWarnings (fst reaction) = []
  /\ exists rest,
       snd reaction
       = FxMetaEvent (fid f)
           {| meta_touched := true; meta_validating := false;
              meta_errors := []; meta_warnings := [];
              meta_name := fieldNamePath f |} false :: rest.
Proof.
  intros nextStore reaction Hsub Hin Hneq.
  destruct (onStoreChange_external_changed f (store st) None nextStore Hneq)
    as [Hfst (rest & Hsnd & _)].
  fold reaction in Hfst, Hsnd. rewrite Hfst.
  split; [|repeat split; try reflexivity].
  - rewrite setFieldsValue_fields by done. apply in_map_iff.
    exists f. split; [|done]. fold nextStore. by rewrite Hneq.
  - exists rest. rewrite Hsnd. reflexivity.
Qed.


(** ** [setFieldValue] against [updateValue] *)

Lemma getFieldsValue_ext (st st' : FormStore) nameList filterFunc :
  store st' = store st -> fieldEntities st' = fieldEntities st ->
  getFieldsValue st' nameList filterFunc = getFieldsValue st nameList filterFunc.
Proof.
  intros Hs Hf. unfold getFieldsValue, getFieldEntitiesForNamePathList, getFieldsMap,
    getFieldEntities. by rewrite Hs, Hf.
Qed.

Lemma watch_projections (values : Store) (namePath : list InternalNamePath)
    (watchers : list nat) :
  let fx := map (fun callback => FxWatch callback values namePath) watchers in
  notifications fx = [] /\ storeChanges fx = [] /\ watchNotifications fx = []
  /\ watchCalls fx = fx /\ callbackCalls fx = [].
Proof.
  cbv zeta. induction watchers as [|w l (I1 & I2 & I3 & I4 & I5)]; [done|].
  cbn [map].
  change (FxWatch w values namePath :: ?l) with ([FxWatch w values namePath] ++ l).
  rewrite notifications_app, storeChanges_app, watchNotifications_app,
    watchCalls_app, callbackCalls_app, I1, I2, I3, I4, I5. done.
Qed.

Lemma validateLoop_effects (st : FormStore) nameList options (fields : list Field)
    (acc : ValidateLoop) :
  forallb isFieldEffect (vl_effects acc) = true ->
  forallb isFieldEffect
    (vl_effects (foldl (validateLoopStep st nameList options) acc fields)) = true.
Proof.
  revert acc. induction fields as [|f fields IH]; intros acc Hacc; [done|].
  cbn [foldl]. apply IH. unfold validateLoopStep, fieldValidateRules.
  repeat case_match; simplify_eq; cbn [vl_effects]; try done.
  all: rewrite ?forallb_app, ?Hacc; unfold triggerMetaEvent, reRender.
  all: try (by case_match).
Qed.

Lemma validateFields_log (st : FormStore) nameList options :
  exists fx, log (validateFields st nameList options) = log st ++ fx
             /\ forallb isFieldEffect fx = true.
Proof.
  eexists. split; [reflexivity|]. by apply validateLoop_effects.
Qed.

Lemma triggerDependenciesUpdate_log (st : FormStore) prevStore namePath :
  let result := triggerDependenciesUpdate st prevStore namePath in
  exists fx,
    log (fst result) = log st ++ fx
    /\ notifications fx
       = [(Some (snd result), DependenciesUpdateInfo (namePath :: snd result))]
    /\ callbackCalls fx = [].
Proof.
  cbv zeta. unfold triggerDependenciesUpdate. cbn [fst snd].
  set (childrenFields := getDependencyChildrenFields st namePath).
  set (st1 := match childrenFields with [] => st | _ :: _ => validateFields st _ _ end).
  assert (H1 : exists fx, log st1 = log st ++ fx /\ forallb isFieldEffect fx = true).
  { subst st1. destruct childrenFields.
    - exists []. by rewrite app_nil_r.
    - apply validateFields_log. }
  destruct H1 as (fx1 & Hlog1 & Hfx1).
  rewrite notifyObservers_log, Hlog1, <- app_assoc.
  eexists. split; [reflexivity|].
  destruct (fieldEffects_projections _ Hfx1) as (N1 & _ & _ & C1 & _).
  rewrite notifications_app, callbackCalls_app, N1, C1. cbn [app].
  change (FxNotify ?a ?b ?c ?d :: ?l) with ([FxNotify a b c d] ++ l).
  rewrite notifications_app, callbackCalls_app.
  destruct (subscribable (config st1)).
  - destruct (broadcast_projections (fieldEntities st1) prevStore (Some childrenFields)
                (DependenciesUpdateInfo (namePath :: childrenFields)) (store st1))
      as (N2 & _ & _ & C2 & _).
    rewrite N2, C2. done.
  - done.
Qed.

(** C9: [setFieldValue(name, value)] is [setFields] with the one record
    [{ name, value }]; it installs the value at the path, calls
    [notifyObservers] once, with a [setField] info for that path, which
    every registered field of a store in subscribe mode receives once, and
    [notifyWatch] once for that path, each watch callback being called once;
    it calls neither [onValuesChange] nor [onFieldsChange] and starts no
    validation: the promise machinery of the store is as before.
    [updateValue] calls [notifyObservers] twice, with a [valueUpdate] info of
    source [internal] and with a [dependenciesUpdate] info, and calls the two
    callbacks that are set. *)
Theorem setFieldValue_effects (st : FormStore) (name : NamePath) (value : StoreValue) :
  let namePath := getNamePath name in
  let data :=
    {| fd_name := name; fd_value := Some value; fd_touched := None;
       fd_validating := None; fd_errors := None; fd_warnings := None;
       fd_originRCField := false |} in
  let st' := setFieldValue st name value in
  let updated := updateValue st name value in
  setFieldValue st name value = setFields st [data]
  /\ store st' = setValue (store st) namePath value false
  /\ promiseCore st' = promiseCore st
  /\ (exists fx,
        log st' = log st ++ fx
        /\ notifications fx = [(Some [namePath], SetFieldInfo data)]
        /\ storeChanges fx
           = (if subscribable (config st)
              then map (fun f => (fid f, SetFieldInfo data)) (fieldEntities st)
              else [])
        /\ watchNotifications fx = [[namePath]]
        /\ watchCalls fx
           = map (fun callback =>
                    FxWatch callback (getFieldsValue st' None None) [namePath])
                 (watchList (config st))
        /\ callbackCalls fx = [])
  /\ (exists fx childrenFields,
        log updated = log st ++ fx
        /\ notifications fx
           = [(Some [namePath], ValueUpdateInfo SourceInternal);
              (Some childrenFields,
               DependenciesUpdateInfo (namePath :: childrenFields))]
        /\ length (callbackCalls fx)
           = (if onValuesChange (callbacks (config st)) then 1 else 0)
             + (if onFieldsChange (callbacks (config st)) then 1 else 0)).
Proof.
  intros namePath data st' updated.
  split; [reflexivity|]. split; [|split; [apply promiseCore_setFieldValue|split]].
  - subst st'. unfold setFieldValue, setFields. cbn [foldl fd_value fd_name map].
    by rewrite notifyWatch_store, notifyObservers_store.
  - subst st'. unfold setFieldValue, setFields. cbn [foldl fd_value fd_name map].
    fold namePath data.
    set (st1 := updateStore st (setValue (store st) namePath value false)).
    set (st2 := notifyObservers st1 (store st) (Some [namePath]) (SetFieldInfo data)).
    rewrite (getFieldsValue_ext st2 (notifyWatch st2 [namePath]))
      by apply notifyWatch_frame.
    rewrite notifyWatch_log. subst st2.
    rewrite notifyObservers_log, notifyObservers_config.
    cbn [log config updateStore st1 fieldEntities].
    rewrite <- app_assoc. eexists. split; [reflexivity|].
    change (FxNotify ?a ?b ?c ?d :: ?l) with ([FxNotify a b c d] ++ l).
    change (FxNotifyWatch ?a :: ?l) with ([FxNotifyWatch a] ++ l).
    rewrite !notifications_app, !storeChanges_app, !watchNotifications_app,
      !watchCalls_app, !callbackCalls_app.
    set (watchers := map _ (watchList (config st))).
    pose proof (watch_projections
                (getFieldsValue
                   (notifyObservers st1 (store st) (Some [namePath]) (SetFieldInfo data))
                   None None) [namePath] (watchList (config st))) as Hw.
    cbv zeta in Hw. fold watchers in Hw.
    destruct Hw as (W1 & W2 & W3 & W4 & W5). rewrite W1, W2, W3, W4, W5.
    destruct (subscribable (config st)).
    + destruct (broadcast_projections (fieldEntities st) (store st) (Some [namePath])
                  (SetFieldInfo data) (store st1))
        as (N & WN & SC & CC & WC).
      rewrite N, WN, SC, CC, WC. cbn. rewrite app_nil_r. done.
    + done.
  - subst updated. unfold updateValue. fold namePath.
    set (st1 := updateStore st (setValue (store st) namePath value false)).
    set (st2 := notifyObservers st1 (store st) (Some [namePath])
                  (ValueUpdateInfo SourceInternal)).
    set (st3 := notifyWatch st2 [namePath]).
    destruct (triggerDependenciesUpdate_log st3 (store st) namePath)
      as (fx4 & Hlog4 & N4 & C4).
    destruct (triggerDependenciesUpdate st3 (store st) namePath)
      as [st4 childrenFields] eqn:E4. cbn [fst snd] in *.
    assert (Hc4 : config st4 = config st).
    { replace st4 with (fst (triggerDependenciesUpdate st3 (store st) namePath))
        by (by rewrite E4).
      unfold triggerDependenciesUpdate. cbn [fst].
      rewrite notifyObservers_config.
      transitivity (config st3).
      { by destruct (getDependencyChildrenFields st3 namePath). }
      subst st3. destruct (notifyWatch_frame st2 [namePath]) as (-> & _).
      subst st2. by rewrite notifyObservers_config. }
    set (st5 := if onValuesChange (callbacks (config st4)) then _ else st4).
    assert (Hlog3 : exists fx3, log st3 = log st ++ fx3
              /\ notifications fx3 = [(Some [namePath], ValueUpdateInfo SourceInternal)]
              /\ callbackCalls fx3 = []).
    { subst st3. rewrite notifyWatch_log. subst st2.
      rewrite notifyObservers_log, notifyObservers_config.
      cbn [log config updateStore st1 fieldEntities]. rewrite <- app_assoc.
      eexists. split; [reflexivity|].
      change (FxNotify ?a ?b ?c ?d :: ?l) with ([FxNotify a b c d] ++ l).
      change (FxNotifyWatch ?a :: ?l) with ([FxNotifyWatch a] ++ l).
      rewrite !notifications_app, !callbackCalls_app.
      destruct (watch_projections
                  (getFieldsValue
                     (notifyObservers st1 (store st) (Some [namePath])
                        (ValueUpdateInfo SourceInternal)) None None)
                  [namePath] (watchList (config st))) as (-> & _ & _ & _ & ->).
      destruct (subscribable (config st)).
      - destruct (broadcast_projections (fieldEntities st) (store st) (Some [namePath])
                    (ValueUpdateInfo SourceInternal) (store st1))
          as (N & _ & _ & CC & _).
        rewrite N, CC. done.
      - done. }
    destruct Hlog3 as (fx3 & Hlog3 & N3 & C3).
    assert (Hlog5 : exists fx5, log st5 = log st4 ++ fx5 /\ notifications fx5 = []
              /\ length (callbackCalls fx5)
                 = if onValuesChange (callbacks (config st)) then 1 else 0).
    { subst st5. rewrite Hc4. destruct (onValuesChange (callbacks (config st))).
      - eexists. split; [reflexivity|]. done.
      - exists []. by rewrite app_nil_r. }
    destruct Hlog5 as (fx5 & Hlog5 & N5 & C5).
    assert (Hc5 : config st5 = config st).
    { subst st5. by destruct (onValuesChange (callbacks (config st4))). }
    unfold triggerOnFieldsChange. rewrite Hc5.
    destruct (onFieldsChange (callbacks (config st))).
    + cbn [log emit]. rewrite Hlog5, Hlog4, Hlog3, <- !app_assoc.
      eexists _, childrenFields. split; [reflexivity|].
      rewrite !notifications_app, !callbackCalls_app, !length_app.
      rewrite N3, N4, N5, C3, C4, C5. cbn. split; [done|lia].
    + rewrite Hlog5, Hlog4, Hlog3, <- !app_assoc.
      eexists _, childrenFields. split; [reflexivity|].
      rewrite !notifications_app, !callbackCalls_app, !length_app.
      rewrite N3, N4, N5, C3, C4, C5. cbn. split; [done|lia].
Qed.


(** ** Validation in time *)

Lemma continues_refl (st : FormStore) : continues st st.
Proof.
  unfold continues. repeat split; auto. exists []. by rewrite app_nil_r.
Qed.

Lemma continues_trans (st1 st2 st3 : FormStore) :
  continues st1 st2 -> continues st2 st3 -> continues st1 st3.
Proof.
  intros (N1 & L1 & R1 & m1 & S1) (N2 & L2 & R2 & m2 & S2).
  unfold continues. split; [lia|]. split; [|split].
  - destruct L2 as [L2|(l & L2 & Hl)].
    + rewrite L2. destruct L1 as [L1|(l & L1 & Hl)]; [by left|].
      right. exists l. split; [done|lia].
    + right. exists l. split; [done|lia].
  - congruence.
  - exists (m1 ++ m2). by rewrite S2, S1, app_assoc.
Qed.

Lemma continues_core (st st' : FormStore) :
  promiseCore st' = promiseCore st -> continues st st'.
Proof.
  unfold promiseCore, continues. intros [= L N J S R].
  rewrite L, N, S, R. repeat split; auto. exists []. by rewrite app_nil_r.
Qed.

Lemma validateLoop_next (st : FormStore) nameList options fields acc :
  vl_next acc <= vl_next (foldl (validateLoopStep st nameList options) acc fields).
Proof.
  revert acc. induction fields as [|f fields IH]; intros acc; [done|].
  cbn [foldl]. etransitivity; [|apply IH].
  unfold validateLoopStep, fieldValidateRules.
  repeat case_match; simplify_eq; cbn [vl_next]; lia.
Qed.

Lemma validateFields_continues (st : FormStore) nameList options :
  continues st (validateFields st nameList options).
Proof.
  unfold continues, validateFields. cbn.
  pose proof (validateLoop_next st nameList options (fieldEntities st)
    {| vl_namePathList :=
         match nameList with Some names => map getNamePath names | None => [] end;
       vl_fields := []; vl_promiseList := []; vl_next := nextPromise st;
       vl_jobs := jobs st; vl_effects := [] |}) as Hnext.
  cbn [vl_next] in Hnext.
  split; [lia|]. split; [|split; [done|by eexists]].
  right. eexists. split; [reflexivity|]. lia.
Qed.

Lemma triggerDependenciesUpdate_continues (st : FormStore) prevStore namePath :
  continues st (fst (triggerDependenciesUpdate st prevStore namePath)).
Proof.
  unfold triggerDependenciesUpdate. cbn [fst].
  eapply continues_trans; [|apply continues_core, promiseCore_notifyObservers].
  destruct (getDependencyChildrenFields st namePath).
  - apply continues_refl.
  - apply validateFields_continues.
Qed.

Lemma updateValue_continues (st : FormStore) name value :
  continues st (updateValue st name value).
Proof.
  unfold updateValue.
  set (st3 := notifyWatch _ _).
  pose proof (triggerDependenciesUpdate_continues st3 (store st) (getNamePath name)) as H4.
  destruct (triggerDependenciesUpdate st3 (store st) (getNamePath name)) as [st4 ch].
  cbn [fst] in H4.
  eapply continues_trans; [|apply continues_core, promiseCore_triggerOnFieldsChange].
  eapply continues_trans; [|apply continues_core; by case_match].
  eapply continues_trans; [|exact H4].
  apply continues_core. subst st3.
  by rewrite promiseCore_notifyWatch, promiseCore_notifyObservers.
Qed.

Lemma dispatch_continues (st : FormStore) action :
  continues st (dispatch st action).
Proof.
  destruct action; [apply updateValue_continues|apply validateFields_continues].
Qed.

Lemma unregisterField_continues (st : FormStore) entity isListField preserve sub :
  continues st (unregisterField st entity isListField preserve sub).
Proof.
  unfold unregisterField.
  eapply continues_trans; [|apply continues_core, promiseCore_notifyWatch].
  repeat case_match; try (by apply continues_core).
  all: eapply continues_trans; [|apply triggerDependenciesUpdate_continues].
  all: apply continues_core; by rewrite promiseCore_notifyObservers.
Qed.

Lemma step_call_continues (st : FormStore) (ev : Event) :
  isCall ev = true -> continues st (step st ev).
Proof.
  destruct ev; try discriminate; intros _; cbn [step].
  - apply validateFields_continues.
  - apply continues_core, promiseCore_setFields.
  - apply continues_core, promiseCore_setFieldValue.
  - apply continues_core, promiseCore_setFieldsValue.
  - apply continues_core, promiseCore_resetFields.
  - apply dispatch_continues.
  - unfold triggerChange. case_match; [|apply continues_refl].
    destruct (onEntity _ _ _) as [fields fx].
    eapply continues_trans; [|apply dispatch_continues].
    by apply continues_core.
  - apply continues_core, promiseCore_registerField.
  - case_match; [|apply continues_refl]. apply unregisterField_continues.
Qed.


(** *** The job queue *)

Lemma runJob_core (st : FormStore) (job : Job) (completion : list nat) :
  let st' := runJob st job completion in
  nextPromise st' = nextPromise st
  /\ lastValidatePromise st' = lastValidatePromise st
  /\ summaries st' = summaries st
  /\ (returned st' = returned st
      \/ (exists summary namePathList values,
             job = JobSummaryThen summary namePathList
             /\ lastValidatePromise st = Some summary
             /\ returned st' = returned st ++ [(summary, Fulfilled values)])
      \/ (exists summary namePathList results entity,
             job = JobSummaryCatch summary namePathList results
             /\ outOfDate entity
                = negb (bool_decide (lastValidatePromise st = Some summary))
             /\ returned st' = returned st ++ [(summary, Rejected entity)])).
Proof.
  cbv zeta. destruct job; cbn [runJob].
  - repeat case_match; cbn; auto.
  - destruct (onEntity _ _ _) as [fields fx]. cbn. auto.
  - pose proof (promiseCore_triggerOnFieldsChange
                  (notifyObservers st (store st) (Some (map fe_name results))
                     ValidateFinishInfo) (map fe_name results) (Some results)) as H.
    rewrite promiseCore_notifyObservers in H. unfold promiseCore in H.
    injection H as -> -> _ -> ->. auto.
  - case_bool_decide as Hlast.
    + cbn. do 3 (split; [reflexivity|]). right. left.
      eexists _, _, _. split; [reflexivity|]. split; [exact Hlast|reflexivity].
    + cbn. auto.
  - cbn. do 3 (split; [reflexivity|]). right. right.
    eexists _, _, _, _. split; [reflexivity|]. split; [|reflexivity]. reflexivity.
Qed.

Lemma settleSummary_core (st : FormStore) summary outcome :
  let st' := settleSummary st summary outcome in
  nextPromise st' = nextPromise st
  /\ lastValidatePromise st' = lastValidatePromise st
  /\ returned st' = returned st
  /\ (summaries st' = summaries st
      \/ summaries st'
         = List.filter (fun s => negb (Nat.eqb (fst s) summary)) (summaries st)).
Proof.
  cbv zeta. unfold settleSummary. repeat case_match; cbn; auto.
Qed.

Lemma continues_superseded (st st' : FormStore) summary :
  continues st st' -> superseded st summary -> superseded st' summary.
Proof.
  intros (N & L & _) [Hlt Hne]. split; [lia|].
  destruct L as [->|(l & -> & Hl)]; [done|]. intros [= ->]. lia.
Qed.

Lemma step_nextPromise (st : FormStore) (ev : Event) :
  nextPromise st <= nextPromise (step st ev).
Proof.
  destruct (isCall ev) eqn:Hcall.
  - apply step_call_continues, Hcall.
  - destruct ev; try discriminate; cbn [step].
    + destruct (settleSummary_core st summary outcome) as (-> & _). done.
    + case_match; [|done].
      destruct (runJob_core (setJobs st (delete index (jobs st))) j completion)
        as (-> & _). done.
Qed.

Lemma run_nextPromise (st : FormStore) (events : list Event) :
  nextPromise st <= nextPromise (run st events).
Proof.
  revert st. induction events as [|ev events IH]; intros st; [done|].
  unfold run in *. cbn [foldl]. etransitivity; [apply step_nextPromise|apply IH].
Qed.

Lemma step_superseded (st : FormStore) (ev : Event) summary :
  superseded st summary ->
  superseded (step st ev) summary
  /\ forall o, In (summary, o) (returned (step st ev)) ->
               In (summary, o) (returned st)
               \/ exists e, o = Rejected e /\ outOfDate e = true.
Proof.
  intros Hsup. destruct (isCall ev) eqn:Hcall.
  - pose proof (step_call_continues st ev Hcall) as Hc. split.
    + by eapply continues_superseded.
    + destruct Hc as (_ & _ & -> & _). auto.
  - destruct ev; try discriminate; cbn [step].
    + destruct (settleSummary_core st summary0 outcome) as (N & L & R & _).
      unfold superseded. rewrite N, L, R. destruct Hsup. auto.
    + case_match; [|by auto].
      destruct (runJob_core (setJobs st (delete index (jobs st))) j completion)
        as (N & L & _ & R).
      cbn [nextPromise lastValidatePromise returned setJobs] in *.
      unfold superseded. rewrite N, L. destruct Hsup as [Hlt Hne].
      split; [done|]. intros o Ho.
      destruct R as [R|[(s & npl & vs & _ & Hlast & R)|(s & npl & rs & e & _ & Hout & R)]];
        rewrite R in Ho; [by left| |].
      * apply in_app_or in Ho as [Ho|[Ho|[]]]; [by left|].
        injection Ho as <- _. congruence.
      * apply in_app_or in Ho as [Ho|[Ho|[]]]; [by left|].
        injection Ho as <- <-.
        right. exists e. split; [done|]. rewrite Hout.
        by rewrite bool_decide_false.
Qed.

Lemma run_superseded (st : FormStore) (events : list Event) summary :
  superseded st summary ->
  forall o, In (summary, o) (returned (run st events)) ->
            In (summary, o) (returned st)
            \/ exists e, o = Rejected e /\ outOfDate e = true.
Proof.
  revert st. induction events as [|ev events IH]; intros st Hsup o Ho; [by left|].
  unfold run in *. cbn [foldl] in Ho.
  destruct (step_superseded st ev summary Hsup) as [Hsup' Hret].
  destruct (IH _ Hsup' o Ho) as [Hin|Hrej]; [|by right].
  by apply Hret.
Qed.

Lemma validateFields_last (st : FormStore) nameList options :
  exists summary,
    lastValidatePromise (validateFields st nameList options) = Some summary
    /\ nextPromise st <= summary
    /\ nextPromise (validateFields st nameList options) = S summary
    /\ exists namePathList,
         summaries (validateFields st nameList options)
         = summaries st ++ [(summary, namePathList)].
Proof.
  eexists. split; [reflexivity|]. split; [|split; [reflexivity|by eexists]].
  apply (validateLoop_next st nameList options (fieldEntities st)
    {| vl_namePathList :=
         match nameList with Some names => map getNamePath names | None => [] end;
       vl_fields := []; vl_promiseList := []; vl_next := nextPromise st;
       vl_jobs := jobs st; vl_effects := [] |}).
Qed.

Lemma ruleReaction_stale (root : nat) (ruleErrors : list RuleError) (f : Field) :
  validatePromise f <> Some (RootPromise root) ->
  ruleReaction root ruleErrors f = (f, []).
Proof. intros Hne. unfold ruleReaction. by rewrite bool_decide_false. Qed.

Lemma ruleReaction_current (root : nat) (ruleErrors : list RuleError) (f : Field) :
  validatePromise f = Some (RootPromise root) ->
  ruleReaction root ruleErrors f
  = (let f' := withState f (touched f) (dirty f) None
                 (mergedErrors ruleErrors) (mergedWarnings ruleErrors) in
     (f', triggerMetaEvent f' false ++ reRender f')).
Proof. intros He. unfold ruleReaction. by rewrite bool_decide_true. Qed.

Lemma runJob_ruleReaction_fields (st : FormStore) field root ruleErrors completion :
  fieldEntities (runJob st (JobRuleReaction field root ruleErrors) completion)
  = map (fun f => if Nat.eqb (fid f) field
                  then fst (ruleReaction root ruleErrors f) else f)
        (fieldEntities st).
Proof.
  cbn [runJob]. unfold onEntity. cbn [fieldEntities emit setFieldEntities].
  rewrite map_map. apply map_ext. intros f. by case_match.
Qed.

(** C1: of two calls of [validateFields] on one store, the second started
    before the caller of the first was answered, the first is never answered
    with values: if its [returnPromise] settles, it is rejected with
    [outOfDate] set.  The test is the identity of [lastValidatePromise],
    which the second call has replaced.  On the side of the fields, the
    settlement of a run of rules writes the errors and warnings of a field
    only if the [rootPromise] of the run is still the [validatePromise] of
    the field; any other field of the registry is left as it is. *)
Theorem superseded_validation_is_out_of_date
    (st : FormStore)
    (nameList1 nameList2 : option (list NamePath))
    (options1 options2 : ValidateOptions)
    (events1 events2 : list Event) (first : nat) :
  let st1 := validateFields st nameList1 options1 in
  let st2 := run st1 events1 in
  let st3 := validateFields st2 nameList2 options2 in
  let st4 := run st3 events2 in
  lastValidatePromise st1 = Some first ->
  (forall o, ~ In (first, o) (returned st2)) ->
  lastValidatePromise st3 <> Some first
  /\ (forall o, In (first, o) (returned st4) ->
                exists e, o = Rejected e /\ outOfDate e = true)
  /\ (forall (store : FormStore) field root ruleErrors completion (f : Field),
        In f (fieldEntities store) ->
        validatePromise f <> Some (RootPromise root) ->
        In f (fieldEntities
                (runJob store (JobRuleReaction field root ruleErrors) completion)))
  /\ (forall root ruleErrors (f : Field),
        validatePromise f = Some (RootPromise root) ->
        let f' := fst (ruleReaction root ruleErrors f) in
        validatePromise f' = None
        /\ getErrors f' = mergedErrors ruleErrors
        /\ getWarnings f' = mergedWarnings ruleErrors).
Proof.
  intros st1 st2 st3 st4 Hfirst Hpending.
  assert (Hsup : superseded st3 first).
  { destruct (validateFields_last st nameList1 options1) as (s & Hs & _ & Hn & _).
    fold st1 in Hs, Hn. assert (s = first) as -> by congruence.
    destruct (validateFields_last st2 nameList2 options2) as (s2 & Hs2 & Hle & Hn2 & _).
    fold st3 in Hs2, Hn2. pose proof (run_nextPromise st1 events1) as Hmono.
    fold st2 in Hmono. split; [lia|]. rewrite Hs2. intros [= ->]. lia. }
  split; [apply Hsup|]. split; [|split].
  - intros o Ho. destruct (run_superseded st3 events2 first Hsup o Ho) as [Hin|Hrej];
      [|done].
    exfalso. by apply (Hpending o).
  - intros store field root ruleErrors completion f Hin Hne.
    rewrite runJob_ruleReaction_fields. apply in_map_iff. exists f. split; [|done].
    case_match; [|done]. by rewrite ruleReaction_stale.
  - intros root ruleErrors f He. cbv zeta. by rewrite ruleReaction_current.
Qed.


(** *** The [validateFinish] notification *)

Lemma step_pending (st : FormStore) (ev : Event) summary :
  settles summary ev = false ->
  In summary (map fst (summaries st)) ->
  In summary (map fst (summaries (step st ev))).
Proof.
  intros Hev Hin. destruct (isCall ev) eqn:Hcall.
  - destruct (step_call_continues st ev Hcall) as (_ & _ & _ & more & ->).
    rewrite map_app. apply in_or_app. by left.
  - destruct ev; try discriminate; cbn [step].
    + destruct (settleSummary_core st summary0 outcome) as (_ & _ & _ & [->| ->]);
        [done|].
      apply in_map_iff in Hin as ([s npl] & <- & Hin). apply in_map_iff.
      exists (s, npl). split; [done|]. apply filter_In. split; [done|].
      cbn in *. destruct (Nat.eqb_spec summary0 s); [congruence|].
      by destruct (Nat.eqb_spec s summary0); [congruence|].
    + case_match; [|done].
      by destruct (runJob_core (setJobs st (delete index (jobs st))) j completion)
        as (_ & _ & -> & _).
Qed.

Lemma run_pending (st : FormStore) (events : list Event) summary :
  forallb (fun ev => negb (settles summary ev)) events = true ->
  In summary (map fst (summaries st)) ->
  In summary (map fst (summaries (run st events))).
Proof.
  revert st. induction events as [|ev events IH]; intros st Hevs Hin; [done|].
  cbn [forallb] in Hevs. apply andb_true_iff in Hevs as [Hev Hevs].
  unfold run in *. cbn [foldl]. apply IH; [done|].
  apply step_pending; [|done]. by apply negb_true_iff.
Qed.

Lemma settleSummary_enqueues (st : FormStore) summary results (rejected : bool) :
  In summary (map fst (summaries st)) ->
  In (JobValidateFinish summary results)
     (jobs (settleSummary st summary
              (if rejected then Rejected results else Fulfilled results))).
Proof.
  intros Hin. unfold settleSummary.
  destruct (List.find _ (summaries st)) as [[s npl]|] eqn:Hfind.
  - destruct rejected; cbn [jobs setJobs]; apply in_or_app; right; by left.
  - exfalso. apply in_map_iff in Hin as ([s npl] & <- & Hin).
    eapply find_none in Hfind; [|exact Hin]. cbn in Hfind.
    by rewrite Nat.eqb_refl in Hfind.
Qed.

Lemma getFields_ext (st st' : FormStore) :
  store st' = store st -> fieldEntities st' = fieldEntities st ->
  getFields st' = getFields st.
Proof.
  intros Hs Hf. unfold getFields, getFieldEntities, getFieldValue. by rewrite Hs, Hf.
Qed.

Lemma notifyObservers_withLast (st : FormStore) promise prevStore namePathList info :
  notifyObservers (withLastValidatePromise st promise) prevStore namePathList info
  = withLastValidatePromise (notifyObservers st prevStore namePathList info) promise.
Proof.
  unfold notifyObservers. cbv zeta.
  cbn [config emit store getFieldEntities fieldEntities withLastValidatePromise].
  destruct (subscribable (config st)); [|reflexivity].
  by destruct (broadcast _ _ _ _ _).
Qed.

Lemma triggerOnFieldsChange_withLast (st : FormStore) promise namePathList filedErrors :
  triggerOnFieldsChange (withLastValidatePromise st promise) namePathList filedErrors
  = withLastValidatePromise (triggerOnFieldsChange st namePathList filedErrors) promise.
Proof.
  unfold triggerOnFieldsChange. cbn [config withLastValidatePromise].
  by destruct (onFieldsChange (callbacks (config st))).
Qed.

Lemma runJob_validateFinish_log (st : FormStore) summary results completion :
  let names := map fe_name results in
  let st' := runJob st (JobValidateFinish summary results) completion in
  exists fx,
    log st' = log st ++ fx
    /\ notifications fx = [(Some names, ValidateFinishInfo)]
    /\ storeChanges fx
       = (if subscribable (config st)
          then map (fun f => (fid f, ValidateFinishInfo)) (fieldEntities st)
          else [])
    /\ callbackCalls fx
       = (if onFieldsChange (callbacks (config st))
          then
            let fields := fillErrors results (getFields st') in
            [FxOnFieldsChange
               (List.filter (fun field => containsNamePath names (ifd_name field))
                            fields)
               fields]
          else []).
Proof.
  cbv zeta. cbn [runJob].
  set (names := map fe_name results).
  set (st1 := notifyObservers st (store st) (Some names) ValidateFinishInfo).
  assert (H1 : exists fx1,
             log st1 = log st ++ fx1
             /\ notifications fx1 = [(Some names, ValidateFinishInfo)]
             /\ storeChanges fx1
                = (if subscribable (config st)
                   then map (fun f => (fid f, ValidateFinishInfo)) (fieldEntities st)
                   else [])
             /\ callbackCalls fx1 = []).
  { subst st1. rewrite notifyObservers_log. eexists. split; [reflexivity|].
    change (FxNotify ?a ?b ?c ?d :: ?l) with ([FxNotify a b c d] ++ l).
    rewrite notifications_app, storeChanges_app, callbackCalls_app.
    destruct (subscribable (config st)).
    - destruct (broadcast_projections (fieldEntities st) (store st) (Some names)
                  ValidateFinishInfo (store st)) as (-> & _ & -> & -> & _). done.
    - done. }
  destruct H1 as (fx1 & Hlog1 & N1 & S1 & C1).
  assert (Hc : config st1 = config st) by apply notifyObservers_config.
  unfold triggerOnFieldsChange. rewrite Hc.
  destruct (onFieldsChange (callbacks (config st))).
  - cbn [log emit]. rewrite Hlog1, <- app_assoc. eexists. split; [reflexivity|].
    rewrite notifications_app, storeChanges_app, callbackCalls_app, N1, S1, C1.
    cbn. rewrite !app_nil_r. split; [done|]. split; [done|].
    reflexivity.
  - exists fx1. by rewrite C1.
Qed.

(** C10, as amended: the reaction that tells the fields a validation has finished does
    not look at [lastValidatePromise].  The summary promise of a call of
    [validateFields] stays pending whatever happens to the store, later calls
    of [validateFields] included, until it settles; when it settles,
    fulfilled or rejected, the reaction enters the job queue; and when the
    reaction runs, in whatever store, it calls [notifyObservers] once with
    the [validateFinish] info and the names of its own results, which every
    registered field of a store in subscribe mode receives, then
    [onFieldsChange], if set, with the fields carrying the errors of these
    results.  Replacing [lastValidatePromise] changes none of this. *)
Theorem validateFinish_not_gated
    (st : FormStore) (nameList : option (list NamePath)) (options : ValidateOptions)
    (events : list Event) (summary : nat) (results : list FieldError)
    (rejected : bool) :
  let st1 := validateFields st nameList options in
  let st2 := run st1 events in
  let outcome := if rejected then Rejected results else Fulfilled results in
  let job := JobValidateFinish summary results in
  let names := map fe_name results in
  lastValidatePromise st1 = Some summary ->
  forallb (fun ev => negb (settles summary ev)) events = true ->
  In job (jobs (settleSummary st2 summary outcome))
  /\ forall (later : FormStore) (completion : list nat),
       let st' := runJob later job completion in
       (exists fx,
           log st' = log later ++ fx
           /\ notifications fx = [(Some names, ValidateFinishInfo)]
           /\ storeChanges fx
              = (if subscribable (config later)
                 then map (fun f => (fid f, ValidateFinishInfo)) (fieldEntities later)
                 else [])
           /\ callbackCalls fx
              = (if onFieldsChange (callbacks (config later))
                 then
                   let fields := fillErrors results (getFields st') in
                   [FxOnFieldsChange
                      (List.filter
                         (fun field => containsNamePath names (ifd_name field))
                         fields)
                      fields]
                 else []))
       /\ forall promise,
            runJob (withLastValidatePromise later promise) job completion
            = withLastValidatePromise st' promise.
Proof.
  intros st1 st2 outcome job names Hlast Hevents. split.
  - apply settleSummary_enqueues. apply run_pending; [done|].
    destruct (validateFields_last st nameList options) as (s & Hs & _ & _ & npl & Hsum).
    fold st1 in Hs, Hsum. assert (s = summary) as -> by congruence.
    rewrite Hsum, map_app. apply in_or_app. right. by left.
  - intros later completion. split.
    + apply runJob_validateFinish_log.
    + intros promise. cbn [runJob job].
      by rewrite notifyObservers_withLast, triggerOnFieldsChange_withLast.
Qed.


(** ** The dependency cascade *)

Lemma hasField_true (field : Field) (set : list Field) :
  hasField field set = true <-> exists other, In other set /\ fid other = fid field.
Proof.
  unfold hasField. rewrite existsb_exists. split; intros (other & Hin & He);
    exists other; split; auto; by apply Nat.eqb_eq.
Qed.

Lemma hasField_false (field : Field) (set : list Field) :
  hasField field set = false <-> ~ In (fid field) (map fid set).
Proof.
  rewrite <- not_true_iff_false, hasField_true, in_map_iff. split; intros H H'; apply H.
  - destruct H' as (other & He & Hin). by exists other.
  - destruct H' as (other & Hin & He). by exists other.
Qed.

Lemma hasField_app (field : Field) (set1 set2 : list Field) :
  hasField field (set1 ++ set2) = hasField field set1 || hasField field set2.
Proof. apply existsb_app. Qed.

Lemma fid_inj_registry (fields : list Field) (f g : Field) :
  NoDup (map fid fields) -> In f fields -> In g fields -> fid f = fid g -> f = g.
Proof.
  induction fields as [|h fields IH]; [done|].
  cbn [map]. intros Hnd [->|Hf] [->|Hg] He; auto.
  - apply NoDup_cons in Hnd as [Hnot _]. exfalso. apply Hnot.
    apply list_elem_of_In, in_map_iff. exists g. by split.
  - apply NoDup_cons in Hnd as [Hnot _]. exfalso. apply Hnot.
    apply list_elem_of_In, in_map_iff. exists f. by split.
  - apply NoDup_cons in Hnd as [_ Hnd]. by apply IH.
Qed.

Lemma addField_spec (field : Field) (set : list Field) :
  addField field set = if hasField field set then set else set ++ [field].
Proof. reflexivity. Qed.

(** *** [dependencies2fields] *)

Lemma declaresDependency_In (field : Field) (namePath : InternalNamePath) :
  declaresDependency field namePath = true
  <-> In namePath (map getNamePath (dependencies (props field))).
Proof.
  unfold declaresDependency. rewrite existsb_exists, in_map_iff.
  split; intros (d & H1 & H2).
  - exists d. split; [by apply bool_decide_eq_true in H2|done].
  - exists d. split; [done|by apply bool_decide_eq_true].
Qed.

Lemma addDependencies_lookup (field : Field) (deps : list NamePath)
    (cache : gmap InternalNamePath (list Field)) :
  (forall p h, In h (default [] (cache !! p)) -> fid h = fid field -> h = field) ->
  forall p h,
    In h (default []
            (foldl (fun cache dependency =>
                      partial_alter
                        (fun fields => Some (addField field (default [] fields)))
                        (getNamePath dependency) cache) cache deps !! p))
    <-> In h (default [] (cache !! p))
        \/ (h = field /\ In p (map getNamePath deps)).
Proof.
  revert cache. induction deps as [|d deps IH]; intros cache Hown p h.
  - cbn. tauto.
  - cbn [foldl map]. rewrite IH.
    + destruct (decide (getNamePath d = p)) as [<-|Hne].
      * rewrite lookup_partial_alter_eq. cbn [default id]. rewrite addField_spec.
        destruct (hasField field (default [] (cache !! getNamePath d))) eqn:Hhas.
        -- apply hasField_true in Hhas as (other & Hin & He).
           assert (other = field) as -> by eauto.
           cbn [In]. split; [tauto|]. intros [?|[-> [?|?]]]; auto.
        -- rewrite in_app_iff. cbn [In]. split.
           ++ intros [[?|[<-|[]]]|[? ?]]; auto.
           ++ intros [?|[-> [?|?]]]; auto.
      * rewrite lookup_partial_alter_ne by done. cbn [In]. split; [tauto|].
        intros [?|[? [?|?]]]; auto. congruence.
    + intros q g. destruct (decide (getNamePath d = q)) as [<-|Hne].
      * rewrite lookup_partial_alter_eq. cbn [default id]. rewrite addField_spec.
        destruct (hasField _ _); [apply Hown|].
        rewrite in_app_iff. intros [?|[<-|[]]]; eauto.
      * rewrite lookup_partial_alter_ne by done. apply Hown.
Qed.

Lemma dependencies2fields_from (fields : list Field)
    (cache : gmap InternalNamePath (list Field)) :
  NoDup (map fid fields) ->
  (forall p h, In h (default [] (cache !! p)) -> ~ In (fid h) (map fid fields)) ->
  forall p h,
    In h (default []
            (foldl (fun cache field =>
                      foldl (fun cache dependency =>
                               partial_alter
                                 (fun fields =>
                                    Some (addField field (default [] fields)))
                                 (getNamePath dependency) cache)
                            cache (dependencies (props field)))
                   cache fields !! p))
    <-> In h (default [] (cache !! p))
        \/ (In h fields /\ declaresDependency h p = true).
Proof.
  revert cache. induction fields as [|f fields IH]; intros cache Hnd Hfresh p h.
  - cbn. tauto.
  - cbn [foldl map] in *. apply NoDup_cons in Hnd as [Hf Hnd].
    rewrite IH; [|done|].
    + rewrite addDependencies_lookup.
      * cbn [In]. split.
        -- intros [[?|[-> ?]]|[? ?]]; [by left| |by auto].
           right. split; [by left|]. by apply declaresDependency_In.
        -- intros [?|[[<-|?] ?]]; [by auto| |by auto].
           left. right. split; [done|]. by apply declaresDependency_In.
      * intros q g Hg He. exfalso. apply (Hfresh q g Hg). left. done.
    + intros q g. rewrite addDependencies_lookup.
      * intros [Hg|[-> _]].
        -- intros Hin. apply (Hfresh q g Hg). by right.
        -- intros Hin. apply Hf. by apply list_elem_of_In.
      * intros q' g' Hg He. exfalso. apply (Hfresh q' g' Hg). left. done.
Qed.

Lemma dependents_spec (st : FormStore) (namePath : InternalNamePath) (f : Field) :
  NoDup (map fid (fieldEntities st)) ->
  In f (dependents st namePath)
  <-> In f (fieldEntities st) /\ declaresDependency f namePath = true.
Proof.
  intros Hnd. unfold dependents, dependencies2fields, getFieldEntities.
  rewrite dependencies2fields_from; [|done|].
  - rewrite lookup_empty. cbn. tauto.
  - intros q g. rewrite lookup_empty. cbn. tauto.
Qed.


(** *** [fillChildren] *)

Lemma filter_length_le {A} (P P' : A -> bool) (l : list A) :
  (forall y, P' y = true -> P y = true) ->
  length (List.filter P' l) <= length (List.filter P l).
Proof.
  intros Himp. induction l as [|y l IH]; [done|]. cbn [List.filter].
  destruct (P' y) eqn:E'.
  - rewrite (Himp y E'). cbn. lia.
  - destruct (P y); cbn; lia.
Qed.

Lemma filter_length_lt {A} (P P' : A -> bool) (l : list A) (x : A) :
  (forall y, P' y = true -> P y = true) ->
  In x l -> P x = true -> P' x = false ->
  length (List.filter P' l) < length (List.filter P l).
Proof.
  intros Himp. induction l as [|y l IH]; [done|]. cbn [List.filter].
  intros [->|Hin] HP HP'.
  - rewrite HP, HP'. cbn. pose proof (filter_length_le P P' l Himp). lia.
  - specialize (IH Hin HP HP'). destruct (P' y) eqn:E'.
    + rewrite (Himp y E'). cbn. lia.
    + destruct (P y); cbn; lia.
Qed.

Lemma unvisited_app (st : FormStore) (set new : list Field) :
  unvisited st (set ++ new) <= unvisited st set.
Proof.
  unfold unvisited. apply filter_length_le. intros f.
  rewrite hasField_app, !negb_true_iff. by intros [? ?]%orb_false_iff.
Qed.

Lemma unvisited_add (st : FormStore) (set : list Field) (f : Field) :
  In f (fieldEntities st) -> hasField f set = false ->
  unvisited st (set ++ [f]) < unvisited st set.
Proof.
  intros Hin Hnew. unfold unvisited. apply (filter_length_lt _ _ _ f); auto.
  - intros g. rewrite hasField_app, !negb_true_iff. by intros [? ?]%orb_false_iff.
  - by rewrite Hnew.
  - rewrite hasField_app, negb_false_iff. apply orb_true_iff. right.
    cbn. by rewrite Nat.eqb_refl.
Qed.

Lemma unvisited_bound (st : FormStore) (set : list Field) :
  unvisited st set <= length (fieldEntities st).
Proof. unfold unvisited. apply List.filter_length_le. Qed.

Lemma fillEach_total (st : FormStore) (rootNamePath : InternalNamePath) (fuel : nat) :
  NoDup (map fid (fieldEntities st)) ->
  (forall namePath acc,
      unvisited st (children acc) < fuel ->
      cascadeWellFormed st acc -> cascadeSound st rootNamePath acc ->
      cascadePath st rootNamePath namePath ->
      exists acc',
        fillChildren st fuel namePath acc = Some acc'
        /\ cascadeWellFormed st acc' /\ cascadeSound st rootNamePath acc'
        /\ cascadeFills st (dependents st namePath) acc acc') ->
  forall fields acc,
    (forall f, In f fields ->
               In f (fieldEntities st)
               /\ (cascades st f = true -> Cascaded st rootNamePath f)) ->
    unvisited st (children acc) <= fuel ->
    cascadeWellFormed st acc -> cascadeSound st rootNamePath acc ->
    exists acc',
      fillEach st (fillChildren st fuel) fields acc = Some acc'
      /\ cascadeWellFormed st acc' /\ cascadeSound st rootNamePath acc'
      /\ cascadeFills st fields acc acc'.
Proof.
  intros Hnd IHfuel fields.
  induction fields as [|f rest IH]; intros acc Hfields Hfuel Hwf Hsound.
  - exists acc. do 3 (split; [done|]).
    exists []. rewrite app_nil_r. split; [done|]. split; [|done]. by intros g [].
  - cbn [fillEach].
    assert (Hrest : forall g, In g rest ->
               In g (fieldEntities st)
               /\ (cascades st g = true -> Cascaded st rootNamePath g)).
    { intros g Hg. apply Hfields. by right. }
    destruct (Hfields f (or_introl eq_refl)) as [Hf Hfc].
    destruct Hwf as (Hreg & Hdistinct & Hpaths).
    destruct (hasField f (children acc)) eqn:Hhas.
    + destruct (IH acc Hrest Hfuel (conj Hreg (conj Hdistinct Hpaths)) Hsound)
        as (acc' & Hrun & Hwf' & Hsound' & new & Hnew & Hclosed & Hmet).
      exists acc'. do 3 (split; [done|]).
      exists new. do 2 (split; [done|]).
      intros g [<-|Hg]; [|by apply Hmet].
      rewrite Hnew. apply in_or_app. left.
      apply hasField_true in Hhas as (other & Hother & He).
      rewrite <- (fid_inj_registry (fieldEntities st) other f); auto.
    + rewrite addField_spec, Hhas. cbn [children childrenFields].
      pose proof (unvisited_add st (children acc) f Hf Hhas) as Hless.
      assert (Hreg1 : forall g, In g (children acc ++ [f]) -> In g (fieldEntities st)).
      { intros g [Hg|[<-|[]]]%in_app_or; auto. }
      assert (Hdistinct1 : NoDup (map fid (children acc ++ [f]))).
      { rewrite map_app. apply NoDup_app. split; [done|]. split.
        - intros x Hx [->|[]%elem_of_nil]%elem_of_cons.
          apply hasField_false in Hhas. apply Hhas. by apply list_elem_of_In.
        - apply NoDup_singleton. }
      fold (cascades st f). destruct (cascades st f) eqn:Hcf.
      * set (acc1 := {| children := children acc ++ [f];
                        childrenFields := childrenFields acc ++ [fieldNamePath f] |}).
        destruct (IHfuel (fieldNamePath f) acc1) as
          (acc2 & Hrun2 & Hwf2 & Hsound2 & new2 & Hnew2 & Hclosed2 & Hmet2).
        { cbn [acc1 children]. lia. }
        { split; [done|]. split; [done|]. cbn [acc1 children childrenFields].
          rewrite List.filter_app, map_app, <- Hpaths. cbn [List.filter].
          by rewrite Hcf. }
        { intros g [Hg|[<-|[]]]%in_app_or Hcg; auto. }
        { right. exists f. split; [|done]. by apply Hfc. }
        rewrite Hrun2.
        destruct (IH acc2 Hrest) as
          (acc3 & Hrun3 & Hwf3 & Hsound3 & new3 & Hnew3 & Hclosed3 & Hmet3); try done.
        { rewrite Hnew2. cbn [acc1 children].
          pose proof (unvisited_app st (children acc ++ [f]) new2). lia. }
        exists acc3. do 3 (split; [done|]).
        exists ([f] ++ new2 ++ new3). split; [|split].
        -- rewrite Hnew3, Hnew2. cbn [acc1 children]. by rewrite <- !app_assoc.
        -- intros g [[<-|[]]|[Hg|Hg]%in_app_or]%in_app_or Hcg h Hh.
           ++ rewrite Hnew3. apply in_or_app. left. by apply Hmet2.
           ++ rewrite Hnew3. apply in_or_app. left. by eapply Hclosed2.
           ++ by eapply Hclosed3.
        -- intros g [<-|Hg]; [|by apply Hmet3].
           rewrite Hnew3, Hnew2. cbn [acc1 children].
           apply in_or_app. left. apply in_or_app. left. apply in_or_app. right.
           by left.
      * set (acc1 := {| children := children acc ++ [f];
                        childrenFields := childrenFields acc |}).
        destruct (IH acc1 Hrest) as
          (acc3 & Hrun3 & Hwf3 & Hsound3 & new3 & Hnew3 & Hclosed3 & Hmet3).
        { cbn [acc1 children]. lia. }
        { split; [done|]. split; [done|]. cbn [acc1 children childrenFields].
          rewrite List.filter_app, map_app, <- Hpaths. cbn [List.filter].
          rewrite Hcf. cbn. by rewrite app_nil_r. }
        { intros g [Hg|[<-|[]]]%in_app_or Hcg; [auto|congruence]. }
        exists acc3. do 3 (split; [done|]).
        exists ([f] ++ new3). split; [|split].
        -- rewrite Hnew3. cbn [acc1 children]. by rewrite <- !app_assoc.
        -- intros g [[<-|[]]|Hg]%in_app_or Hcg h Hh; [congruence|].
           by eapply Hclosed3.
        -- intros g [<-|Hg]; [|by apply Hmet3].
           rewrite Hnew3. cbn [acc1 children].
           apply in_or_app. left. apply in_or_app. right. by left.
Qed.

Lemma fillChildren_total (st : FormStore) (rootNamePath : InternalNamePath) :
  NoDup (map fid (fieldEntities st)) ->
  forall fuel namePath acc,
    unvisited st (children acc) < fuel ->
    cascadeWellFormed st acc -> cascadeSound st rootNamePath acc ->
    cascadePath st rootNamePath namePath ->
    exists acc',
      fillChildren st fuel namePath acc = Some acc'
      /\ cascadeWellFormed st acc' /\ cascadeSound st rootNamePath acc'
      /\ cascadeFills st (dependents st namePath) acc acc'.
Proof.
  intros Hnd fuel. induction fuel as [|fuel IH]; intros namePath acc Hfuel Hwf Hsound Hpath;
    [lia|].
  cbn [fillChildren]. fold (dependents st namePath).
  apply (fillEach_total st rootNamePath fuel Hnd IH); try done; [|lia].
  intros f [Hf Hdep]%dependents_spec; [|done]. split; [done|].
  intros Hcf. destruct Hpath as [->|(parent & Hparent & <-)].
  - by apply Cascaded_root.
  - by eapply Cascaded_step.
Qed.


Lemma NoDup_map_filter {A B} (f : A -> B) (P : A -> bool) (l : list A) :
  NoDup (map f l) -> NoDup (map f (List.filter P l)).
Proof.
  induction l as [|x l IH]; [done|]. cbn [map List.filter].
  intros [Hx Hl]%NoDup_cons. destruct (P x); [|by apply IH].
  cbn [map]. apply NoDup_cons. split; [|by apply IH].
  intros Hin. apply Hx. apply list_elem_of_In in Hin. apply list_elem_of_In.
  apply in_map_iff in Hin as (y & <- & Hy). apply in_map_iff. exists y.
  split; [done|]. by apply filter_In in Hy as [? _].
Qed.

Lemma isDefined_spec (v : StoreValue) : isDefined v = true <-> v <> VUndefined.
Proof. destruct v; cbn; split; congruence. Qed.

Lemma isFieldDirty_spec (st : FormStore) (f : Field) :
  isFieldDirty st f = true <->
  dirty f = true
  \/ initialValue (props f) <> VUndefined
  \/ getValue (initialValues (config st)) (fieldNamePath f) <> VUndefined.
Proof.
  unfold isFieldDirty, getInitialValue, cloneDeep.
  rewrite <- !isDefined_spec.
  assert (forall p : InternalNamePath,
             match p with
             | [] => getValue (initialValues (config st)) p
             | _ :: _ => getValue (initialValues (config st)) p
             end = getValue (initialValues (config st)) p) as -> by (by intros []).
  destruct (dirty f), (isDefined (initialValue (props f))),
    (isDefined (getValue (initialValues (config st)) (fieldNamePath f)));
    cbn; intuition congruence.
Qed.

(** C4, as amended: with the registered entities told apart by their
    identity, [getDependencyChildrenFields] returns, without running out of
    fuel, the paths of exactly the registered fields that declare a
    dependency on the changed path or on the path of a field already
    collected, each field once, and that pass the test of [fillChildren]:
    [isFieldDirty] holds (the dirty flag, or an [initialValue] of the field,
    or a form-level initial value at its path) and the path is not empty.  A
    field that fails the test is not collected and the cascade does not go
    on from its path: [isFieldDirty] holds exactly when the dirty flag is
    set, or the [initialValue] of the field is not [undefined], or the
    form-level initial values are not [undefined] at the path of the field;
    a field for which none of the three holds is not collected. *)
Theorem dependency_cascade_collects
    (st : FormStore) (rootNamePath : InternalNamePath) :
  NoDup (map fid (fieldEntities st)) ->
  fillChildren st (S (length (fieldEntities st))) rootNamePath
    {| children := []; childrenFields := [] |} <> None
  /\ exists fields,
       getDependencyChildrenFields st rootNamePath = map fieldNamePath fields
       /\ NoDup (map fid fields)
       /\ (forall f, In f fields <-> Cascaded st rootNamePath f)
       /\ (forall f, In f fields ->
                     isFieldDirty st f = true /\ fieldNamePath f <> [])
       /\ (forall f, isFieldDirty st f = true <->
                     dirty f = true
                     \/ initialValue (props f) <> VUndefined
                     \/ getValue (initialValues (config st)) (fieldNamePath f)
                        <> VUndefined)
       /\ (forall f, dirty f = false ->
                     initialValue (props f) = VUndefined ->
                     getValue (initialValues (config st)) (fieldNamePath f)
                     = VUndefined ->
                     ~ In f fields /\ ~ Cascaded st rootNamePath f).
Proof.
  intros Hnd.
  destruct (fillChildren_total st rootNamePath Hnd (S (length (fieldEntities st)))
              rootNamePath {| children := []; childrenFields := [] |})
    as (acc & Hrun & (Hreg & Hdistinct & Hpaths) & Hsound & new & Hnew & Hclosed & Hmet).
  { pose proof (unvisited_bound st []). cbn [children]. lia. }
  { split; [by intros f []|]. split; [apply NoDup_nil_2|done]. }
  { by intros g []. }
  { by left. }
  split; [by rewrite Hrun|].
  unfold getDependencyChildrenFields. rewrite Hrun.
  exists (List.filter (cascades st) (children acc)).
  split; [done|]. split; [by apply NoDup_map_filter|]. split.
  - intros f. split.
    + intros [Hin Hc]%filter_In. by apply Hsound.
    + intros Hcascaded. cbn [children app] in Hnew.
      induction Hcascaded as [f Hf Hdep Hc|parent f Hparent IH Hf Hdep Hc].
      * apply filter_In. split; [|done]. apply Hmet. by apply dependents_spec.
      * apply filter_In. split; [|done].
        apply filter_In in IH as [Hin Hcp]. rewrite Hnew in Hin.
        apply (Hclosed parent Hin Hcp). by apply dependents_spec.
  - split; [|split].
    + intros f [_ Hc]%filter_In. unfold cascades in Hc.
      apply andb_true_iff in Hc as [Hd Hp]. split; [done|].
      apply negb_true_iff in Hp. by apply bool_decide_eq_false in Hp.
    + apply isFieldDirty_spec.
    + intros f Hd Hi Hv.
      assert (isFieldDirty st f = false) as Hdirty.
      { apply not_true_is_false. intros H. apply isFieldDirty_spec in H.
        destruct H as [H|[H|H]]; congruence. }
      assert (~ Cascaded st rootNamePath f) as Hnot.
      { intros Hc. destruct Hc as [f _ _ Hc|parent f _ _ _ Hc];
          unfold cascades in Hc; rewrite Hdirty in Hc; discriminate. }
      split; [|exact Hnot]. intros [_ Hc]%filter_In.
      unfold cascades in Hc. rewrite Hdirty in Hc. discriminate.
Qed.

(** ** Reset *)



(** ** Message templates *)

Lemma string_app_cons (x : ascii) (a b : string) :
  String x a +:+ b = String x (a +:+ b).
Proof. reflexivity. Qed.

Lemma string_app_nil_l (a : string) : "" +:+ a = a.
Proof. reflexivity. Qed.

Lemma string_app_assoc (a b c : string) : (a +:+ b) +:+ c = a +:+ (b +:+ c).
Proof.
  induction a as [|x a IH]; [done|]. rewrite !string_app_cons. by rewrite IH.
Qed.

Lemma string_app_nil_r (a : string) : a +:+ "" = a.
Proof.
  induction a as [|x a IH]; [done|]. rewrite string_app_cons. by rewrite IH.
Qed.

(** A dollar sign flushes what the scanner holds and starts a new match. *)
Lemma scanStep_dollar (kv : string -> string) (st : ScanState) :
  scanStep kv st "$"%char = (ScanDollar, scanPending st).
Proof.
  destruct st as [| |key]; cbn; rewrite ?string_app_nil_r; reflexivity.
Qed.

Lemma scanFrom_key (kv : string -> string) (key rest read : string) :
  allWordChars key = true ->
  scanFrom kv (ScanKey read) (key +:+ rest) = scanFrom kv (ScanKey (read +:+ key)) rest.
Proof.
  revert read. induction key as [|c key IH]; intros read Hkey.
  - by rewrite string_app_nil_l, string_app_nil_r.
  - cbn [allWordChars] in Hkey. apply andb_true_iff in Hkey as [Hc Hkey].
    rewrite string_app_cons. cbn [scanFrom scanStep]. rewrite Hc.
    rewrite string_app_nil_l, (IH _ Hkey).
    by rewrite string_app_assoc, string_app_cons, string_app_nil_l.
Qed.

Lemma scanFrom_placeholder (kv : string -> string) (st : ScanState)
    (key post : string) :
  isPlaceholderKey key = true ->
  scanFrom kv st ("${" +:+ key +:+ "}" +:+ post)
  = scanPending st +:+ kv key +:+ scanFrom kv ScanText post.
Proof.
  intros [Hne Hkey]%andb_true_iff.
  rewrite !string_app_cons, !string_app_nil_l.
  cbn [scanFrom]. rewrite scanStep_dollar. cbn [scanStep].
  change (Ascii.eqb "{" "{") with true. cbv iota.
  rewrite string_app_nil_l, (scanFrom_key kv key _ "" Hkey), string_app_nil_l.
  cbn [scanFrom scanStep].
  change (isWordChar "}") with false. cbv iota.
  change (Ascii.eqb "}" "}") with true. rewrite Hne. cbn [andb].
  reflexivity.
Qed.

(** Scanning a text from any state: what is emitted, and the state the
    scanner is left in, whatever follows. *)
Lemma scanFrom_app (kv : string -> string) (pre : string) :
  forall st, exists out st',
    forall rest, scanFrom kv st (pre +:+ rest) = out +:+ scanFrom kv st' rest.
Proof.
  induction pre as [|c pre IH]; intros st.
  - exists "", st. reflexivity.
  - destruct (scanStep kv st c) as [st1 out1] eqn:E.
    destruct (IH st1) as (out & st' & H).
    exists (out1 +:+ out), st'. intros rest.
    rewrite string_app_cons. cbn [scanFrom]. rewrite E, H.
    by rewrite string_app_assoc.
Qed.

(** X1: a placeholder [${key}], its key made of one or more word
    characters, is replaced by [kv[key]] wherever it stands; what precedes
    and what follows it are replaced on their own. *)
Theorem replaceMessage_substitutes (kv : string -> string) (pre key post : string) :
  isPlaceholderKey key = true ->
  replaceMessage (pre +:+ "${" +:+ key +:+ "}" +:+ post) kv
  = replaceMessage pre kv +:+ kv key +:+ replaceMessage post kv.
Proof.
  intros Hkey. unfold replaceMessage.
  destruct (scanFrom_app kv pre ScanText) as (out & st' & H).
  rewrite H, (scanFrom_placeholder kv st' key post Hkey).
  specialize (H ""). rewrite string_app_nil_r in H. rewrite H. cbn [scanFrom].
  by rewrite !string_app_assoc.
Qed.

(** X2: a template without dollar sign is returned as it is. *)
Theorem replaceMessage_plain (kv : string -> string) (template : string) :
  noDollar template = true -> replaceMessage template kv = template.
Proof.
  unfold replaceMessage. induction template as [|c template IH]; [done|].
  cbn [noDollar]. intros [Hc Ht]%andb_true_iff.
  cbn [scanFrom scanStep]. unfold scanText.
  apply negb_true_iff in Hc. rewrite Hc.
  by rewrite string_app_cons, string_app_nil_l, (IH Ht).
Qed.

(** ** Validator functions *)

(** X3: when the validator function of a rule fails, [validateRule]
    yields exactly one message, whatever else the rule holds.  A promise
    rejected without reason, or with the empty string, is reported as
    [' ']; a rejection reason or a callback error as it is; and the reason
    [CODE_LOGIC_ERROR], like an exception, as the [default] entry of the
    message table in force.  The message has its placeholders filled from
    the filled rule, [ruleIndex] included.  (A message being there, the
    branch of [validateRule] for the items of an array is not taken.) *)
Theorem validateRule_validator_outcome
    (name : string) (value : StoreValue) (currentRule : RuleObject) (index : nat)
    (originValidatorFunc : Validator)
    (options : ValidateOptions) (messageVariables : gmap string string)
    (message : string) :
  let rule := fillRule index currentRule in
  let messages :=
    mergeMessages defaultValidateMessages
      (default noOverrides (validateMessages options)) in
  let report (message : string) :=
    replaceMessage
      (if String.eqb message CODE_LOGIC_ERROR then vm_default messages else message)
      (messageContext rule name messageVariables) in
  validator currentRule = Some originValidatorFunc ->
  match originValidatorFunc value with
  | Throws => message = CODE_LOGIC_ERROR
  | PromiseRejected None => message = " "
  | PromiseRejected (Some reason) =>
      message = if String.eqb reason "" then " " else reason
  | CallbackCalled (Some error) => message = error
  | PromiseFulfilled | CallbackCalled None => False
  end ->
  validateRule name value rule options messageVariables = [report message]
  /\ (messageVariables !! "ruleIndex" = None ->
      messageContext rule name messageVariables "ruleIndex" = pretty index).
Proof.
  intros rule messages report Hv Hmessage. split.
  - unfold validateRule, asyncValidate, report, messages.
    unfold rule at 1 2 3, fillRule.
    cbn [filled validator withValidator]. rewrite Hv.
    cbn [fmap option_fmap option_map].
    unfold catchValidator, callbackValidator.
    destruct (originValidatorFunc value) as [| |[reason|]|[error|]];
      try done; by subst message.
  - intros Hnone. unfold messageContext. by rewrite Hnone.
Qed.

(** ** Rules in parallel *)

Lemma firstFailedStep_resolved (rulePromises : list RuleError) (st : FirstFailed)
    (i : nat) v :
  resolved st = Some v -> resolved (firstFailedStep rulePromises st i) = Some v.
Proof.
  intros H. unfold firstFailedStep.
  destruct (rulePromises !! i) as [ruleError|]; [|done].
  cbn [resolved]. rewrite H.
  destruct (errors ruleError); destruct (Nat.eqb _ _); reflexivity.
Qed.

Lemma firstFailed_resolved (rulePromises : list RuleError) (more : list nat) :
  forall st v,
    resolved st = Some v ->
    resolved (foldl (firstFailedStep rulePromises) st more) = Some v.
Proof.
  induction more as [|i more IH]; intros st v H; [done|].
  cbn [foldl]. apply IH. by apply firstFailedStep_resolved.
Qed.

(** X4: with [validateFirst === 'parallel'] the promise settles once: what
    it is settled with after some of the rule promises have settled is what
    it stays settled with when others follow. *)
Theorem validateRules_parallel_settles_once
    (namePath : InternalNamePath) (value : StoreValue) (rules : list RuleObject)
    (options : ValidateOptions) (messageVariables : gmap string string)
    (completion more : list nat) :
  let result completion :=
    summaryPromise
      (validateRules namePath value rules options ValidateFirstParallel
         messageVariables completion) in
  result completion <> Pending ->
  result (completion ++ more) = result completion.
Proof.
  cbv zeta. unfold validateRules, validateRulesRun. cbn [summaryPromise].
  unfold finishOnFirstFailed. rewrite foldl_app.
  destruct (resolved (foldl _ _ completion)) as [v|] eqn:E; [|done].
  intros _. by rewrite (firstFailed_resolved _ more _ v E).
Qed.

Lemma firstFailed_no_rules (completion : list nat) (st : FirstFailed) :
  foldl (firstFailedStep []) st completion = st.
Proof.
  induction completion as [|i l IH]; [done|]. cbn [foldl].
  unfold firstFailedStep at 2. by rewrite lookup_nil.
Qed.

(** X5: without rules the three modes part ways: the serial run is
    fulfilled with the empty list, the default run is rejected with it, and
    the promise of the ['parallel'] run never settles, whatever is waited
    for.  A field in that mode whose rules are all disarmed by the trigger
    gets no answer from its run: nothing enters the job queue and the store
    is as before, the field still validating. *)
Theorem validateRules_without_rules
    (namePath : InternalNamePath) (value : StoreValue)
    (options : ValidateOptions) (messageVariables : gmap string string)
    (completion : list nat) :
  let result validateFirst :=
    summaryPromise
      (validateRules namePath value [] options validateFirst messageVariables
         completion) in
  result ValidateFirstTrue = Fulfilled []
  /\ result ValidateFirstFalse = Rejected []
  /\ result ValidateFirstParallel = Pending
  /\ forall (st : FormStore) (f : Field) (root : nat),
       List.find (fun g => Nat.eqb (fid g) (fid f)) (fieldEntities st) = Some f ->
       validateFirst (props f) = ValidateFirstParallel ->
       filteredRules f options = [] ->
       runJob st (JobRootBody (fid f) root namePath value options) completion = st.
Proof.
  cbv zeta. unfold validateRules, validateRulesRun, finishOnFirstFailed.
  cbn [filledRules imap sortBy map summaryPromise validateSerial].
  rewrite firstFailed_no_rules. cbn [resolved alwaysReject finishOnAllFailed].
  do 3 (split; [reflexivity|]).
  intros st f root Hfind Hmode Hrules. cbn [runJob]. rewrite Hfind.
  destruct (mounted f); [|reflexivity].
  rewrite Hrules, Hmode. unfold validateRules, validateRulesRun, finishOnFirstFailed.
  cbn [filledRules imap sortBy map summaryPromise].
  rewrite firstFailed_no_rules. reflexivity.
Qed.


(** ** The map of the named fields *)

Lemma fieldsMap_lookup (fields : list Field) (cache : gmap InternalNamePath Field)
    (namePath : InternalNamePath) :
  foldl (fun cache field => <[fieldNamePath field := field]> cache) cache fields
    !! namePath
  = match last (List.filter (fun field => bool_decide (fieldNamePath field = namePath))
                            fields) with
    | Some field => Some field
    | None => cache !! namePath
    end.
Proof.
  revert cache. induction fields as [|f fields IH]; intros cache; [done|].
  cbn [foldl List.filter]. rewrite IH.
  destruct (bool_decide_reflect (fieldNamePath f = namePath)) as [<-|Hne].
  - rewrite last_cons. destruct (last _); [done|]. by rewrite lookup_insert_eq.
  - destruct (last _); [done|]. by rewrite lookup_insert_ne.
Qed.

Lemma filter_none {A} (P : A -> bool) (l : list A) :
  Forall (fun x => P x = false) l -> List.filter P l = [].
Proof.
  induction 1 as [|x l Hx _ IH]; [done|]. cbn [List.filter]. by rewrite Hx.
Qed.

Lemma getFieldsMap_missing (st : FormStore) (namePath : InternalNamePath) :
  Forall (fun field => fieldNamePath field <> namePath) (getFieldEntities st true) ->
  getFieldsMap st true !! namePath = None.
Proof.
  intros H. unfold getFieldsMap. rewrite fieldsMap_lookup, filter_none; [done|].
  eapply Forall_impl; [exact H|]. intros f Hf. by apply bool_decide_eq_false.
Qed.

Lemma getFieldsMap_found (st : FormStore) (namePath : InternalNamePath) (f : Field) :
  getFieldsMap st true !! namePath = Some f ->
  fieldNamePath f = namePath /\ In f (getFieldEntities st true).
Proof.
  unfold getFieldsMap. rewrite fieldsMap_lookup.
  destruct (last _) as [g|] eqn:E; [|by rewrite lookup_empty].
  intros [= ->]. apply last_Some in E as [l' E].
  assert (In f (List.filter
                  (fun field => bool_decide (fieldNamePath field = namePath))
                  (getFieldEntities st true))) as Hin.
  { rewrite E. apply in_or_app. right. by left. }
  apply filter_In in Hin as [Hin Hp]. split; [|done].
  by apply bool_decide_eq_true in Hp.
Qed.

Lemma getFieldsMap_last (st : FormStore) (pre post : list Field) (f : Field) :
  fieldEntities st = pre ++ f :: post ->
  fieldNamePath f <> [] ->
  Forall (fun g => fieldNamePath g <> fieldNamePath f) post ->
  getFieldsMap st true !! fieldNamePath f = Some f.
Proof.
  intros Hreg Hpath Hpost. unfold getFieldsMap, getFieldEntities.
  rewrite fieldsMap_lookup, Hreg, List.filter_app, List.filter_app.
  cbn [List.filter]. rewrite (bool_decide_eq_false_2 _ Hpath). cbn [negb List.filter].
  rewrite (bool_decide_eq_true_2 (fieldNamePath f = fieldNamePath f) eq_refl).
  rewrite last_app_cons.
  rewrite (filter_none _ (List.filter _ post)); [done|].
  apply Forall_filter_bool. eapply Forall_impl; [exact Hpost|].
  intros g Hg. by apply bool_decide_eq_false.
Qed.

(** The entry of [getFieldsError] for a name. *)
Lemma getFieldsError_named_from (st : FormStore) (names pre suffix : list NamePath) :
  names = pre ++ suffix ->
  imap (fun index (entity : Field + InternalNamePath) =>
          match entity with
          | inl field =>
              {| fe_name := fieldNamePath field;
                 fe_errors := getErrors field;
                 fe_warnings := getWarnings field |}
          | inr _ =>
              {| fe_name := default [] (getNamePath <$> names !! (length pre + index));
                 fe_errors := [];
                 fe_warnings := [] |}
          end)
       (map (fun name =>
               match getFieldsMap st true !! getNamePath name with
               | Some field => inl field
               | None => inr (getNamePath name)
               end) suffix)
  = map (fun name =>
           match getFieldsMap st true !! getNamePath name with
           | Some field =>
               {| fe_name := getNamePath name;
                  fe_errors := getErrors field;
                  fe_warnings := getWarnings field |}
           | None =>
               {| fe_name := getNamePath name; fe_errors := []; fe_warnings := [] |}
           end) suffix.
Proof.
  revert pre. induction suffix as [|name suffix IH]; intros pre Hnames; [done|].
  cbn [map]. rewrite imap_cons. f_equal.
  - destruct (getFieldsMap st true !! getNamePath name) as [field|] eqn:E.
    + apply getFieldsMap_found in E as [-> _]. reflexivity.
    + rewrite Nat.add_0_r, Hnames.
      rewrite lookup_app_r by lia. rewrite Nat.sub_diag. reflexivity.
  - specialize (IH (pre ++ [name])).
    rewrite <- IH by (by rewrite <- app_assoc).
    apply imap_ext. intros i entity _. cbn. destruct entity; [done|].
    rewrite length_app. cbn [length]. by replace (length pre + 1 + i) with (length pre + S i) by lia.
Qed.

Lemma getFieldsError_named (st : FormStore) (names : list NamePath) :
  getFieldsError st (Some names)
  = map (fun name =>
           match getFieldsMap st true !! getNamePath name with
           | Some field =>
               {| fe_name := getNamePath name;
                  fe_errors := getErrors field;
                  fe_warnings := getWarnings field |}
           | None =>
               {| fe_name := getNamePath name; fe_errors := []; fe_warnings := [] |}
           end) names.
Proof.
  unfold getFieldsError, getFieldEntitiesForNamePathList.
  exact (getFieldsError_named_from st names [] names eq_refl).
Qed.

(** X6: [getFieldsError(nameList)] answers name by name: one entry for each
    name of [nameList], in the order of [nameList], under the path of the
    name; the entry of a name no registered field has is empty, and so are
    [getFieldError] and [getFieldWarning] of such a name. *)
Theorem getFieldsError_by_name (st : FormStore) (names : list NamePath) :
  map fe_name (getFieldsError st (Some names)) = map getNamePath names
  /\ forall name,
       Forall (fun field => fieldNamePath field <> getNamePath name)
              (getFieldEntities st true) ->
       (In name names ->
        In {| fe_name := getNamePath name; fe_errors := []; fe_warnings := [] |}
           (getFieldsError st (Some names)))
       /\ getFieldError st name = []
       /\ getFieldWarning st name = [].
Proof.
  split.
  - rewrite getFieldsError_named, map_map. apply map_ext.
    intros name. by destruct (getFieldsMap st true !! getNamePath name).
  - intros name Hmissing. pose proof (getFieldsMap_missing st _ Hmissing) as E.
    split; [|split].
    + intros Hin. rewrite getFieldsError_named. apply in_map_iff.
      exists name. by rewrite E.
    + unfold getFieldError. rewrite getFieldsError_named. cbn [map getNamePath].
      by rewrite E.
    + unfold getFieldWarning. rewrite getFieldsError_named. cbn [map getNamePath].
      by rewrite E.
Qed.

(** X7: of the registered fields that have the path of a name, the one
    registered last answers [getFieldError] and [getFieldWarning]. *)
Theorem getFieldError_last_registered
    (st : FormStore) (name : NamePath) (pre post : list Field) (f : Field) :
  fieldEntities st = pre ++ f :: post ->
  fieldNamePath f = getNamePath name ->
  getNamePath name <> [] ->
  Forall (fun g => fieldNamePath g <> getNamePath name) post ->
  getFieldError st name = getErrors f
  /\ getFieldWarning st name = getWarnings f.
Proof.
  intros Hreg Hpath Hne Hpost. rewrite <- Hpath in Hne, Hpost.
  pose proof (getFieldsMap_last st pre post f Hreg Hne Hpost) as E.
  unfold getFieldError, getFieldWarning. rewrite getFieldsError_named.
  cbn [map getNamePath]. rewrite <- Hpath, E. done.
Qed.

(** X9: with a list of names and no filter, [getFieldsValue] is the copy of
    the store at the paths of the names, whether fields are registered under
    them or not; without a list, it is the copy at the paths of the
    registered fields that have a path and are not list fields. *)
Theorem getFieldsValue_by_name (st : FormStore) (names : list NamePath) :
  getFieldsValue st (Some names) None
  = cloneByNamePathList (store st) (map getNamePath names)
  /\ getFieldsValue st None None
     = cloneByNamePathList (store st)
         (map fieldNamePath
            (List.filter (fun field => negb (isListField (props field)))
                         (getFieldEntities st true))).
Proof.
  split.
  - unfold getFieldsValue, getFieldEntitiesForNamePathList. f_equal.
    rewrite (bool_decide_eq_false_2 (Some names = None)) by done. cbn [andb].
    induction names as [|name names IH]; [done|].
    cbn [map omap list_omap]. change (list_omap ?f ?l) with (omap f l).
    rewrite IH. f_equal.
    destruct (getFieldsMap st true !! getNamePath name) as [field|] eqn:E; [|done].
    by apply getFieldsMap_found in E as [-> _].
  - unfold getFieldsValue, getFieldEntitiesForNamePathList. f_equal.
    rewrite (bool_decide_eq_true_2 (None = None)) by done. cbn [andb].
    induction (getFieldEntities st true) as [|field fields IH]; [done|].
    cbn [fmap list_fmap omap list_omap List.filter].
    change (list_omap ?f ?l) with (omap f l).
    change (list_fmap _ _ ?f ?l) with (f <$> l). rewrite IH.
    by destruct (isListField (props field)).
Qed.

Lemma getFieldsError_all (st : FormStore) :
  getFieldsError st None
  = map (fun field =>
           {| fe_name := fieldNamePath field;
              fe_errors := getErrors field;
              fe_warnings := getWarnings field |})
        (getFieldEntities st true).
Proof.
  unfold getFieldsError, getFieldEntitiesForNamePathList. rewrite imap_fmap.
  exact (imap_const _ _).
Qed.


(** ** [isFieldsTouched] *)

Lemma everyUnitMatches_prefix (shortNamePath namePath : InternalNamePath) :
  everyUnitMatches shortNamePath namePath = true
  <-> shortNamePath `prefix_of` namePath.
Proof.
  unfold everyUnitMatches. revert namePath.
  induction shortNamePath as [|x s IH]; intros p.
  - split; [intros _; apply prefix_nil|done].
  - rewrite imap_cons. cbn [forallb]. destruct p as [|y p].
    + cbn. split; [done|]. intros H. by apply prefix_nil_not in H.
    + cbn [lookup list_lookup]. rewrite andb_true_iff.
      rewrite (imap_ext _ (fun i nameUnit =>
                             match p !! i with
                             | Some unit => bool_decide (unit = nameUnit)
                             | None => false
                             end)) by done.
      rewrite IH, bool_decide_eq_true. split.
      * intros [-> H]. by apply prefix_cons.
      * intros H. split; [symmetry; by eapply prefix_cons_inv_1|].
        by eapply prefix_cons_inv_2.
Qed.

Lemma touchedMap_empty (namePathList : list InternalNamePath)
    (cache : gmap InternalNamePath (list Field)) (k : InternalNamePath) :
  foldl (fun cache shortNamePath => <[shortNamePath := []]> cache) cache namePathList
    !! k
  = if bool_decide (k ∈ namePathList) then Some [] else cache !! k.
Proof.
  revert cache. induction namePathList as [|short l IH]; intros cache.
  - by rewrite bool_decide_eq_false_2 by apply not_elem_of_nil.
  - cbn [foldl]. rewrite IH.
    destruct (bool_decide_reflect (k ∈ l)) as [Hin|Hnin].
    + by rewrite bool_decide_eq_true_2 by (by apply elem_of_cons; right).
    + destruct (decide (short = k)) as [->|Hne].
      * rewrite lookup_insert_eq.
        by rewrite bool_decide_eq_true_2 by (by apply elem_of_cons; left).
      * rewrite lookup_insert_ne by done.
        rewrite bool_decide_eq_false_2; [done|].
        intros [?|?]%elem_of_cons; congruence.
Qed.

Lemma touchedMap_field (f : Field) (l : list InternalNamePath)
    (cache : gmap InternalNamePath (list Field)) (k : InternalNamePath) :
  let cache' :=
    foldl (fun cache shortNamePath =>
             if everyUnitMatches shortNamePath (fieldNamePath f)
             then partial_alter (fun list => Some (default [] list ++ [f]))
                    shortNamePath cache
             else cache) cache l in
  (forall g, In g (default [] (cache' !! k))
             <-> In g (default [] (cache !! k))
                 \/ (g = f /\ In k l
                     /\ everyUnitMatches k (fieldNamePath f) = true))
  /\ (is_Some (cache !! k) -> is_Some (cache' !! k))
  /\ (is_Some (cache' !! k) -> is_Some (cache !! k) \/ In k l).
Proof.
  cbv zeta. revert cache. induction l as [|short l IH]; intros cache.
  - cbn [foldl]. split; [|split]; [|done|by left].
    intros g. split; [by left|]. by intros [?|(_ & [] & _)].
  - cbn [foldl].
    set (cache1 := if everyUnitMatches short (fieldNamePath f) then _ else cache).
    destruct (IH cache1) as (Hin & Hsome & Hdom).
    assert (forall g, In g (default [] (cache1 !! k))
                      <-> In g (default [] (cache !! k))
                          \/ (g = f /\ short = k
                              /\ everyUnitMatches k (fieldNamePath f) = true)) as H1.
    { intros g. subst cache1.
      destruct (everyUnitMatches short (fieldNamePath f)) eqn:E.
      - destruct (decide (short = k)) as [->|Hne].
        + rewrite lookup_partial_alter_eq. cbn [from_option id]. rewrite in_app_iff.
          cbn [In]. split; [intros [?|[<-|[]]]; auto|].
          intros [?|(-> & _ & _)]; auto.
        + rewrite lookup_partial_alter_ne by done.
          split; [by left|]. by intros [?|(_ & ? & _)].
      - split; [by left|]. intros [?|(_ & <- & Hm)]; [done|congruence]. }
    assert (is_Some (cache !! k) -> is_Some (cache1 !! k)) as H2.
    { subst cache1. destruct (everyUnitMatches short (fieldNamePath f)); [|done].
      destruct (decide (short = k)) as [->|Hne].
      - rewrite lookup_partial_alter_eq. by eexists.
      - by rewrite lookup_partial_alter_ne. }
    assert (is_Some (cache1 !! k) -> is_Some (cache !! k) \/ short = k) as H3.
    { subst cache1. destruct (everyUnitMatches short (fieldNamePath f)); [|by left].
      destruct (decide (short = k)) as [->|Hne]; [by right|].
      rewrite lookup_partial_alter_ne by done. by left. }
    split; [|split].
    + intros g. rewrite Hin, H1. cbn [In]. split.
      * intros [[?|(-> & -> & Hm)]|(-> & Hk & Hm)]; auto.
      * intros [?|(-> & [->|Hk] & Hm)]; auto.
    + intros H. by apply Hsome, H2.
    + intros H. destruct (Hdom H) as [H'|H']; [|by right; right].
      destruct (H3 H') as [?|?]; [by left|by right; left].
Qed.

Lemma touchedMap_filled (fields : list Field) (l : list InternalNamePath)
    (cache : gmap InternalNamePath (list Field)) (k : InternalNamePath) :
  let cache' :=
    foldl (fun cache field =>
             foldl (fun cache shortNamePath =>
                      if everyUnitMatches shortNamePath (fieldNamePath field)
                      then partial_alter
                             (fun list => Some (default [] list ++ [field]))
                             shortNamePath cache
                      else cache) cache l) cache fields in
  (forall g, In g (default [] (cache' !! k))
             <-> In g (default [] (cache !! k))
                 \/ (In g fields /\ In k l
                     /\ everyUnitMatches k (fieldNamePath g) = true))
  /\ (is_Some (cache !! k) -> is_Some (cache' !! k))
  /\ (is_Some (cache' !! k) -> is_Some (cache !! k) \/ In k l).
Proof.
  cbv zeta. revert cache. induction fields as [|f fields IH]; intros cache.
  - cbn [foldl]. split; [|split]; [|done|by left].
    intros g. split; [by left|]. by intros [?|([] & _)].
  - cbn [foldl].
    destruct (touchedMap_field f l cache k) as (F1 & F2 & F3).
    destruct (IH (foldl (fun cache shortNamePath =>
                           if everyUnitMatches shortNamePath (fieldNamePath f)
                           then partial_alter
                                  (fun list => Some (default [] list ++ [f]))
                                  shortNamePath cache
                           else cache) cache l)) as (I1 & I2 & I3).
    split; [|split].
    + intros g. rewrite I1, F1. cbn [In]. split.
      * intros [[?|(-> & Hk & Hm)]|(Hg & Hk & Hm)]; auto.
      * intros [?|([->|Hg] & Hk & Hm)]; auto.
    + intros H. by apply I2, F2.
    + intros H. destruct (I3 H) as [H'|H']; [|by right]. by apply F3.
Qed.

(** The map [isFieldsTouched] builds: its keys are the paths asked for, and
    under a key stand the named fields whose path the key starts. *)
Lemma touchedMap_spec (st : FormStore) (namePathList : list InternalNamePath)
    (k : InternalNamePath) :
  let fields := getFieldEntities st true in
  let filled :=
    foldl (fun cache field =>
             foldl (fun cache shortNamePath =>
                      if everyUnitMatches shortNamePath (fieldNamePath field)
                      then partial_alter
                             (fun list => Some (default [] list ++ [field]))
                             shortNamePath cache
                      else cache) cache namePathList)
          (foldl (fun cache shortNamePath => <[shortNamePath := []]> cache)
                 (∅ : gmap InternalNamePath (list Field)) namePathList)
          fields in
  (forall g, In g (default [] (filled !! k))
             <-> In g fields /\ In k namePathList /\ k `prefix_of` fieldNamePath g)
  /\ (is_Some (filled !! k) <-> In k namePathList).
Proof.
  cbv zeta.
  destruct (touchedMap_filled (getFieldEntities st true) namePathList
              (foldl (fun cache shortNamePath => <[shortNamePath := []]> cache)
                     (∅ : gmap InternalNamePath (list Field)) namePathList) k) as (H1 & H2 & H3).
  pose proof (touchedMap_empty namePathList ∅ k) as E.
  split.
  - intros g. rewrite H1, E, everyUnitMatches_prefix.
    destruct (bool_decide (k ∈ namePathList)); [|rewrite lookup_empty];
      simpl; tauto.
  - split.
    + intros H. destruct (H3 H) as [H'|H']; [|done].
      rewrite E in H'.
      destruct (bool_decide_reflect (k ∈ namePathList)) as [Hk|Hk];
        [by apply list_elem_of_In|].
      rewrite lookup_empty in H'. by destruct H'.
    + intros H. apply H2. rewrite E, bool_decide_eq_true_2; [by eexists|].
      by apply list_elem_of_In.
Qed.

Lemma mapValues_elem {V} (m : gmap InternalNamePath V) (v : V) :
  In v (map_to_list m).*2 <-> exists k, m !! k = Some v.
Proof.
  rewrite <- list_elem_of_In, list_elem_of_fmap. split.
  - intros ([k v'] & -> & H). exists k. by apply elem_of_map_to_list in H.
  - intros [k H]. exists (k, v). split; [done|]. by apply elem_of_map_to_list.
Qed.

(** X8: [isFieldsTouched(nameList)] holds when, for some name of
    [nameList], a registered field whose path starts with the path of the
    name is touched; [isFieldsTouched(nameList, true)] when this is so for
    every name; [isFieldTouched(name)] when it is so for [name].  A name no
    registered field is under counts as not touched. *)
Theorem isFieldsTouched_by_prefix (st : FormStore) (names : list NamePath) :
  let touchedUnder (name : NamePath) :=
    exists f, In f (getFieldEntities st true)
              /\ getNamePath name `prefix_of` fieldNamePath f
              /\ touched f = true in
  (isFieldsTouched st (TouchedNames names) = true
   <-> exists name, In name names /\ touchedUnder name)
  /\ (isFieldsTouched st (TouchedNamesAll names true) = true
      <-> forall name, In name names -> touchedUnder name)
  /\ (isFieldsTouched st (TouchedNamesAll names false)
      = isFieldsTouched st (TouchedNames names))
  /\ (forall name, FormStore_isFieldTouched st name = true <-> touchedUnder name).
Proof.
  cbv zeta.
  assert (forall names,
             isFieldsTouched st (TouchedNames names) = true
             <-> exists name, In name names
                              /\ exists f, In f (getFieldEntities st true)
                                           /\ getNamePath name `prefix_of` fieldNamePath f
                                           /\ touched f = true) as Hsome.
  { intros l. unfold isFieldsTouched. cbv iota beta.
    rewrite existsb_exists. split.
    - intros (v & Hv & Ht). apply mapValues_elem in Hv as [k Hk].
      apply existsb_exists in Ht as (g & Hg & Ht).
      destruct (touchedMap_spec st (map getNamePath l) k) as (Hin & _).
      assert (In g (default [] (foldl
        (fun cache field =>
           foldl (fun cache shortNamePath =>
                    if everyUnitMatches shortNamePath (fieldNamePath field)
                    then partial_alter
                           (fun list => Some (default [] list ++ [field]))
                           shortNamePath cache
                    else cache) cache (map getNamePath l))
        (foldl (fun cache shortNamePath => <[shortNamePath := []]> cache)
               (∅ : gmap InternalNamePath (list Field)) (map getNamePath l))
        (getFieldEntities st true) !! k))) as Hg'.
      { by rewrite Hk. }
      apply Hin in Hg' as (Hreg & Hkin & Hpre).
      apply in_map_iff in Hkin as (name & <- & Hname).
      exists name. split; [done|]. by exists g.
    - intros (name & Hname & g & Hreg & Hpre & Ht).
      destruct (touchedMap_spec st (map getNamePath l) (getNamePath name))
        as (Hin & Hdom).
      assert (In (getNamePath name) (map getNamePath l)) as Hkin
        by (by apply in_map).
      destruct (proj2 Hdom Hkin) as [v Hv].
      exists v. split; [apply mapValues_elem; by eexists|].
      apply existsb_exists. exists g. split; [|done].
      specialize (Hin g). rewrite Hv in Hin. apply Hin. done. }
  split; [apply Hsome|]. split; [|split].
  - unfold isFieldsTouched. cbv iota beta. rewrite forallb_forall. split.
    + intros H name Hname.
      destruct (touchedMap_spec st (map getNamePath names) (getNamePath name))
        as (Hin & Hdom).
      assert (In (getNamePath name) (map getNamePath names)) as Hkin
        by (by apply in_map).
      destruct (proj2 Hdom Hkin) as [v Hv].
      assert (In v (map_to_list (foldl
        (fun cache field =>
           foldl (fun cache shortNamePath =>
                    if everyUnitMatches shortNamePath (fieldNamePath field)
                    then partial_alter
                           (fun list => Some (default [] list ++ [field]))
                           shortNamePath cache
                    else cache) cache (map getNamePath names))
        (foldl (fun cache shortNamePath => <[shortNamePath := []]> cache)
               (∅ : gmap InternalNamePath (list Field)) (map getNamePath names))
        (getFieldEntities st true))).*2) as Hv'
        by (apply mapValues_elem; by eexists).
      apply H, existsb_exists in Hv' as (g & Hg & Ht).
      specialize (Hin g). rewrite Hv in Hin. apply Hin in Hg as (? & _ & ?).
      by exists g.
    + intros H v Hv. apply mapValues_elem in Hv as [k Hk].
      destruct (touchedMap_spec st (map getNamePath names) k) as (Hin & Hdom).
      assert (In k (map getNamePath names)) as Hkin
        by (apply Hdom; by eexists).
      apply in_map_iff in Hkin as (name & <- & Hname).
      destruct (H name Hname) as (g & Hreg & Hpre & Ht).
      apply existsb_exists. exists g. split; [|done].
      specialize (Hin g). rewrite Hk in Hin. apply Hin.
      split; [done|]. split; [by apply in_map|done].
  - reflexivity.
  - intros name. unfold FormStore_isFieldTouched. rewrite Hsome. split.
    + by intros (name' & [<-|[]] & H).
    + intros H. exists name. split; [by left|done].
Qed.


(** ** The reactions of a field *)

Lemma onStoreChange_entity (f : Field) prevStore namePathList info store :
  entityOf (fst (onStoreChange f prevStore namePathList info store)) = entityOf f.
Proof.
  unfold onStoreChange, entityOf. repeat case_match; simplify_eq; reflexivity.
Qed.

Lemma onStoreChange_path (f : Field) prevStore namePathList info store :
  fieldNamePath (fst (onStoreChange f prevStore namePathList info store))
  = fieldNamePath f.
Proof.
  pose proof (onStoreChange_entity f prevStore namePathList info store) as H.
  unfold entityOf in H. unfold fieldNamePath. by injection H as _ -> _.
Qed.

(** The [reset] branch. *)
Lemma onStoreChange_reset (f : Field) prevStore namePathList store :
  fst (onStoreChange f prevStore namePathList ResetInfo store)
  = if match namePathList with
       | Some l => containsNamePath l (fieldNamePath f)
       | None => true
       end
    then resetState f else f.
Proof.
  unfold onStoreChange, resetState. cbv zeta.
  destruct namePathList as [l|].
  - rewrite (bool_decide_eq_false_2 (Some l = None)) by done. cbn [orb].
    by destruct (containsNamePath l (fieldNamePath f)).
  - by rewrite (bool_decide_eq_true_2 (None = None)).
Qed.

(** The [setField] branch. *)
Lemma onStoreChange_setField (f : Field) prevStore namePathList data store :
  fst (onStoreChange f prevStore namePathList (SetFieldInfo data) store)
  = if match namePathList with
       | Some l => containsNamePath l (fieldNamePath f)
       | None => false
       end
    then applyFieldData f data else f.
Proof.
  unfold onStoreChange. cbv zeta.
  destruct (match namePathList with
            | Some l => containsNamePath l (fieldNamePath f)
            | None => false
            end); [reflexivity|].
  repeat case_match; simplify_eq; reflexivity.
Qed.

(** The notifications that leave the state of every field alone. *)
Lemma onStoreChange_quiet (f : Field) prevStore namePathList info store :
  match info with
  | ValueUpdateInfo SourceInternal | RemoveInfo | DependenciesUpdateInfo _
  | ValidateFinishInfo => True
  | _ => False
  end ->
  fst (onStoreChange f prevStore namePathList info store) = f.
Proof.
  unfold onStoreChange. cbv zeta.
  destruct info as [[|]| | | | |]; intros []; repeat case_match; simplify_eq;
    reflexivity.
Qed.

(** X10: a field reacts to a notification with at most one render; it
    renders exactly once when it is mounted and [shouldUpdate] is [true],
    and not at all when it is not mounted. *)
Theorem onStoreChange_renders_once (f : Field) prevStore namePathList info store :
  let fx := snd (onStoreChange f prevStore namePathList info store) in
  length (renders fx) <= 1
  /\ (mounted f = false -> renders fx = [])
  /\ (mounted f = true -> shouldUpdate (props f) = ShouldUpdateBool true ->
      length (renders fx) = 1).
Proof.
  cbv zeta. unfold onStoreChange, triggerMetaEvent, reRender, refresh, externalUpdate,
    applyFieldData, withState, shouldUpdateTrue, shouldUpdateSet.
  cbn [mounted fid props].
  split; [|split].
  - repeat case_match; simplify_eq; cbn; lia.
  - intros Hm. repeat case_match; simplify_eq; cbn [mounted] in *;
      try reflexivity; congruence.
  - intros Hm Hs. rewrite Hs.
    repeat case_match; simplify_eq; cbn [mounted] in *; try reflexivity;
      try discriminate; congruence.
Qed.


(** ** The registry under the operations of the store *)

Lemma broadcast_entities (fields : list Field) prevStore namePathList info store :
  map entityOf (fst (broadcast fields prevStore namePathList info store))
  = map entityOf fields.
Proof.
  rewrite broadcast_fst, map_map. apply map_ext.
  intros f. apply onStoreChange_entity.
Qed.

Lemma notifyObservers_entities (st : FormStore) prevStore namePathList info :
  map entityOf (fieldEntities (notifyObservers st prevStore namePathList info))
  = map entityOf (fieldEntities st).
Proof.
  rewrite notifyObservers_fields. destruct (subscribable (config st)); [|done].
  apply broadcast_entities.
Qed.

Lemma notifyObservers_quiet (st : FormStore) prevStore namePathList info :
  match info with
  | ValueUpdateInfo SourceInternal | RemoveInfo | DependenciesUpdateInfo _
  | ValidateFinishInfo => True
  | _ => False
  end ->
  fieldEntities (notifyObservers st prevStore namePathList info) = fieldEntities st.
Proof.
  intros Hinfo. rewrite notifyObservers_fields.
  destruct (subscribable (config st)); [|done].
  rewrite broadcast_fst. rewrite <- (map_id (fieldEntities st)) at 2.
  apply map_ext. intros f. by apply onStoreChange_quiet.
Qed.

Lemma notifyObservers_unsubscribed (st : FormStore) prevStore namePathList info :
  subscribable (config st) = false ->
  fieldEntities (notifyObservers st prevStore namePathList info) = fieldEntities st.
Proof. intros H. by rewrite notifyObservers_fields, H. Qed.

Lemma notifyWatch_fields (st : FormStore) namePath :
  fieldEntities (notifyWatch st namePath) = fieldEntities st.
Proof. by destruct (notifyWatch_frame st namePath) as (_ & _ & -> & _). Qed.

Lemma notifyWatch_config (st : FormStore) namePath :
  config (notifyWatch st namePath) = config st.
Proof. by destruct (notifyWatch_frame st namePath) as (-> & _). Qed.

(** *** [validateFields] *)

Lemma containsNamePath_app (l1 l2 : list InternalNamePath) (p : InternalNamePath) :
  containsNamePath (l1 ++ l2) p = containsNamePath l1 p || containsNamePath l2 p.
Proof. apply existsb_app. Qed.

Lemma containsNamePath_In (l : list InternalNamePath) (p : InternalNamePath) :
  containsNamePath l p = true <-> In p l.
Proof.
  unfold containsNamePath, matchNamePath. rewrite existsb_exists. split.
  - intros (q & Hq & ->%bool_decide_eq_true). done.
  - intros H. exists p. split; [done|]. by apply bool_decide_eq_true.
Qed.

(** One round of the loop of [validateFields]: the paths pushed on
    [namePathList] are paths the recursive test lets in, and the rules of the
    field start exactly when [validates] says so. *)
Lemma validateLoopStep_spec (st : FormStore) nameList options
    (acc : ValidateLoop) (more : list InternalNamePath) (field : Field) :
  let initial :=
    match nameList with Some names => map getNamePath names | None => [] end in
  let pushed (p : InternalNamePath) :=
    match nameList with
    | None => True
    | Some names => recursive options && recursiveMatch names p = true
    end in
  vl_namePathList acc = initial ++ more ->
  Forall pushed more ->
  let acc' := validateLoopStep st nameList options acc field in
  (exists more', vl_namePathList acc' = initial ++ more' /\ Forall pushed more')
  /\ vl_effects acc' = vl_effects acc
       ++ (if validates nameList options field
           then snd (fieldValidateRules (store st) field (vl_next acc)
                       (fieldOptions st options))
           else [])
  /\ if validates nameList options field
     then vl_fields acc'
          = vl_fields acc
              ++ [withState field (touched field) true
                    (Some (RootPromise (vl_next acc))) [] []]
          /\ vl_next acc' = S (vl_next acc)
          /\ vl_promiseList acc' = vl_promiseList acc ++ [vl_next acc]
          /\ vl_jobs acc'
             = vl_jobs acc
                 ++ [JobRootBody (fid field) (vl_next acc) (fieldNamePath field)
                       (getValue (store st) (fieldNamePath field))
                       (fieldOptions st options)]
     else vl_fields acc' = vl_fields acc ++ [field]
          /\ vl_next acc' = vl_next acc
          /\ vl_promiseList acc' = vl_promiseList acc
          /\ vl_jobs acc' = vl_jobs acc.
Proof.
  intros initial pushed Hacc Hmore. unfold validateLoopStep, validates. cbv zeta.
  destruct (bool_decide_reflect (fieldNamePath field = [])) as [Hp|Hp].
  { cbn. rewrite app_nil_r. split; [by exists more|done]. }
  cbn [negb andb].
  set (namePathList :=
         match nameList with
         | Some names =>
             if recursive options && recursiveMatch names (fieldNamePath field)
             then vl_namePathList acc ++ [fieldNamePath field]
             else vl_namePathList acc
         | None => vl_namePathList acc ++ [fieldNamePath field]
         end).
  assert (exists more', namePathList = initial ++ more' /\ Forall pushed more')
    as Hnext.
  { subst namePathList pushed. destruct nameList as [names|].
    - destruct (recursive options && recursiveMatch names (fieldNamePath field))
        eqn:E.
      + exists (more ++ [fieldNamePath field]). rewrite Hacc, app_assoc.
        split; [done|]. apply Forall_app. split; [done|]. by constructor.
      + by exists more.
    - exists (more ++ [fieldNamePath field]). rewrite Hacc, app_assoc.
      split; [done|]. apply Forall_app. split; [done|]. by constructor. }
  destruct (rules (props field)) as [|r rs] eqn:Hrules.
  { cbn. rewrite app_nil_r. split; [exact Hnext|done]. }
  rewrite (bool_decide_eq_false_2 (r :: rs = [])) by done. cbn [negb andb].
  assert ((bool_decide (nameList = None)
           || containsNamePath namePathList (fieldNamePath field))
          = match nameList with
            | None => true
            | Some names =>
                containsNamePath (map getNamePath names) (fieldNamePath field)
                || (recursive options
                    && recursiveMatch names (fieldNamePath field))
            end) as ->.
  { subst namePathList. destruct nameList as [names|]; [|done].
    rewrite (bool_decide_eq_false_2 (Some names = None)) by done. cbn [orb].
    subst initial. rewrite Hacc.
    destruct (recursive options && recursiveMatch names (fieldNamePath field))
      eqn:E.
    - rewrite orb_true_r. apply containsNamePath_In, in_or_app. right. by left.
    - rewrite orb_false_r, containsNamePath_app.
      destruct (containsNamePath more (fieldNamePath field)) eqn:Em;
        [|by rewrite orb_false_r].
      apply containsNamePath_In in Em.
      rewrite List.Forall_forall in Hmore. specialize (Hmore _ Em).
      subst pushed. cbn in Hmore. congruence. }
  destruct (match nameList with
            | Some names => _
            | None => true
            end).
  - cbn. split; [exact Hnext|done].
  - cbn. rewrite app_nil_r. split; [exact Hnext|done].
Qed.

(** The field [validateFields] leaves in place of a field whose rules it
    starts, [root] being the [rootPromise] of the run. *)
Lemma validateLoop_spec (st : FormStore) nameList options (fields : list Field) :
  let initial :=
    match nameList with Some names => map getNamePath names | None => [] end in
  let pushed (p : InternalNamePath) :=
    match nameList with
    | None => True
    | Some names => recursive options && recursiveMatch names p = true
    end in
  forall (acc : ValidateLoop) (more : list InternalNamePath),
    vl_namePathList acc = initial ++ more ->
    Forall pushed more ->
    let loop := foldl (validateLoopStep st nameList options) acc fields in
    exists fields',
      vl_fields loop = vl_fields acc ++ fields'
      /\ Forall2 (fun f f' =>
                    if validates nameList options f
                    then exists root,
                        vl_next acc <= root < vl_next loop
                        /\ f' = withState f (touched f) true
                                  (Some (RootPromise root)) [] []
                    else f' = f) fields fields'
      /\ vl_next acc <= vl_next loop
      /\ length (vl_jobs loop)
         = length (vl_jobs acc)
           + length (List.filter (validates nameList options) fields)
      /\ length (vl_promiseList loop)
         = length (vl_promiseList acc)
           + length (List.filter (validates nameList options) fields).
Proof.
  intros initial pushed. induction fields as [|f fields IH]; intros acc more Hacc Hmore.
  - cbn. exists []. rewrite app_nil_r. repeat split; try done; try constructor; lia.
  - cbn [foldl].
    destruct (validateLoopStep_spec st nameList options acc more f Hacc Hmore)
      as ((more' & Hacc' & Hmore') & _ & Hstep).
    destruct (IH _ more' Hacc' Hmore') as (fields' & Hfields & Hall & Hnext & Hjobs & Hproms).
    cbn [List.filter].
    destruct (validates nameList options f) eqn:Hv.
    + destruct Hstep as (Hf & Hn & Hp & Hj).
      exists (withState f (touched f) true (Some (RootPromise (vl_next acc))) [] []
              :: fields').
      rewrite Hfields, Hf, <- app_assoc. split; [done|]. split; [|split; [|split]].
      * constructor.
        -- rewrite Hv. exists (vl_next acc). split; [lia|done].
        -- eapply Forall2_impl; [exact Hall|]. intros g g'. cbv beta.
           destruct (validates nameList options g); [|done].
           intros (root & Hr & ->). exists root. split; [lia|done].
      * lia.
      * rewrite Hjobs, Hj, length_app. cbn [length]. lia.
      * rewrite Hproms, Hp, length_app. cbn [length]. lia.
    + destruct Hstep as (Hf & Hn & Hp & Hj).
      exists (f :: fields').
      rewrite Hfields, Hf, <- app_assoc. split; [done|]. split; [|split; [|split]].
      * constructor.
        -- by rewrite Hv.
        -- eapply Forall2_impl; [exact Hall|]. intros g g'. cbv beta.
           destruct (validates nameList options g); [|done].
           intros (root & Hr & ->). exists root. split; [lia|done].
      * lia.
      * rewrite Hjobs, Hj. lia.
      * rewrite Hproms, Hp. lia.
Qed.

Lemma validateFields_fields (st : FormStore) nameList options :
  let st' := validateFields st nameList options in
  Forall2 (fun f f' =>
             if validates nameList options f
             then exists root,
                 nextPromise st <= root < nextPromise st'
                 /\ f' = withState f (touched f) true (Some (RootPromise root)) [] []
             else f' = f)
          (fieldEntities st) (fieldEntities st')
  /\ length (jobs st')
     = length (jobs st)
       + length (List.filter (validates nameList options) (fieldEntities st)).
Proof.
  cbv zeta. unfold validateFields. cbn [fieldEntities jobs nextPromise].
  destruct (validateLoop_spec st nameList options (fieldEntities st)
              {| vl_namePathList :=
                   match nameList with
                   | Some names => map getNamePath names
                   | None => []
                   end;
                 vl_fields := []; vl_promiseList := [];
                 vl_next := nextPromise st; vl_jobs := jobs st;
                 vl_effects := [] |} [])
    as (fields' & Hfields & Hall & Hnext & Hjobs & _).
  { cbn. by rewrite app_nil_r. }
  { constructor. }
  cbn [vl_fields vl_next vl_jobs app] in *. rewrite Hfields. split; [|exact Hjobs].
  eapply Forall2_impl; [exact Hall|]. intros g g'. cbv beta.
  destruct (validates nameList options g); [|done].
  intros (root & Hr & ->). exists root. split; [lia|done].
Qed.

Lemma Forall2_entities (R : Field -> Field -> Prop) (l l' : list Field) :
  (forall f f', R f f' -> entityOf f' = entityOf f) ->
  Forall2 R l l' -> map entityOf l' = map entityOf l.
Proof.
  intros HR. induction 1 as [|f f' l l' Hf _ IH]; [done|].
  cbn [map]. by rewrite IH, (HR _ _ Hf).
Qed.

Lemma validateFields_entities (st : FormStore) nameList options :
  map entityOf (fieldEntities (validateFields st nameList options))
  = map entityOf (fieldEntities st).
Proof.
  destruct (validateFields_fields st nameList options) as (H & _).
  eapply Forall2_entities; [|exact H]. intros f f'. cbv beta.
  destruct (validates nameList options f); [|by intros ->].
  by intros (root & _ & ->).
Qed.

Lemma onEntity_entities (field : nat) (method : Field -> Field * list Effect)
    (fields : list Field) :
  (forall f, entityOf (fst (method f)) = entityOf f) ->
  map entityOf (fst (onEntity field method fields)) = map entityOf fields.
Proof.
  intros H. unfold onEntity. cbn [fst]. rewrite !map_map. apply map_ext.
  intros f. destruct (Nat.eqb (fid f) field); [apply H|done].
Qed.

Lemma ruleReaction_entity (root : nat) (ruleErrors : list RuleError) (f : Field) :
  entityOf (fst (ruleReaction root ruleErrors f)) = entityOf f.
Proof. unfold ruleReaction. by case_match. Qed.

Lemma triggerOnFieldsChange_fields (st : FormStore) namePathList filedErrors :
  fieldEntities (triggerOnFieldsChange st namePathList filedErrors)
  = fieldEntities st.
Proof. unfold triggerOnFieldsChange. by case_match. Qed.

Lemma triggerOnFieldsChange_config (st : FormStore) namePathList filedErrors :
  config (triggerOnFieldsChange st namePathList filedErrors) = config st.
Proof. unfold triggerOnFieldsChange. by case_match. Qed.

Lemma triggerOnFieldsChange_store (st : FormStore) namePathList filedErrors :
  store (triggerOnFieldsChange st namePathList filedErrors) = store st.
Proof. unfold triggerOnFieldsChange. by case_match. Qed.

Lemma runJob_entities (st : FormStore) (job : Job) (completion : list nat) :
  map entityOf (fieldEntities (runJob st job completion))
  = map entityOf (fieldEntities st).
Proof.
  destruct job; cbn [runJob].
  - repeat case_match; reflexivity.
  - destruct (onEntity _ _ _) as [fields fx] eqn:E. cbn.
    change fields with (fst (fields, fx)). rewrite <- E.
    apply onEntity_entities. intros f. apply ruleReaction_entity.
  - by rewrite triggerOnFieldsChange_fields, notifyObservers_entities.
  - by case_match.
  - reflexivity.
Qed.

Lemma runJob_config (st : FormStore) (job : Job) (completion : list nat) :
  config (runJob st job completion) = config st.
Proof.
  destruct job; cbn [runJob].
  - repeat case_match; reflexivity.
  - by destruct (onEntity _ _ _).
  - by rewrite triggerOnFieldsChange_config, notifyObservers_config.
  - by case_match.
  - reflexivity.
Qed.

Lemma settleSummary_fields (st : FormStore) summary outcome :
  fieldEntities (settleSummary st summary outcome) = fieldEntities st
  /\ config (settleSummary st summary outcome) = config st
  /\ store (settleSummary st summary outcome) = store st.
Proof. unfold settleSummary. repeat case_match; done. Qed.

Lemma triggerDependenciesUpdate_entities (st : FormStore) prevStore namePath :
  map entityOf (fieldEntities (fst (triggerDependenciesUpdate st prevStore namePath)))
  = map entityOf (fieldEntities st).
Proof.
  unfold triggerDependenciesUpdate. cbn [fst]. rewrite notifyObservers_entities.
  destruct (getDependencyChildrenFields st namePath); [done|].
  apply validateFields_entities.
Qed.

Lemma triggerDependenciesUpdate_config (st : FormStore) prevStore namePath :
  config (fst (triggerDependenciesUpdate st prevStore namePath)) = config st.
Proof.
  unfold triggerDependenciesUpdate. cbn [fst]. rewrite notifyObservers_config.
  destruct (getDependencyChildrenFields st namePath); [done|].
  apply validateFields_config.
Qed.

Lemma updateValue_entities (st : FormStore) name value :
  map entityOf (fieldEntities (updateValue st name value))
  = map entityOf (fieldEntities st).
Proof.
  unfold updateValue. cbv zeta.
  destruct (triggerDependenciesUpdate _ _ _) as [st1 childrenFields] eqn:E.
  rewrite triggerOnFieldsChange_fields.
  assert (map entityOf (fieldEntities st1) = map entityOf (fieldEntities st)) as H.
  { change st1 with (fst (st1, childrenFields)). rewrite <- E.
    rewrite triggerDependenciesUpdate_entities, notifyWatch_fields.
    by rewrite notifyObservers_entities. }
  by destruct (onValuesChange (callbacks (config st1))).
Qed.

Lemma updateValue_config (st : FormStore) name value :
  config (updateValue st name value) = config st.
Proof.
  unfold updateValue. cbv zeta.
  destruct (triggerDependenciesUpdate _ _ _) as [st1 childrenFields] eqn:E.
  rewrite triggerOnFieldsChange_config.
  assert (config st1 = config st) as H.
  { change st1 with (fst (st1, childrenFields)). rewrite <- E.
    rewrite triggerDependenciesUpdate_config, notifyWatch_config.
    by rewrite notifyObservers_config. }
  by destruct (onValuesChange (callbacks (config st1))).
Qed.

Lemma setFields_entities (st : FormStore) (fields : list FieldData) :
  map entityOf (fieldEntities (setFields st fields)) = map entityOf (fieldEntities st).
Proof.
  unfold setFields. rewrite notifyWatch_fields.
  generalize (store st). intros prevStore. revert st.
  induction fields as [|data fields IH]; intros st; [done|].
  cbn [foldl]. rewrite IH, notifyObservers_entities. by case_match.
Qed.

Lemma setFields_config (st : FormStore) (fields : list FieldData) :
  config (setFields st fields) = config st.
Proof.
  unfold setFields. rewrite notifyWatch_config.
  generalize (store st). intros prevStore. revert st.
  induction fields as [|data fields IH]; intros st; [done|].
  cbn [foldl]. rewrite IH, notifyObservers_config. by case_match.
Qed.

Lemma resetFields_entities (st : FormStore) nameList :
  map entityOf (fieldEntities (resetFields st nameList))
  = map entityOf (fieldEntities st).
Proof.
  unfold resetFields. destruct nameList as [names|].
  - rewrite notifyWatch_fields, notifyObservers_entities,
      resetWithFieldInitialValue_fields.
    generalize (map getNamePath names). intros l. revert st.
    induction l as [|p l IH]; intros st; [done|]. cbn [foldl]. by rewrite IH.
  - by rewrite notifyWatch_fields, notifyObservers_entities,
      resetWithFieldInitialValue_fields.
Qed.

Lemma resetFields_config (st : FormStore) nameList :
  config (resetFields st nameList) = config st.
Proof.
  unfold resetFields. destruct nameList as [names|].
  - rewrite notifyWatch_config, notifyObservers_config,
      resetWithFieldInitialValue_config.
    generalize (map getNamePath names). intros l. revert st.
    induction l as [|p l IH]; intros st; [done|]. cbn [foldl]. by rewrite IH.
  - by rewrite notifyWatch_config, notifyObservers_config,
      resetWithFieldInitialValue_config.
Qed.

Lemma setFieldsValue_entities (st : FormStore) newStore :
  map entityOf (fieldEntities (setFieldsValue st newStore))
  = map entityOf (fieldEntities st).
Proof.
  unfold setFieldsValue. rewrite notifyWatch_fields, notifyObservers_entities.
  by destruct newStore.
Qed.

Lemma setFieldsValue_config (st : FormStore) newStore :
  config (setFieldsValue st newStore) = config st.
Proof.
  unfold setFieldsValue. rewrite notifyWatch_config, notifyObservers_config.
  by destruct newStore.
Qed.

Lemma triggerChange_entities (st : FormStore) field newValue :
  map entityOf (fieldEntities (triggerChange st field newValue))
  = map entityOf (fieldEntities st).
Proof.
  unfold triggerChange. destruct (List.find _ _) as [f|]; [|done].
  destruct (onEntity _ _ _) as [fields fx] eqn:E. cbn [dispatch].
  rewrite updateValue_entities. cbn.
  change fields with (fst (fields, fx)). rewrite <- E.
  by apply onEntity_entities.
Qed.

Lemma triggerChange_config (st : FormStore) field newValue :
  config (triggerChange st field newValue) = config st.
Proof.
  unfold triggerChange. destruct (List.find _ _) as [f|]; [|done].
  destruct (onEntity _ _ _) as [fields fx]. cbn [dispatch].
  by rewrite updateValue_config.
Qed.

Lemma registerField_fields (st : FormStore) (entity : Field) :
  fieldEntities (registerField st entity) = fieldEntities st ++ [entity].
Proof.
  unfold registerField. destruct (isDefined (initialValue (props entity))).
  - rewrite notifyObservers_quiet by done.
    by rewrite resetWithFieldInitialValue_fields, notifyWatch_fields.
  - by rewrite notifyWatch_fields.
Qed.

Lemma registerField_config (st : FormStore) (entity : Field) :
  config (registerField st entity) = config st.
Proof.
  unfold registerField. destruct (isDefined (initialValue (props entity))).
  - by rewrite notifyObservers_config, resetWithFieldInitialValue_config,
      notifyWatch_config.
  - by rewrite notifyWatch_config.
Qed.

Lemma initEntityValue_frame (st : FormStore) (entity : Field) :
  fieldEntities (initEntityValue st entity) = fieldEntities st
  /\ config (initEntityValue st entity) = config st.
Proof. unfold initEntityValue. by repeat case_match. Qed.

Lemma unregisterField_entities (st : FormStore) entity isListField preserve sub :
  map entityOf (fieldEntities (unregisterField st entity isListField preserve sub))
  = map entityOf
      (List.filter (fun item => negb (Nat.eqb (fid item) (fid entity)))
                   (fieldEntities st)).
Proof.
  unfold unregisterField. cbv zeta. rewrite notifyWatch_fields.
  repeat case_match; try reflexivity;
    rewrite triggerDependenciesUpdate_entities, notifyObservers_entities;
    reflexivity.
Qed.

Lemma unregisterField_config (st : FormStore) entity isListField preserve sub :
  config (unregisterField st entity isListField preserve sub) = config st.
Proof.
  unfold unregisterField. cbv zeta. rewrite notifyWatch_config.
  repeat case_match; try reflexivity;
    rewrite triggerDependenciesUpdate_config, notifyObservers_config;
    reflexivity.
Qed.

Lemma step_config (st : FormStore) (ev : Event) : config (step st ev) = config st.
Proof.
  destruct ev; cbn [step].
  - apply validateFields_config.
  - apply setFields_config.
  - apply setFields_config.
  - apply setFieldsValue_config.
  - apply resetFields_config.
  - destruct action; cbn [dispatch];
      [apply updateValue_config|apply validateFields_config].
  - apply triggerChange_config.
  - rewrite registerField_config. apply initEntityValue_frame.
  - case_match; [|done]. apply unregisterField_config.
  - apply settleSummary_fields.
  - case_match; [|done]. by rewrite runJob_config.
Qed.

Lemma run_config (st : FormStore) (events : list Event) :
  config (run st events) = config st.
Proof.
  unfold run. revert st. induction events as [|ev events IH]; intros st; [done|].
  cbn [foldl]. by rewrite IH, step_config.
Qed.

Lemma step_entities (st : FormStore) (ev : Event) :
  isRegistration ev = false ->
  map entityOf (fieldEntities (step st ev)) = map entityOf (fieldEntities st).
Proof.
  destruct ev; cbn [step isRegistration]; intros Hev; try discriminate.
  - apply validateFields_entities.
  - apply setFields_entities.
  - apply setFields_entities.
  - apply setFieldsValue_entities.
  - apply resetFields_entities.
  - destruct action; cbn [dispatch];
      [apply updateValue_entities|apply validateFields_entities].
  - apply triggerChange_entities.
  - by destruct (settleSummary_fields st summary outcome) as (-> & _).
  - case_match; [|done]. by rewrite runJob_entities.
Qed.

(** X11: the operations of the store other than the registration and the
    unregistration of an entity leave the registry as it is: the same
    entities, in the same order, with the same props, mounted or not as
    before; only their state changes.  No operation changes what the hooks
    of the form have set. *)
Theorem run_keeps_registry (st : FormStore) (events : list Event) :
  config (run st events) = config st
  /\ (forallb (fun ev => negb (isRegistration ev)) events = true ->
      map entityOf (fieldEntities (run st events)) = map entityOf (fieldEntities st)).
Proof.
  split; [apply run_config|].
  unfold run. revert st. induction events as [|ev events IH]; intros st; [done|].
  cbn [foldl forallb]. intros [Hev Hevents]%andb_true_iff.
  rewrite (IH _ Hevents). apply step_entities. by apply negb_true_iff.
Qed.


(** ** Validation, reset and [setFields] on the fields *)

(** X12: [validateFields(nameList, options)] starts the rules of exactly
    the registered fields that have a path and rules and that it is asked
    about: all of them without [nameList]; with it, those whose path is in
    [nameList] or, when [options.recursive] is set, whose path [nameList]
    read as one path matches.  Such a field is left validating and dirty,
    without errors nor warnings, touched or not as before, and one job for
    its rules enters the queue; every other field is left as it is, and so
    is the store. *)
Theorem validateFields_starts_rules (st : FormStore)
    (nameList : option (list NamePath)) (options : ValidateOptions) :
  let st' := validateFields st nameList options in
  Forall2 (fun f f' =>
             if validates nameList options f
             then entityOf f' = entityOf f
                  /\ touched f' = touched f
                  /\ dirty f' = true
                  /\ isFieldValidating f' = true
                  /\ getErrors f' = []
                  /\ getWarnings f' = []
             else f' = f)
          (fieldEntities st) (fieldEntities st')
  /\ length (jobs st')
     = length (jobs st)
       + length (List.filter (validates nameList options) (fieldEntities st))
  /\ store st' = store st.
Proof.
  cbv zeta. destruct (validateFields_fields st nameList options) as (H & Hjobs).
  split; [|split; [exact Hjobs|reflexivity]].
  eapply Forall2_impl; [exact H|]. intros f f'. cbv beta.
  destruct (validates nameList options f); [|done].
  intros (root & _ & ->). done.
Qed.

Lemma resetFields_prepare (st : FormStore) (l : list InternalNamePath) :
  let st' :=
    foldl (fun st namePath =>
             updateStore st
               (setValue (store st) namePath (getInitialValue st namePath) false))
          st l in
  config st' = config st /\ fieldEntities st' = fieldEntities st.
Proof.
  cbv zeta. revert st. induction l as [|p l IH]; intros st; [done|].
  cbn [foldl]. destruct (IH (updateStore st
                               (setValue (store st) p (getInitialValue st p) false)))
    as (-> & ->). done.
Qed.

Lemma resetFields_fields (st : FormStore) (nameList : option (list NamePath)) :
  fieldEntities (resetFields st nameList)
  = if subscribable (config st)
    then map (fun f =>
                if match nameList with
                   | Some names =>
                       containsNamePath (map getNamePath names) (fieldNamePath f)
                   | None => true
                   end
                then resetState f else f)
             (fieldEntities st)
    else fieldEntities st.
Proof.
  unfold resetFields. cbv zeta. destruct nameList as [names|].
  - rewrite notifyWatch_fields, notifyObservers_fields.
    rewrite resetWithFieldInitialValue_config, resetWithFieldInitialValue_fields.
    destruct (resetFields_prepare st (map getNamePath names)) as (-> & ->).
    destruct (subscribable (config st)); [|done].
    rewrite broadcast_fst. apply map_ext. intros f. by rewrite onStoreChange_reset.
  - rewrite notifyWatch_fields, notifyObservers_fields.
    rewrite resetWithFieldInitialValue_config, resetWithFieldInitialValue_fields.
    cbn [config fieldEntities updateStore].
    destruct (subscribable (config st)); [|done].
    rewrite broadcast_fst. apply map_ext. intros f. by rewrite onStoreChange_reset.
Qed.

(** X13: in subscribe mode [resetFields(nameList)] puts the fields whose
    path is in [nameList] back in the state of a new field (not touched, not
    dirty, not validating, no errors, no warnings) and leaves every other
    field as it is. *)
Theorem resetFields_named_fields (st : FormStore) (names : list NamePath) :
  subscribable (config st) = true ->
  fieldEntities (resetFields st (Some names))
  = map (fun f =>
           if containsNamePath (map getNamePath names) (fieldNamePath f)
           then resetState f else f)
        (fieldEntities st).
Proof. intros H. by rewrite resetFields_fields, H. Qed.

Lemma existsb_none {A} (P : A -> bool) (l : list A) :
  Forall (fun x => P x = false) l -> existsb P l = false.
Proof. induction 1 as [|x l Hx _ IH]; [done|]. cbn. by rewrite Hx, IH. Qed.

(** X14: in subscribe mode, after [resetFields()] no field is touched,
    dirty or validating and none has errors or warnings, so that
    [isFieldsTouched()] and [isFieldsValidating()] are false and every
    entry of [getFieldsError()] is empty; and the rules of a validation
    that was on its way cannot write their result any more: the reaction of
    whatever run of rules leaves the fields as the reset left them. *)
Theorem resetFields_clears_every_field (st : FormStore) :
  subscribable (config st) = true ->
  let st' := resetFields st None in
  fieldEntities st' = map resetState (fieldEntities st)
  /\ isFieldsTouched st' TouchedNoArgs = false
  /\ isFieldsValidating st' None = false
  /\ Forall (fun e => fe_errors e = [] /\ fe_warnings e = [])
            (getFieldsError st' None)
  /\ forall field root ruleErrors completion,
       fieldEntities (runJob st' (JobRuleReaction field root ruleErrors) completion)
       = fieldEntities st'.
Proof.
  intros Hsub. cbv zeta.
  assert (fieldEntities (resetFields st None) = map resetState (fieldEntities st))
    as Hfields by (by rewrite resetFields_fields, Hsub).
  split; [exact Hfields|]. split; [|split; [|split]].
  - unfold isFieldsTouched, getFieldEntities. cbv iota beta. rewrite Hfields.
    apply existsb_none, Forall_filter_bool, List.Forall_forall.
    by intros f (g & <- & _)%in_map_iff.
  - unfold isFieldsValidating, getFieldEntities. rewrite Hfields.
    apply existsb_none, List.Forall_forall.
    by intros f (g & <- & _)%in_map_iff.
  - rewrite getFieldsError_all. unfold getFieldEntities. rewrite Hfields.
    apply List.Forall_forall. intros e (f & <- & Hf)%in_map_iff.
    apply filter_In in Hf as [Hf _].
    by apply in_map_iff in Hf as (g & <- & _).
  - intros field root ruleErrors completion.
    rewrite runJob_ruleReaction_fields, Hfields.
    rewrite <- (map_id (map resetState (fieldEntities st))) at 2.
    apply map_ext_in. intros f (g & <- & _)%in_map_iff.
    destruct (Nat.eqb (fid (resetState g)) field); [|done].
    by rewrite ruleReaction_stale.
Qed.

(** X15: in a store that is not in subscribe mode, [resetFields],
    [setFields] and [setFieldsValue] reach no field: whatever they do to the
    store, every field keeps its state, touched, errors and a validation on
    its way included. *)
Theorem unsubscribed_store_keeps_field_state (st : FormStore)
    (nameList : option (list NamePath)) (fields : list FieldData)
    (newStore : option Store) :
  subscribable (config st) = false ->
  fieldEntities (resetFields st nameList) = fieldEntities st
  /\ fieldEntities (setFields st fields) = fieldEntities st
  /\ fieldEntities (setFieldsValue st newStore) = fieldEntities st.
Proof.
  intros Hsub. split; [|split].
  - by rewrite resetFields_fields, Hsub.
  - unfold setFields. rewrite notifyWatch_fields.
    generalize (store st). intros prevStore. revert st Hsub.
    induction fields as [|data fields IH]; intros st Hsub; [done|].
    cbn [foldl]. rewrite IH.
    + rewrite notifyObservers_unsubscribed; by case_match.
    + rewrite notifyObservers_config. by case_match.
  - unfold setFieldsValue. rewrite notifyWatch_fields.
    rewrite notifyObservers_unsubscribed; by case_match.
Qed.

(** *** [setFields] and the errors of a field *)

Lemma setFields_one_fields (st : FormStore) (data : FieldData) :
  subscribable (config st) = true ->
  fieldEntities (setFields st [data])
  = map (fun f =>
           if bool_decide (fieldNamePath f = getNamePath (fd_name data))
           then applyFieldData f data else f)
        (fieldEntities st).
Proof.
  intros Hsub. unfold setFields. cbn [foldl]. rewrite notifyWatch_fields.
  rewrite notifyObservers_fields.
  assert (forall s : FormStore,
             config (match fd_value data with
                     | Some value =>
                         updateStore st
                           (setValue (store st) (getNamePath (fd_name data)) value false)
                     | None => st
                     end) = config st) as Hc by (intros _; by case_match).
  rewrite (Hc st), Hsub. rewrite broadcast_fst.
  assert (fieldEntities (match fd_value data with
                         | Some value =>
                             updateStore st
                               (setValue (store st) (getNamePath (fd_name data))
                                  value false)
                         | None => st
                         end) = fieldEntities st) as -> by (by case_match).
  apply map_ext. intros f. rewrite onStoreChange_setField.
  unfold containsNamePath, matchNamePath. cbn [existsb]. rewrite orb_false_r.
  destruct (bool_decide_reflect (getNamePath (fd_name data) = fieldNamePath f))
    as [H|H].
  - by rewrite bool_decide_eq_true_2.
  - by rewrite bool_decide_eq_false_2.
Qed.

Lemma last_map {A B} (g : A -> B) (l : list A) : last (map g l) = g <$> last l.
Proof.
  induction l as [|x l IH]; [done|]. cbn [map]. rewrite !last_cons, IH.
  by destruct (last l).
Qed.

Lemma filter_map_same {A} (g : A -> A) (Q : A -> bool) (l : list A) :
  (forall x, Q (g x) = Q x) ->
  List.filter Q (map g l) = map g (List.filter Q l).
Proof.
  intros Hg. induction l as [|x l IH]; [done|]. cbn [map List.filter].
  rewrite Hg, IH. by destruct (Q x).
Qed.

(** The map of the named fields when the registry changes state only. *)
Lemma getFieldsMap_map (st st' : FormStore) (g : Field -> Field)
    (p : InternalNamePath) :
  (forall f, fieldNamePath (g f) = fieldNamePath f) ->
  fieldEntities st' = map g (fieldEntities st) ->
  getFieldsMap st' true !! p = g <$> getFieldsMap st true !! p.
Proof.
  intros Hg Hfields. unfold getFieldsMap, getFieldEntities. cbv iota.
  rewrite !fieldsMap_lookup, Hfields.
  rewrite (filter_map_same g) by (intros x; by rewrite Hg).
  rewrite (filter_map_same g) by (intros x; by rewrite Hg).
  rewrite last_map.
  destruct (last _); [done|]. by rewrite !lookup_empty.
Qed.

(** X16: in subscribe mode, what [setFields] sets is what the queries
    return: after [setFields([{ name, errors, warnings }])] on a name under
    which a field is registered, [getFieldError(name)] and
    [getFieldWarning(name)] are the errors and the warnings given (the ones
    of the field where the record has none), and the answers for every other
    name are as before. *)
Theorem setFields_then_getFieldError
    (st : FormStore) (data : FieldData) (pre post : list Field) (f : Field) :
  let name := fd_name data in
  let st' := setFields st [data] in
  subscribable (config st) = true ->
  fieldEntities st = pre ++ f :: post ->
  fieldNamePath f = getNamePath name ->
  getNamePath name <> [] ->
  Forall (fun g => fieldNamePath g <> getNamePath name) post ->
  getFieldError st' name = default (getErrors f) (fd_errors data)
  /\ getFieldWarning st' name = default (getWarnings f) (fd_warnings data)
  /\ forall other,
       getNamePath other <> getNamePath name ->
       getFieldError st' other = getFieldError st other
       /\ getFieldWarning st' other = getFieldWarning st other.
Proof.
  intros name st' Hsub Hreg Hpath Hne Hpost. subst name st'.
  pose proof (setFields_one_fields st data Hsub) as Hfields.
  set (g := fun f : Field =>
              if bool_decide (fieldNamePath f = getNamePath (fd_name data))
              then applyFieldData f data else f) in Hfields.
  assert (forall f, fieldNamePath (g f) = fieldNamePath f) as Hg.
  { intros x. subst g. cbv beta. by case_match. }
  assert (forall p, getFieldsMap (setFields st [data]) true !! p
                    = g <$> getFieldsMap st true !! p) as Hmap.
  { intros p. by apply getFieldsMap_map. }
  rewrite <- Hpath in Hne, Hpost.
  pose proof (getFieldsMap_last st pre post f Hreg Hne Hpost) as E.
  split; [|split].
  - unfold getFieldError. rewrite getFieldsError_named. cbn [map getNamePath].
    rewrite Hmap, <- Hpath, E. cbn. subst g. cbv beta.
    by rewrite bool_decide_eq_true_2.
  - unfold getFieldWarning. rewrite getFieldsError_named. cbn [map getNamePath].
    rewrite Hmap, <- Hpath, E. cbn. subst g. cbv beta.
    by rewrite bool_decide_eq_true_2.
  - intros other Hother. unfold getFieldError, getFieldWarning.
    rewrite !getFieldsError_named. cbn [map getNamePath]. rewrite Hmap.
    destruct (getFieldsMap st true !! getNamePath other) as [h|] eqn:Eh; [|done].
    apply getFieldsMap_found in Eh as [Hh _]. cbn. subst g. cbv beta.
    rewrite bool_decide_eq_false_2; [done|]. congruence.
Qed.


(** ** Registration *)

Lemma isMergedPreserve_config (st st' : FormStore) preserve :
  config st' = config st -> isMergedPreserve st' preserve = isMergedPreserve st preserve.
Proof. unfold isMergedPreserve. by intros ->. Qed.

Lemma unregisterField_quiet (st : FormStore) entity isListField preserve sub :
  isMergedPreserve st preserve = true
  \/ (isListField = true /\ length sub <= 1)
  \/ (exists other, In other (fieldEntities st)
                    /\ fid other <> fid entity
                    /\ fieldNamePath other = fieldNamePath entity) ->
  unregisterField st entity isListField preserve sub
  = notifyWatch
      (setFieldEntities st
         (List.filter (fun item => negb (Nat.eqb (fid item) (fid entity)))
                      (fieldEntities st)))
      [fieldNamePath entity].
Proof.
  intros H. unfold unregisterField. cbv zeta. f_equal.
  rewrite (isMergedPreserve_config st) by done.
  destruct H as [H|[[-> H]|(other & Hin & Hid & Hpath)]].
  - by rewrite H.
  - destruct (isMergedPreserve st preserve); [done|]. cbn [negb andb orb].
    by rewrite (proj2 (Nat.ltb_ge 1 (length sub))).
  - match goal with |- (if ?c then _ else _) = _ => destruct c; [|done] end.
    match goal with
    | |- (if ?a && ?b && ?c then _ else _) = _ =>
        assert (c = false) as ->; [|by rewrite andb_false_r]
    end.
    apply not_true_iff_false. rewrite forallb_forall. intros Hall.
    cbn [fieldEntities setFieldEntities] in Hall.
    specialize (Hall other). unfold matchNamePath in Hall.
    rewrite Hpath, bool_decide_eq_true_2 in Hall by done.
    assert (true = true -> False) as []; [|done]. intros _.
    assert (negb true = true) as Habs; [|done].
    apply Hall, filter_In. split; [done|].
    apply negb_true_iff, Nat.eqb_neq. done.
Qed.

(** X17: the unregistration of a field removes its entity from the
    registry and no other.  It leaves the store and the promise machinery as
    they are whenever [preserve] is in force for the field (its own
    [preserve], else the one of the form, else [true]), or the field is a
    list field with a one-segment sub-path, or another registered entity has
    the same path. *)
Theorem unregisterField_keeps_value (st : FormStore) (entity : Field)
    (isListField : bool) (preserve : option bool) (subNamePath : InternalNamePath) :
  let st' := unregisterField st entity isListField preserve subNamePath in
  map entityOf (fieldEntities st')
  = map entityOf
      (List.filter (fun item => negb (Nat.eqb (fid item) (fid entity)))
                   (fieldEntities st))
  /\ (isMergedPreserve st preserve = true
      \/ (isListField = true /\ length subNamePath <= 1)
      \/ (exists other, In other (fieldEntities st)
                        /\ fid other <> fid entity
                        /\ fieldNamePath other = fieldNamePath entity) ->
      store st' = store st
      /\ promiseCore st' = promiseCore st
      /\ fieldEntities st'
         = List.filter (fun item => negb (Nat.eqb (fid item) (fid entity)))
                       (fieldEntities st)).
Proof.
  cbv zeta. split; [apply unregisterField_entities|].
  intros H. rewrite (unregisterField_quiet _ _ _ _ _ H).
  by rewrite notifyWatch_store, promiseCore_notifyWatch, notifyWatch_fields.
Qed.

Lemma initEntityValue_defined (st : FormStore) (entity : Field) :
  isDefined (initialValue (props entity)) = true ->
  isDefined (getValue (store (initEntityValue st entity)) (fieldNamePath entity))
  = true.
Proof.
  intros Hinit. unfold initEntityValue. rewrite Hinit.
  destruct (isDefined (getValue (store st) (fieldNamePath entity))) eqn:E;
    cbn [negb store updateStore].
  - exact E.
  - by rewrite getValue_setValue.
Qed.

Lemma registerField_store (st : FormStore) (entity : Field) :
  (isDefined (initialValue (props entity)) = true ->
   isDefined (getValue (store st) (fieldNamePath entity)) = true) ->
  store (registerField st entity) = store st.
Proof.
  intros Hdef. unfold registerField. cbv zeta.
  destruct (isDefined (initialValue (props entity))) eqn:Hinit.
  - rewrite notifyObservers_store. unfold resetWithFieldInitialValue.
    cbn [entities skipExist foldl].
    rewrite (resetWithField_store _ _ _ _ Hinit).
    rewrite notifyWatch_store. cbn [store setFieldEntities].
    rewrite (Hdef eq_refl). cbn [negb orb].
    repeat case_match; reflexivity.
  - by rewrite notifyWatch_store.
Qed.

(** X18: the registration of a field writes the store only to fill a
    slot: when the field declares an [initialValue] and the store has no
    value at its path, the [initialValue] is installed there; a value that is
    there stays.  The entity enters the registry at the end, and the fields
    before it keep their state. *)
Theorem registerField_fills_slot (st : FormStore) (entity : Field) :
  let st' := step st (EvRegisterField entity) in
  let namePath := fieldNamePath entity in
  store st'
  = (if isDefined (initialValue (props entity))
        && negb (isDefined (getValue (store st) namePath))
     then setValue (store st) namePath (initialValue (props entity)) false
     else store st)
  /\ fieldEntities st' = fieldEntities st ++ [entity]
  /\ promiseCore st' = promiseCore st.
Proof.
  cbv zeta. cbn [step]. split; [|split].
  - rewrite registerField_store by apply initEntityValue_defined.
    unfold initEntityValue.
    destruct (isDefined (initialValue (props entity))); [|done].
    by destruct (isDefined (getValue (store st) (fieldNamePath entity))).
  - rewrite registerField_fields. by destruct (initEntityValue_frame st entity) as (-> & _).
  - apply promiseCore_registerField.
Qed.

Lemma registerField_fills_slot_aux (st : FormStore) (entity : Field) :
  let st' := step st (EvRegisterField entity) in
  fieldEntities st' = fieldEntities st ++ [entity]
  /\ promiseCore st' = promiseCore st
  /\ config st' = config st.
Proof.
  cbv zeta. cbn [step]. split; [|split].
  - rewrite registerField_fields. by destruct (initEntityValue_frame st entity) as (-> & _).
  - apply promiseCore_registerField.
  - rewrite registerField_config. apply initEntityValue_frame.
Qed.

Lemma find_fresh (fields : list Field) (entity : Field) :
  Forall (fun g => fid g <> fid entity) fields ->
  List.find (fun f => Nat.eqb (fid f) (fid entity)) (fields ++ [entity])
  = Some entity
  /\ List.filter (fun item => negb (Nat.eqb (fid item) (fid entity)))
                 (fields ++ [entity]) = fields.
Proof.
  induction 1 as [|g fields Hg _ [IH1 IH2]].
  - cbn. by rewrite Nat.eqb_refl.
  - cbn [app List.find List.filter].
    rewrite (proj2 (Nat.eqb_neq _ _) Hg). cbn [negb]. by rewrite IH1, IH2.
Qed.

(** X19: a field that is registered and then unregistered, with
    [preserve] in force, under an identity no registered entity has: the
    registry and the promise machinery are back where they were, and the
    store is as the registration left it. *)
Theorem register_then_cancel (st : FormStore) (entity : Field) :
  Forall (fun g => fid g <> fid entity) (fieldEntities st) ->
  isMergedPreserve st (preserve (props entity)) = true ->
  let st1 := step st (EvRegisterField entity) in
  let st2 := step st1 (EvCancelRegister (fid entity)) in
  fieldEntities st2 = fieldEntities st
  /\ store st2 = store st1
  /\ promiseCore st2 = promiseCore st.
Proof.
  intros Hfresh Hpreserve. cbv zeta.
  destruct (registerField_fills_slot_aux st entity) as (Hfields & Hcore & Hconfig).
  destruct (find_fresh _ _ Hfresh) as (Hfind & Hfilter).
  revert Hfields Hcore Hconfig.
  generalize (step st (EvRegisterField entity)). intros st1 Hfields Hcore Hconfig.
  cbn [step]. rewrite Hfields, Hfind.
  unfold cancelRegister.
  rewrite unregisterField_quiet
    by (left; by rewrite (isMergedPreserve_config st) by exact Hconfig).
  rewrite notifyWatch_fields, notifyWatch_store, promiseCore_notifyWatch.
  cbn [fieldEntities setFieldEntities store]. rewrite Hfields, Hfilter.
  split; [done|]. split; [done|]. exact Hcore.
Qed.


(** ** Value changes *)

Lemma updateValue_store (st : FormStore) name value :
  store (updateValue st name value)
  = setValue (store st) (getNamePath name) value false.
Proof.
  unfold updateValue. cbv zeta.
  destruct (triggerDependenciesUpdate _ _ _) as [st1 childrenFields] eqn:E.
  rewrite triggerOnFieldsChange_store.
  assert (store st1 = setValue (store st) (getNamePath name) value false) as H.
  { change st1 with (fst (st1, childrenFields)). rewrite <- E.
    by rewrite triggerDependenciesUpdate_store, notifyWatch_store,
      notifyObservers_store. }
  by destruct (onValuesChange (callbacks (config st1))).
Qed.

Lemma staysTouched_refl (l : list Field) : Forall2 staysTouched l l.
Proof. induction l; constructor; [by repeat split|done]. Qed.

Lemma staysTouched_trans (l1 l2 l3 : list Field) :
  Forall2 staysTouched l1 l2 -> Forall2 staysTouched l2 l3 ->
  Forall2 staysTouched l1 l3.
Proof.
  intros H. revert l3. induction H as [|f1 f2 l1 l2 Hf _ IH]; intros l3 H23.
  - by inversion H23.
  - inversion H23 as [|? f3 ? l3' Hf' Hl]; subst. constructor; [|by apply IH].
    destruct Hf as (E1 & T1 & D1), Hf' as (E2 & T2 & D2).
    repeat split; [congruence|congruence|auto].
Qed.

Lemma validateFields_staysTouched (st : FormStore) nameList options :
  Forall2 staysTouched (fieldEntities st)
          (fieldEntities (validateFields st nameList options)).
Proof.
  destruct (validateFields_fields st nameList options) as (H & _).
  eapply Forall2_impl; [exact H|]. intros f f'. cbv beta.
  destruct (validates nameList options f).
  - intros (root & _ & ->). by repeat split.
  - intros ->. by repeat split.
Qed.

Lemma triggerDependenciesUpdate_staysTouched (st : FormStore) prevStore namePath :
  Forall2 staysTouched (fieldEntities st)
          (fieldEntities (fst (triggerDependenciesUpdate st prevStore namePath))).
Proof.
  unfold triggerDependenciesUpdate. cbn [fst]. rewrite notifyObservers_quiet by done.
  destruct (getDependencyChildrenFields st namePath);
    [apply staysTouched_refl|apply validateFields_staysTouched].
Qed.

Lemma updateValue_staysTouched (st : FormStore) name value :
  Forall2 staysTouched (fieldEntities st) (fieldEntities (updateValue st name value)).
Proof.
  unfold updateValue. cbv zeta.
  destruct (triggerDependenciesUpdate _ _ _) as [st1 childrenFields] eqn:E.
  rewrite triggerOnFieldsChange_fields.
  assert (Forall2 staysTouched (fieldEntities st) (fieldEntities st1)) as H.
  { change st1 with (fst (st1, childrenFields)). rewrite <- E.
    eapply staysTouched_trans; [|apply triggerDependenciesUpdate_staysTouched].
    rewrite notifyWatch_fields, notifyObservers_quiet by done.
    apply staysTouched_refl. }
  by destruct (onValuesChange (callbacks (config st1))).
Qed.

Lemma Forall2_In_left {A B} (R : A -> B -> Prop) (l : list A) (l' : list B) (x : A) :
  Forall2 R l l' -> In x l -> exists x', In x' l' /\ R x x'.
Proof.
  induction 1 as [|a b l l' Hab _ IH]; [done|]. intros [->|Hin].
  - exists b. split; [by left|done].
  - destruct (IH Hin) as (x' & Hx' & HR). exists x'. split; [by right|done].
Qed.

(** X20: a change made by the user in a registered field (the trigger
    handler of the field) installs the new value at the path of the field
    and leaves the field touched and dirty, whatever the validations and
    notifications the change sets off; if the field has a path,
    [isFieldsTouched()] holds from then on. *)
Theorem triggerChange_touches (st : FormStore) (f : Field) (newValue : StoreValue) :
  List.find (fun g => Nat.eqb (fid g) (fid f)) (fieldEntities st) = Some f ->
  let st' := triggerChange st (fid f) newValue in
  store st' = setValue (store st) (fieldNamePath f) newValue false
  /\ (exists f', In f' (fieldEntities st')
                 /\ entityOf f' = entityOf f
                 /\ touched f' = true /\ dirty f' = true)
  /\ (fieldNamePath f <> [] -> isFieldsTouched st' TouchedNoArgs = true).
Proof.
  intros Hfind. cbv zeta. unfold triggerChange. rewrite Hfind.
  destruct (onEntity _ _ _) as [fields fx] eqn:E. cbn [dispatch].
  assert (In (withState f true true (validatePromise f) (getErrors f) (getWarnings f))
             fields) as Hin.
  { change fields with (fst (fields, fx)). rewrite <- E. unfold onEntity. cbn [fst].
    rewrite map_map. apply in_map_iff. exists f.
    apply find_some in Hfind as [Hreg Hid]. rewrite Hid. done. }
  pose proof (updateValue_staysTouched (emit (setFieldEntities st fields) fx)
                (NameList (fieldNamePath f)) newValue) as Hall.
  cbn [fieldEntities emit setFieldEntities] in Hall.
  destruct (Forall2_In_left _ _ _ _ Hall Hin) as (f' & Hf' & He & Ht & Hd).
  cbn [touched dirty withState] in Ht, Hd.
  assert (entityOf f' = entityOf f) as He' by (by rewrite He).
  split; [|split].
  - by rewrite updateValue_store.
  - exists f'. repeat split; [done|done|done|by apply Hd].
  - intros Hpath. unfold isFieldsTouched. cbv iota beta.
    apply existsb_exists. exists f'. split; [|done].
    unfold getFieldEntities. apply filter_In. split; [done|].
    apply negb_true_iff, bool_decide_eq_false. unfold fieldNamePath in *.
    unfold entityOf in He'. injection He' as _ -> _. done.
Qed.

(** *** A change nothing depends on *)

Lemma dependencies_none (field : Field) (deps : list NamePath)
    (cache : gmap InternalNamePath (list Field)) (p : InternalNamePath) :
  cache !! p = None ->
  ~ In p (map getNamePath deps) ->
  foldl (fun cache dependency =>
           partial_alter (fun fields => Some (addField field (default [] fields)))
                         (getNamePath dependency) cache) cache deps !! p = None.
Proof.
  revert cache. induction deps as [|d deps IH]; intros cache Hc Hnin; [done|].
  cbn [foldl]. apply IH.
  - rewrite lookup_partial_alter_ne; [done|]. intros E. apply Hnin. by left.
  - intros H. apply Hnin. by right.
Qed.

Lemma dependencies2fields_none (st : FormStore) (p : InternalNamePath) :
  Forall (fun f => declaresDependency f p = false) (fieldEntities st) ->
  dependencies2fields st !! p = None.
Proof.
  unfold dependencies2fields, getFieldEntities.
  assert ((∅ : gmap InternalNamePath (list Field)) !! p = None) as H0
    by apply lookup_empty.
  revert H0. generalize (∅ : gmap InternalNamePath (list Field)).
  induction (fieldEntities st) as [|f fields IH]; intros cache Hc Hall; [done|].
  inversion Hall as [|? ? Hf Hrest]; subst. cbn [foldl]. apply IH; [|done].
  apply dependencies_none; [done|]. intros Hin.
  apply declaresDependency_In in Hin. congruence.
Qed.

Lemma getDependencyChildrenFields_none (st : FormStore) (p : InternalNamePath) :
  Forall (fun f => declaresDependency f p = false) (fieldEntities st) ->
  getDependencyChildrenFields st p = [].
Proof.
  intros H. unfold getDependencyChildrenFields. cbn [fillChildren].
  by rewrite (dependencies2fields_none st p H).
Qed.

(** X21: when no registered field declares a dependency on the path of
    a value, a change of the value starts no validation: [updateValue]
    leaves the promise machinery as it is and changes the state of no
    field. *)
Theorem updateValue_without_dependents (st : FormStore) (name : NamePath)
    (value : StoreValue) :
  Forall (fun f => declaresDependency f (getNamePath name) = false)
         (fieldEntities st) ->
  let st' := updateValue st name value in
  promiseCore st' = promiseCore st
  /\ fieldEntities st' = fieldEntities st
  /\ notifications (skipn (length (log st)) (log st'))
     = [(Some [getNamePath name], ValueUpdateInfo SourceInternal);
        (Some [], DependenciesUpdateInfo [getNamePath name])].
Proof.
  intros Hnone. cbv zeta. unfold updateValue. cbv zeta.
  unfold triggerDependenciesUpdate.
  rewrite getDependencyChildrenFields_none;
    [|by rewrite notifyWatch_fields, notifyObservers_quiet].
  set (st1 := notifyObservers
                (notifyWatch
                   (notifyObservers
                      (updateStore st
                         (setValue (store st) (getNamePath name) value false))
                      (store st) (Some [getNamePath name])
                      (ValueUpdateInfo SourceInternal)) [getNamePath name])
                (store st) (Some []) (DependenciesUpdateInfo [getNamePath name])).
  assert (promiseCore st1 = promiseCore st) as Hcore.
  { subst st1. by rewrite promiseCore_notifyObservers, promiseCore_notifyWatch,
      promiseCore_notifyObservers. }
  assert (fieldEntities st1 = fieldEntities st) as Hfields.
  { subst st1. rewrite notifyObservers_quiet, notifyWatch_fields by done.
    by rewrite notifyObservers_quiet. }
  assert (exists fx, log st1 = log st ++ fx
                     /\ notifications fx
                        = [(Some [getNamePath name], ValueUpdateInfo SourceInternal);
                           (Some [], DependenciesUpdateInfo [getNamePath name])])
    as (fx & Hlog & Hfx).
  { subst st1. rewrite notifyObservers_log, notifyWatch_log, notifyObservers_log.
    cbn [log updateStore]. rewrite <- !app_assoc. eexists. split; [reflexivity|].
    rewrite !notifications_app.
    change (FxNotify ?a ?b ?c ?d :: ?l) with ([FxNotify a b c d] ++ l).
    change (FxNotifyWatch ?a :: ?l) with ([FxNotifyWatch a] ++ l).
    rewrite !notifications_app.
    destruct (watch_projections
                (getFieldsValue
                   (notifyObservers
                      (updateStore st
                         (setValue (store st) (getNamePath name) value false))
                      (store st) (Some [getNamePath name])
                      (ValueUpdateInfo SourceInternal)) None None)
                [getNamePath name]
                (watchList (config
                   (notifyObservers
                      (updateStore st
                         (setValue (store st) (getNamePath name) value false))
                      (store st) (Some [getNamePath name])
                      (ValueUpdateInfo SourceInternal))))) as (-> & _).
    assert (forall (s : FormStore) prev l info,
               notifications
                 (if subscribable (config s)
                  then snd (broadcast (fieldEntities s) prev l info (store s))
                  else [FxForceRootUpdate]) = []) as Hb.
    { intros s prev l info. destruct (subscribable (config s)); [|done].
      apply broadcast_projections. }
    rewrite !Hb. reflexivity. }
  cbn [fst snd].
  assert (forall s : FormStore,
             promiseCore (if onValuesChange (callbacks (config st1))
                          then emit st1 [FxOnValuesChange
                                           (cloneByNamePathList (store st1)
                                              [getNamePath name])
                                           (getFieldsValue st1 None None)]
                          else st1) = promiseCore st1) as Hc2
    by (intros _; by case_match).
  split; [|split].
  - by rewrite promiseCore_triggerOnFieldsChange, (Hc2 st), Hcore.
  - rewrite triggerOnFieldsChange_fields. by case_match.
  - unfold triggerOnFieldsChange.
    destruct (onValuesChange (callbacks (config st1)));
      destruct (onFieldsChange (callbacks (config _)));
      cbn [log emit]; rewrite Hlog, <- ?app_assoc, drop_app_length;
      rewrite ?notifications_app, Hfx; reflexivity.
Qed.

(** ** [submit] *)

(** X22: a [submit] that a later call of [validateFields] supersedes
    before it is answered never reaches [onFinish]: if the promise of the
    submit settles at all, it is rejected with [outOfDate] set, and the only
    callback [submit] can call is [onFinishFailed], with that entity. *)
Theorem submit_superseded
    (st : FormStore) (nameList : option (list NamePath)) (options : ValidateOptions)
    (events1 events2 : list Event) (first : nat) :
  let st1 := submit st in
  let st2 := run st1 events1 in
  let st3 := validateFields st2 nameList options in
  let st4 := run st3 events2 in
  lastValidatePromise st1 = Some first ->
  (forall o, ~ In (first, o) (returned st2)) ->
  forall o, In (first, o) (returned st4) ->
    forall (later : FormStore) (call : SubmitCall),
      In call (submitReaction later o) ->
      exists e, call = OnFinishFailed e /\ outOfDate e = true.
Proof.
  intros st1 st2 st3 st4 Hfirst Hpending o Ho later call Hcall.
  assert (Hsup : superseded st3 first).
  { destruct (validateFields_last st None
                {| triggerName := None; validateMessages := None;
                   recursive := false |}) as (s & Hs & _ & Hn & _).
    change (validateFields st None _) with st1 in Hs, Hn.
    assert (s = first) as -> by congruence.
    destruct (validateFields_last st2 nameList options) as (s2 & Hs2 & Hle & Hn2 & _).
    fold st3 in Hs2, Hn2. pose proof (run_nextPromise st1 events1) as Hmono.
    fold st2 in Hmono. split; [lia|]. rewrite Hs2. intros [= ->]. lia. }
  destruct (run_superseded st3 events2 first Hsup o Ho) as [Hin|(e & -> & He)].
  - exfalso. by apply (Hpending o).
  - cbn [submitReaction] in Hcall.
    destruct (onFinishFailed (callbacks (config later))); [|done].
    destruct Hcall as [<-|[]]. by exists e.
Qed.


(** ** A validation from start to end *)

Lemma validateLoopStep_jobs (st : FormStore) nameList options
    (acc : ValidateLoop) (field : Field) :
  forall job, In job (vl_jobs acc) ->
              In job (vl_jobs (validateLoopStep st nameList options acc field)).
Proof.
  intros job Hjob. unfold validateLoopStep, fieldValidateRules. cbv zeta.
  repeat case_match; simplify_eq; cbn [vl_jobs]; try done;
    apply in_or_app; by left.
Qed.

Lemma validateLoop_jobs_mono (st : FormStore) nameList options (fields : list Field) :
  forall acc job,
    In job (vl_jobs acc) ->
    In job (vl_jobs (foldl (validateLoopStep st nameList options) acc fields)).
Proof.
  induction fields as [|f fields IH]; intros acc job Hjob; [done|].
  cbn [foldl]. by apply IH, validateLoopStep_jobs.
Qed.

Lemma validateLoop_jobs (st : FormStore) nameList options (fields : list Field) :
  let initial :=
    match nameList with Some names => map getNamePath names | None => [] end in
  let pushed (p : InternalNamePath) :=
    match nameList with
    | None => True
    | Some names => recursive options && recursiveMatch names p = true
    end in
  forall (acc : ValidateLoop) (more : list InternalNamePath),
    vl_namePathList acc = initial ++ more ->
    Forall pushed more ->
    let loop := foldl (validateLoopStep st nameList options) acc fields in
    exists fields',
      vl_fields loop = vl_fields acc ++ fields'
      /\ Forall2 (fun f f' =>
                    if validates nameList options f
                    then exists root,
                        vl_next acc <= root < vl_next loop
                        /\ f' = withState f (touched f) true
                               (Some (RootPromise root)) [] []
                        /\ In (JobRootBody (fid f) root (fieldNamePath f)
                                 (getValue (store st) (fieldNamePath f))
                                 (fieldOptions st options))
                              (vl_jobs loop)
                    else f' = f) fields fields'.
Proof.
  intros initial pushed. induction fields as [|f fields IH]; intros acc more Hacc Hmore.
  - cbn. exists []. rewrite app_nil_r. split; [done|constructor].
  - cbn [foldl].
    destruct (validateLoopStep_spec st nameList options acc more f Hacc Hmore)
      as ((more' & Hacc' & Hmore') & _ & Hstep).
    destruct (IH _ more' Hacc' Hmore') as (fields' & Hfields & Hall).
    pose proof (validateLoop_next st nameList options fields
                  (validateLoopStep st nameList options acc f)) as Hmono.
    assert (vl_next acc <= vl_next (validateLoopStep st nameList options acc f))
      as Hle.
    { destruct (validates nameList options f); destruct Hstep as (_ & -> & _); lia. }
    assert (Forall2 (fun g g' =>
                       if validates nameList options g
                       then exists root,
                           vl_next acc <= root
                             < vl_next (foldl (validateLoopStep st nameList options)
                                          (validateLoopStep st nameList options acc f)
                                          fields)
                           /\ g' = withState g (touched g) true
                                     (Some (RootPromise root)) [] []
                           /\ In (JobRootBody (fid g) root (fieldNamePath g)
                                    (getValue (store st) (fieldNamePath g))
                                    (fieldOptions st options))
                                 (vl_jobs (foldl (validateLoopStep st nameList options)
                                             (validateLoopStep st nameList options acc f)
                                             fields))
                       else g' = g) fields fields') as Hall'.
    { eapply Forall2_impl; [exact Hall|]. intros g g'. cbv beta.
      destruct (validates nameList options g); [|done].
      intros (root & Hr & Hg & Hj). exists root. split; [lia|done]. }
    destruct (validates nameList options f) eqn:Hv.
    + destruct Hstep as (Hf & Hn & Hp & Hj).
      exists (withState f (touched f) true (Some (RootPromise (vl_next acc))) [] []
              :: fields').
      rewrite Hfields, Hf, <- app_assoc. split; [done|].
      constructor; [|exact Hall']. rewrite Hv. exists (vl_next acc).
      split; [lia|]. split; [done|]. apply validateLoop_jobs_mono. rewrite Hj.
      apply in_or_app. right. by left.
    + destruct Hstep as (Hf & Hn & Hp & Hj).
      exists (f :: fields'). rewrite Hfields, Hf, <- app_assoc. split; [done|].
      constructor; [by rewrite Hv|exact Hall'].
Qed.

Lemma find_by_fid (fields : list Field) (f : Field) :
  NoDup (map fid fields) -> In f fields ->
  List.find (fun g => Nat.eqb (fid g) (fid f)) fields = Some f.
Proof.
  induction fields as [|g fields IH]; [done|]. cbn [map List.find].
  intros Hnd [->|Hin].
  - by rewrite Nat.eqb_refl.
  - apply NoDup_cons in Hnd as [Hg Hnd].
    destruct (Nat.eqb_spec (fid g) (fid f)) as [E|E]; [|by apply IH].
    exfalso. apply Hg. rewrite E. apply list_elem_of_In. by apply in_map.
Qed.

Lemma map_fid_entities (l l' : list Field) :
  map entityOf l' = map entityOf l -> map fid l' = map fid l.
Proof.
  intros H.
  assert (forall k : list Field, map fid k = map (fun e => e.1.1) (map entityOf k))
    as E by (intros k; rewrite map_map; by apply map_ext).
  by rewrite !E, H.
Qed.

Lemma runJob_rootBody (st : FormStore) (f : Field) (root : nat)
    (namePath : InternalNamePath) (value : StoreValue) (options : ValidateOptions)
    (completion : list nat) (ruleErrors : list RuleError) :
  List.find (fun g => Nat.eqb (fid g) (fid f)) (fieldEntities st) = Some f ->
  mounted f = true ->
  (let promise :=
     summaryPromise
       (validateRules namePath value (filteredRules f options) options
          (validateFirst (props f)) (messageVariables (props f)) completion) in
   promise = Fulfilled ruleErrors \/ promise = Rejected ruleErrors) ->
  runJob st (JobRootBody (fid f) root namePath value options) completion
  = addJob st (JobRuleReaction (fid f) root ruleErrors).
Proof.
  intros Hfind Hm H. cbv zeta in H. cbn [runJob]. rewrite Hfind, Hm.
  by destruct H as [-> | ->].
Qed.

(** X23: the rules of a registered field, from [validateFields] to the
    errors of the field, the entities being told apart by their identity.
    [validateFields] leaves the field validating under a fresh
    [rootPromise], one drawn from the counter during the call, and a job
    for the body of that promise, and
    [isFieldValidating] holds of its path.  When the job runs
    on the mounted field and the promise of [validateRules] settles,
    fulfilled or rejected, its reaction enters the queue with the rule
    errors; and when the reaction runs, the field stops validating, its
    errors are the messages of the rules that are not [warningOnly] and its
    warnings those of the [warningOnly] rules. *)
Theorem validateFields_to_errors (st : FormStore)
    (nameList : option (list NamePath)) (options : ValidateOptions) (f : Field) :
  NoDup (map fid (fieldEntities st)) ->
  In f (fieldEntities st) ->
  validates nameList options f = true ->
  mounted f = true ->
  let st1 := validateFields st nameList options in
  let namePath := fieldNamePath f in
  let currentValue := getValue (store st) namePath in
  let options' := fieldOptions st options in
  exists root,
    let job := JobRootBody (fid f) root namePath currentValue options' in
    nextPromise st <= root < nextPromise st1
    /\ In job (jobs st1)
    /\ In (withState f (touched f) true (Some (RootPromise root)) [] [])
          (fieldEntities st1)
    /\ FormStore_isFieldValidating st1 (NameList namePath) = true
    /\ forall (completion : list nat) (ruleErrors : list RuleError),
         let promise :=
           summaryPromise
             (validateRules namePath currentValue (filteredRules f options') options'
                (validateFirst (props f)) (messageVariables (props f)) completion) in
         promise = Fulfilled ruleErrors \/ promise = Rejected ruleErrors ->
         let reaction := JobRuleReaction (fid f) root ruleErrors in
         jobs (runJob st1 job completion) = jobs st1 ++ [reaction]
         /\ fieldEntities (runJob st1 job completion) = fieldEntities st1
         /\ In (withState f (touched f) true None
                  (mergedErrors ruleErrors) (mergedWarnings ruleErrors))
               (fieldEntities (runJob (runJob st1 job completion) reaction [])).
Proof.
  intros Hnd Hin Hv Hm. cbv zeta.
  destruct (validateLoop_jobs st nameList options (fieldEntities st)
              {| vl_namePathList :=
                   match nameList with
                   | Some names => map getNamePath names
                   | None => []
                   end;
                 vl_fields := []; vl_promiseList := [];
                 vl_next := nextPromise st; vl_jobs := jobs st;
                 vl_effects := [] |} [])
    as (fields' & Hfields & Hall).
  { cbn. by rewrite app_nil_r. }
  { constructor. }
  cbn [vl_fields app] in Hfields.
  destruct (Forall2_In_left _ _ _ _ Hall Hin) as (f' & Hf' & Hrel).
  rewrite Hv in Hrel. destruct Hrel as (root & Hroot & -> & Hjob).
  cbn [vl_next] in Hroot.
  set (f' := withState f (touched f) true (Some (RootPromise root)) [] []) in *.
  assert (fieldEntities (validateFields st nameList options) = fields') as Hreg.
  { unfold validateFields. cbn [fieldEntities]. exact Hfields. }
  assert (NoDup (map fid fields')) as Hnd'.
  { rewrite <- Hreg, (map_fid_entities _ _ (validateFields_entities st nameList options)).
    exact Hnd. }
  exists root. split; [unfold validateFields; cbn [nextPromise]; lia|].
  split; [exact Hjob|]. split; [by rewrite Hreg|].
  split.
  { unfold FormStore_isFieldValidating, isFieldsValidating, getFieldEntities.
    rewrite Hreg. apply existsb_exists. exists f'. split; [exact Hf'|].
    apply andb_true_iff. split; [|done].
    apply containsNamePath_In. by left. }
  intros completion ruleErrors Hpromise.
  assert (List.find (fun g => Nat.eqb (fid g) (fid f)) fields' = Some f') as Hfind.
  { exact (find_by_fid fields' f' Hnd' Hf'). }
  assert (runJob (validateFields st nameList options)
            (JobRootBody (fid f) root (fieldNamePath f)
               (getValue (store st) (fieldNamePath f)) (fieldOptions st options))
            completion
          = addJob (validateFields st nameList options)
              (JobRuleReaction (fid f) root ruleErrors)) as Hrun.
  { apply (runJob_rootBody (validateFields st nameList options) f' root
             (fieldNamePath f) (getValue (store st) (fieldNamePath f))
             (fieldOptions st options) completion ruleErrors).
    - rewrite Hreg. exact Hfind.
    - exact Hm.
    - exact Hpromise. }
  rewrite Hrun. split; [reflexivity|]. split; [reflexivity|].
  rewrite runJob_ruleReaction_fields. cbn [fieldEntities addJob setJobs].
  rewrite Hreg. apply in_map_iff. exists f'. split; [|exact Hf'].
  cbn [fid f' withState]. rewrite Nat.eqb_refl.
  by rewrite ruleReaction_current.
Qed.

(** ** The dependents of a value that changes *)

Lemma cascade_direct (st : FormStore) (rootNamePath : InternalNamePath) (f : Field) :
  NoDup (map fid (fieldEntities st)) ->
  In f (fieldEntities st) ->
  declaresDependency f rootNamePath = true ->
  cascades st f = true ->
  In (fieldNamePath f) (getDependencyChildrenFields st rootNamePath).
Proof.
  intros Hnd Hin Hdep Hc.
  destruct (fillChildren_total st rootNamePath Hnd (S (length (fieldEntities st)))
              rootNamePath {| children := []; childrenFields := [] |})
    as (acc & Hrun & (Hreg & Hdistinct & Hpaths) & Hsound & new & Hnew & Hclosed & Hmet).
  { pose proof (unvisited_bound st []). cbn [children]. lia. }
  { split; [by intros g []|]. split; [apply NoDup_nil_2|done]. }
  { by intros g []. }
  { by left. }
  unfold getDependencyChildrenFields. rewrite Hrun, Hpaths.
  apply in_map, filter_In. split; [|done]. apply Hmet. by apply dependents_spec.
Qed.

Lemma cascades_config (st st' : FormStore) (f : Field) :
  config st' = config st -> cascades st' f = cascades st f.
Proof.
  intros H. unfold cascades, isFieldDirty. by rewrite (getInitialValue_config _ _ _ H).
Qed.

Lemma map_getNamePath_NameList (l : list InternalNamePath) :
  map getNamePath (map NameList l) = l.
Proof. induction l as [|p l IH]; [done|]. cbn. by rewrite IH. Qed.

Lemma triggerDependenciesUpdate_validates (st : FormStore) prevStore
    (p : InternalNamePath) (child : Field) :
  NoDup (map fid (fieldEntities st)) ->
  In child (fieldEntities st) ->
  declaresDependency child p = true ->
  cascades st child = true ->
  rules (props child) <> [] ->
  let st' := fst (triggerDependenciesUpdate st prevStore p) in
  exists root,
    nextPromise st <= root < nextPromise st'
    /\ In (withState child (touched child) true (Some (RootPromise root)) [] [])
          (fieldEntities st').
Proof.
  intros Hnd Hin Hdep Hcas Hrules. cbv zeta.
  pose proof (cascade_direct st p child Hnd Hin Hdep Hcas) as Hpath.
  unfold triggerDependenciesUpdate. cbn [fst].
  destruct (getDependencyChildrenFields st p) as [|q qs] eqn:E; [done|].
  rewrite notifyObservers_quiet by done.
  destruct (notifyObservers_frame
              (validateFields st (Some (map NameList (q :: qs)))
                 {| triggerName := None; validateMessages := None;
                    recursive := false |})
              prevStore (Some (q :: qs)) (DependenciesUpdateInfo (p :: q :: qs)))
    as (_ & _ & _ & -> & _).
  destruct (validateFields_fields st (Some (map NameList (q :: qs)))
              {| triggerName := None; validateMessages := None;
                 recursive := false |}) as (Hall & _).
  destruct (Forall2_In_left _ _ _ _ Hall Hin) as (child' & Hchild' & Hrel).
  assert (validates (Some (map NameList (q :: qs)))
            {| triggerName := None; validateMessages := None; recursive := false |}
            child = true) as Hv.
  { unfold validates. rewrite map_getNamePath_NameList.
    unfold cascades in Hcas. apply andb_true_iff in Hcas as [_ ->].
    rewrite (bool_decide_eq_false_2 _ Hrules). cbn [negb andb].
    apply orb_true_iff. left. by apply containsNamePath_In. }
  rewrite Hv in Hrel. destruct Hrel as (root & Hroot & ->).
  exists root. split; [exact Hroot|exact Hchild'].
Qed.

(** X24: when a value changes, a registered field that declares a
    dependency on its path, passes the test of [isFieldDirty], and has a path
    and rules is validated anew: after [updateValue] the field is validating
    under a fresh [rootPromise], dirty, without errors nor warnings, the
    entities being told apart by their identity. *)
Theorem updateValue_revalidates_dependents (st : FormStore) (name : NamePath)
    (value : StoreValue) (child : Field) :
  NoDup (map fid (fieldEntities st)) ->
  In child (fieldEntities st) ->
  declaresDependency child (getNamePath name) = true ->
  isFieldDirty st child = true ->
  fieldNamePath child <> [] ->
  rules (props child) <> [] ->
  let st' := updateValue st name value in
  exists root,
    nextPromise st <= root < nextPromise st'
    /\ In (withState child (touched child) true (Some (RootPromise root)) [] [])
          (fieldEntities st').
Proof.
  intros Hnd Hin Hdep Hdirty Hpath Hrules. cbv zeta. unfold updateValue. cbv zeta.
  set (st1 := notifyWatch
                (notifyObservers
                   (updateStore st
                      (setValue (store st) (getNamePath name) value false))
                   (store st) (Some [getNamePath name])
                   (ValueUpdateInfo SourceInternal)) [getNamePath name]).
  assert (config st1 = config st) as Hc.
  { subst st1. by rewrite notifyWatch_config, notifyObservers_config. }
  assert (fieldEntities st1 = fieldEntities st) as Hf.
  { subst st1. by rewrite notifyWatch_fields, notifyObservers_quiet. }
  assert (nextPromise st1 = nextPromise st) as Hn.
  { subst st1.
    destruct (notifyWatch_frame
                (notifyObservers
                   (updateStore st
                      (setValue (store st) (getNamePath name) value false))
                   (store st) (Some [getNamePath name])
                   (ValueUpdateInfo SourceInternal)) [getNamePath name])
      as (_ & _ & _ & _ & -> & _).
    by destruct (notifyObservers_frame
                   (updateStore st
                      (setValue (store st) (getNamePath name) value false))
                   (store st) (Some [getNamePath name])
                   (ValueUpdateInfo SourceInternal)) as (_ & _ & _ & -> & _). }
  destruct (triggerDependenciesUpdate_validates st1 (store st) (getNamePath name)
              child) as (root & Hroot & Hchild).
  { by rewrite Hf. }
  { by rewrite Hf. }
  { done. }
  { rewrite (cascades_config _ _ _ Hc). unfold cascades. rewrite Hdirty.
    by rewrite (bool_decide_eq_false_2 _ Hpath). }
  { done. }
  destruct (triggerDependenciesUpdate st1 (store st) (getNamePath name))
    as [st2 childrenFields] eqn:E.
  cbn [fst] in Hroot, Hchild. rewrite Hn in Hroot.
  exists root. rewrite triggerOnFieldsChange_fields.
  assert (forall s : FormStore,
             nextPromise (triggerOnFieldsChange s (getNamePath name :: childrenFields)
                            None) = nextPromise s) as Hn2
    by (intros s; unfold triggerOnFieldsChange; by case_match).
  rewrite Hn2. by destruct (onValuesChange (callbacks (config st2))).
Qed.

(** ** The rules a trigger arms *)





(** ** Watch callbacks *)

Lemma silentFor_refl (cb : nat) (st : FormStore) : silentFor cb st st.
Proof. by split. Qed.

Lemma silentFor_trans (cb : nat) (st1 st2 st3 : FormStore) :
  silentFor cb st1 st2 -> silentFor cb st2 st3 -> silentFor cb st1 st3.
Proof. intros [C1 L1] [C2 L2]. split; congruence. Qed.

Lemma silentFor_emit (cb : nat) (st : FormStore) (fx : list Effect) :
  List.filter (callsWatch cb) fx = [] -> silentFor cb st (emit st fx).
Proof.
  intros H. split; [done|]. cbn [log emit].
  by rewrite List.filter_app, H, app_nil_r.
Qed.

Lemma silentFor_updateStore (cb : nat) (st : FormStore) (s : Store) :
  silentFor cb st (updateStore st s).
Proof. by split. Qed.

Lemma callsWatch_watchCalls (cb : nat) (fx : list Effect) :
  watchCalls fx = [] -> List.filter (callsWatch cb) fx = [].
Proof.
  unfold watchCalls. induction fx as [|e fx IH]; [done|]. cbn [List.filter].
  destruct e; cbn [callsWatch]; try exact IH. discriminate.
Qed.

Lemma silentFor_notifyWatch (cb : nat) (st : FormStore) namePath :
  ~ In cb (watchList (config st)) -> silentFor cb st (notifyWatch st namePath).
Proof.
  intros Hcb. split; [apply notifyWatch_config|].
  rewrite notifyWatch_log, List.filter_app. cbn [List.filter callsWatch].
  assert (List.filter (callsWatch cb)
            (map (fun callback =>
                    FxWatch callback (getFieldsValue st None None) namePath)
                 (watchList (config st))) = []) as ->; [|by rewrite app_nil_r].
  induction (watchList (config st)) as [|c l IH]; [done|].
  cbn [map List.filter callsWatch].
  destruct (Nat.eqb_spec c cb) as [->|_]; [exfalso; apply Hcb; by left|].
  apply IH. intros H. apply Hcb. by right.
Qed.

Lemma silentFor_notifyObservers (cb : nat) (st : FormStore) prevStore namePathList info :
  silentFor cb st (notifyObservers st prevStore namePathList info).
Proof.
  split; [apply notifyObservers_config|].
  rewrite notifyObservers_log, List.filter_app. cbn [List.filter callsWatch].
  assert (List.filter (callsWatch cb)
            (if subscribable (config st)
             then snd (broadcast (fieldEntities st) prevStore namePathList info
                         (store st))
             else [FxForceRootUpdate]) = []) as ->; [|by rewrite app_nil_r].
  destruct (subscribable (config st)); [|done].
  apply callsWatch_watchCalls, broadcast_projections.
Qed.

Lemma silentFor_fieldEffects (cb : nat) (st st' : FormStore) (fx : list Effect) :
  config st' = config st -> log st' = log st ++ fx ->
  forallb isFieldEffect fx = true -> silentFor cb st st'.
Proof.
  intros Hc Hlog Hfx. split; [done|]. rewrite Hlog, List.filter_app.
  rewrite (callsWatch_watchCalls cb fx); [by rewrite app_nil_r|].
  by apply fieldEffects_projections.
Qed.

Lemma silentFor_validateFields (cb : nat) (st : FormStore) nameList options :
  silentFor cb st (validateFields st nameList options).
Proof.
  destruct (validateFields_log st nameList options) as (fx & Hlog & Hfx).
  by apply (silentFor_fieldEffects cb _ _ fx).
Qed.

Lemma silentFor_triggerOnFieldsChange (cb : nat) (st : FormStore) namePathList errs :
  silentFor cb st (triggerOnFieldsChange st namePathList errs).
Proof.
  unfold triggerOnFieldsChange. case_match; [|apply silentFor_refl].
  by apply silentFor_emit.
Qed.

Lemma silentFor_foldl {A} (cb : nat) (f : FormStore -> A -> FormStore) (l : list A) :
  (forall st a, silentFor cb st (f st a)) ->
  forall st, silentFor cb st (foldl f st l).
Proof.
  intros Hf. induction l as [|a l IH]; intros st; [apply silentFor_refl|].
  cbn [foldl]. eapply silentFor_trans; [apply Hf|apply IH].
Qed.

Lemma silentFor_resetWithFieldInitialValue (cb : nat) (st : FormStore) info :
  silentFor cb st (resetWithFieldInitialValue st info).
Proof.
  unfold resetWithFieldInitialValue. apply silentFor_foldl.
  intros s f. unfold resetWithField, warning.
  repeat case_match; try apply silentFor_refl; try apply silentFor_updateStore;
    by apply silentFor_emit.
Qed.

Lemma silentFor_absent (cb : nat) (st st' : FormStore) :
  silentFor cb st st' ->
  ~ In cb (watchList (config st)) -> ~ In cb (watchList (config st')).
Proof. intros [-> _]. done. Qed.

Lemma silentFor_resetFields (cb : nat) (st : FormStore) nameList :
  ~ In cb (watchList (config st)) -> silentFor cb st (resetFields st nameList).
Proof.
  intros Hcb. unfold resetFields. cbv zeta. destruct nameList as [names|].
  - assert (silentFor cb st
              (foldl (fun st namePath =>
                        updateStore st
                          (setValue (store st) namePath
                             (getInitialValue st namePath) false))
                     st (map getNamePath names))) as H1.
    { apply silentFor_foldl. intros s p. apply silentFor_updateStore. }
    eapply silentFor_trans; [exact H1|].
    eapply silentFor_trans; [apply silentFor_resetWithFieldInitialValue|].
    eapply silentFor_trans; [apply silentFor_notifyObservers|].
    apply silentFor_notifyWatch.
    rewrite notifyObservers_config, resetWithFieldInitialValue_config.
    by destruct H1 as [-> _].
  - eapply silentFor_trans; [apply silentFor_updateStore|].
    eapply silentFor_trans; [apply silentFor_resetWithFieldInitialValue|].
    eapply silentFor_trans; [apply silentFor_notifyObservers|].
    apply silentFor_notifyWatch.
    by rewrite notifyObservers_config, resetWithFieldInitialValue_config.
Qed.

Lemma silentFor_setFields (cb : nat) (st : FormStore) fields :
  ~ In cb (watchList (config st)) -> silentFor cb st (setFields st fields).
Proof.
  intros Hcb. unfold setFields. cbv zeta.
  assert (forall prevStore,
             silentFor cb st
               (foldl (fun st fieldData =>
                         notifyObservers
                           match fd_value fieldData with
                           | Some value =>
                               updateStore st
                                 (setValue (store st)
                                    (getNamePath (fd_name fieldData)) value false)
                           | None => st
                           end prevStore
                           (Some [getNamePath (fd_name fieldData)])
                           (SetFieldInfo fieldData)) st fields)) as H1.
  { intros prevStore. apply silentFor_foldl. intros s data.
    eapply silentFor_trans; [|apply silentFor_notifyObservers].
    case_match; [apply silentFor_updateStore|apply silentFor_refl]. }
  eapply silentFor_trans; [apply H1|].
  apply silentFor_notifyWatch. by destruct (H1 (store st)) as [-> _].
Qed.

Lemma silentFor_setFieldsValue (cb : nat) (st : FormStore) newStore :
  ~ In cb (watchList (config st)) -> silentFor cb st (setFieldsValue st newStore).
Proof.
  intros Hcb. unfold setFieldsValue. cbv zeta.
  assert (silentFor cb st
            match newStore with
            | Some values => updateStore st (setValues (store st) [values])
            | None => st
            end) as H1
    by (case_match; [apply silentFor_updateStore|apply silentFor_refl]).
  eapply silentFor_trans; [exact H1|].
  eapply silentFor_trans; [apply silentFor_notifyObservers|].
  apply silentFor_notifyWatch. rewrite notifyObservers_config.
  by destruct H1 as [-> _].
Qed.

Lemma silentFor_triggerDependenciesUpdate (cb : nat) (st : FormStore) prevStore p :
  silentFor cb st (fst (triggerDependenciesUpdate st prevStore p)).
Proof.
  unfold triggerDependenciesUpdate. cbn [fst].
  eapply silentFor_trans; [|apply silentFor_notifyObservers].
  case_match; [apply silentFor_refl|apply silentFor_validateFields].
Qed.

Lemma silentFor_updateValue (cb : nat) (st : FormStore) name value :
  ~ In cb (watchList (config st)) -> silentFor cb st (updateValue st name value).
Proof.
  intros Hcb. unfold updateValue. cbv zeta.
  destruct (triggerDependenciesUpdate _ _ _) as [st1 childrenFields] eqn:E.
  assert (silentFor cb st st1) as H1.
  { change st1 with (fst (st1, childrenFields)). rewrite <- E.
    eapply silentFor_trans; [|apply silentFor_triggerDependenciesUpdate].
    eapply silentFor_trans; [apply silentFor_updateStore|].
    eapply silentFor_trans; [apply silentFor_notifyObservers|].
    apply silentFor_notifyWatch. by rewrite notifyObservers_config. }
  eapply silentFor_trans; [exact H1|].
  eapply silentFor_trans; [|apply silentFor_triggerOnFieldsChange].
  case_match; [by apply silentFor_emit|apply silentFor_refl].
Qed.

Lemma silentFor_unregisterField (cb : nat) (st : FormStore) entity isListField
    preserve sub :
  ~ In cb (watchList (config st)) ->
  silentFor cb st (unregisterField st entity isListField preserve sub).
Proof.
  intros Hcb. unfold unregisterField. cbv zeta.
  set (st1 := setFieldEntities st _).
  assert (silentFor cb st st1) as H1 by (by split).
  assert (silentFor cb st
            (if negb (isMergedPreserve st1 preserve)
                && (negb isListField || (1 <? length sub))
             then
               if negb (bool_decide (fieldNamePath entity = []))
                  && negb (strictEq
                             (getFieldValue st1 (NameList (fieldNamePath entity)))
                             (if isListField then VUndefined
                              else getInitialValue st1 (fieldNamePath entity)))
                  && forallb (fun field =>
                                negb (matchNamePath (fieldNamePath field)
                                        (fieldNamePath entity)))
                             (fieldEntities st1)
               then
                 fst (triggerDependenciesUpdate
                        (notifyObservers
                           (updateStore st1
                              (setValue (store st1) (fieldNamePath entity)
                                 (if isListField then VUndefined
                                  else getInitialValue st1 (fieldNamePath entity))
                                 true))
                           (store st1) (Some [fieldNamePath entity]) RemoveInfo)
                        (store st1) (fieldNamePath entity))
               else st1
             else st1)) as H2.
  { repeat case_match; try exact H1;
      (eapply silentFor_trans; [exact H1|]);
      (eapply silentFor_trans; [apply silentFor_updateStore|]);
      (eapply silentFor_trans; [apply silentFor_notifyObservers|]);
      apply silentFor_triggerDependenciesUpdate. }
  eapply silentFor_trans; [exact H2|].
  apply silentFor_notifyWatch. by destruct H2 as [-> _].
Qed.

Lemma silentFor_registerField (cb : nat) (st : FormStore) entity :
  ~ In cb (watchList (config st)) ->
  silentFor cb st (registerField (initEntityValue st entity) entity).
Proof.
  intros Hcb.
  assert (silentFor cb st (initEntityValue st entity)) as H0.
  { unfold initEntityValue.
    repeat case_match; try apply silentFor_refl; apply silentFor_updateStore. }
  eapply silentFor_trans; [exact H0|].
  unfold registerField. cbv zeta.
  set (st1 := setFieldEntities (initEntityValue st entity) _).
  assert (silentFor cb (initEntityValue st entity) st1) as H1 by (by split).
  assert (silentFor cb (initEntityValue st entity)
            (notifyWatch st1 [fieldNamePath entity])) as H2.
  { eapply silentFor_trans; [exact H1|]. apply silentFor_notifyWatch.
    destruct H1 as [-> _]. by destruct H0 as [-> _]. }
  case_match; [|exact H2].
  eapply silentFor_trans; [exact H2|].
  eapply silentFor_trans; [apply silentFor_resetWithFieldInitialValue|].
  apply silentFor_notifyObservers.
Qed.

Lemma silentFor_onEntity (cb : nat) (st : FormStore) (field : nat)
    (method : Field -> Field * list Effect) :
  (forall f, forallb isFieldEffect (snd (method f)) = true) ->
  silentFor cb st
    (emit (setFieldEntities st (fst (onEntity field method (fieldEntities st))))
          (snd (onEntity field method (fieldEntities st)))).
Proof.
  intros Hm.
  apply (silentFor_fieldEffects cb _ _
           (snd (onEntity field method (fieldEntities st)))); [done|done|].
  unfold onEntity. cbn [snd].
  induction (fieldEntities st) as [|f l IH]; [done|].
  cbn [map concat]. rewrite forallb_app, IH, andb_true_r.
  destruct (Nat.eqb (fid f) field); [apply Hm|done].
Qed.

Lemma ruleReaction_effects (root : nat) (ruleErrors : list RuleError) (f : Field) :
  forallb isFieldEffect (snd (ruleReaction root ruleErrors f)) = true.
Proof.
  unfold ruleReaction, triggerMetaEvent, reRender. repeat case_match; reflexivity.
Qed.

Lemma silentFor_runJob (cb : nat) (st : FormStore) job completion :
  silentFor cb st (runJob st job completion).
Proof.
  destruct job; cbn [runJob].
  - repeat case_match; try apply silentFor_refl; by split.
  - pose proof (silentFor_onEntity cb st field (ruleReaction root ruleErrors)
                  (ruleReaction_effects root ruleErrors)) as H.
    by destruct (onEntity _ _ _).
  - eapply silentFor_trans; [apply silentFor_notifyObservers|].
    apply silentFor_triggerOnFieldsChange.
  - case_match; by split.
  - by split.
Qed.

Lemma silentFor_triggerChange (cb : nat) (st : FormStore) field newValue :
  ~ In cb (watchList (config st)) ->
  silentFor cb st (triggerChange st field newValue).
Proof.
  intros Hcb. unfold triggerChange. destruct (List.find _ _) as [f|];
    [|apply silentFor_refl].
  pose proof (silentFor_onEntity cb st field
                (fun f => let f' := withState f true true (validatePromise f)
                                      (getErrors f) (getWarnings f) in
                          (f', triggerMetaEvent f' false))
                (fun _ => eq_refl)) as H.
  destruct (onEntity _ _ _) as [fields fx]. cbn [dispatch fst snd] in *.
  eapply silentFor_trans; [exact H|]. apply silentFor_updateValue.
  by destruct H as [-> _].
Qed.

Lemma silentFor_step (cb : nat) (st : FormStore) (ev : Event) :
  ~ In cb (watchList (config st)) -> silentFor cb st (step st ev).
Proof.
  intros Hcb. destruct ev; cbn [step].
  - apply silentFor_validateFields.
  - by apply silentFor_setFields.
  - by apply silentFor_setFields.
  - by apply silentFor_setFieldsValue.
  - by apply silentFor_resetFields.
  - destruct action; cbn [dispatch];
      [by apply silentFor_updateValue|apply silentFor_validateFields].
  - by apply silentFor_triggerChange.
  - by apply silentFor_registerField.
  - case_match; [|apply silentFor_refl]. by apply silentFor_unregisterField.
  - unfold settleSummary. repeat case_match; by split.
  - case_match; [|apply silentFor_refl].
    eapply silentFor_trans; [|apply silentFor_runJob]. by split.
Qed.

Lemma silentFor_run (cb : nat) (events : list Event) :
  forall st, ~ In cb (watchList (config st)) -> silentFor cb st (run st events).
Proof.
  unfold run. induction events as [|ev events IH]; intros st Hcb;
    [apply silentFor_refl|].
  cbn [foldl]. pose proof (silentFor_step cb st ev Hcb) as H.
  eapply silentFor_trans; [exact H|]. apply IH. by destruct H as [-> _].
Qed.

Lemma filter_remove_last (cb : nat) (l : list nat) :
  ~ In cb l ->
  List.filter (fun fn => negb (Nat.eqb fn cb)) (l ++ [cb]) = l.
Proof.
  intros Hcb. rewrite List.filter_app. cbn [List.filter].
  rewrite Nat.eqb_refl. cbn [negb]. rewrite app_nil_r.
  apply forallb_filter_id, forallb_forall. intros c Hc.
  apply negb_true_iff, Nat.eqb_neq. intros ->. done.
Qed.

(** X25: the function [registerWatch] returns silences the callback: once
    it has run, no operation of the store calls the callback again.  For a
    callback that was not in [watchList], registering it and then running
    that function leaves the store as it was; while the callback is
    registered, a call of [notifyWatch] calls it once, with the values of the
    fields and the paths notified. *)
Theorem watch_registration (st : FormStore) (callback : nat)
    (events : list Event) (namePath : list InternalNamePath) :
  List.filter (callsWatch callback) (log (run (cancelWatch st callback) events))
  = List.filter (callsWatch callback) (log st)
  /\ (~ In callback (watchList (config st)) ->
      cancelWatch (registerWatch st callback) callback = st
      /\ List.filter (callsWatch callback)
           (log (notifyWatch (registerWatch st callback) namePath))
         = List.filter (callsWatch callback) (log st)
             ++ [FxWatch callback
                   (getFieldsValue (registerWatch st callback) None None)
                   namePath]).
Proof.
  split.
  - destruct (silentFor_run callback events (cancelWatch st callback)) as [_ H].
    + cbn [config cancelWatch setWatchList setConfig watchList].
      intros [_ Hc]%filter_In. by rewrite Nat.eqb_refl in Hc.
    + exact H.
  - intros Hcb. split.
    + unfold cancelWatch, registerWatch, setWatchList, setConfig.
      cbn [config watchList subscribable initialValues callbacks
             formValidateMessages formPreserve store fieldEntities
             lastValidatePromise nextPromise jobs summaries returned log].
      rewrite (filter_remove_last _ _ Hcb).
      destruct st as [[] ? ? ? ? ? ? ? ?]. reflexivity.
    + rewrite notifyWatch_log, List.filter_app.
      cbn [log registerWatch setWatchList setConfig config watchList
             List.filter callsWatch].
      f_equal. rewrite map_app, List.filter_app. cbn [map List.filter callsWatch].
      rewrite Nat.eqb_refl.
      assert (forall values,
                 List.filter (callsWatch callback)
                   (map (fun c => FxWatch c values namePath)
                        (watchList (config st))) = []) as ->; [|done].
      intros values. induction (watchList (config st)) as [|c l IH]; [done|].
      cbn [map List.filter callsWatch].
      destruct (Nat.eqb_spec c callback) as [->|_]; [exfalso; apply Hcb; by left|].
      apply IH. intros H. apply Hcb. by right.
Qed.

End Model.

(** * Examples

    The code run with the sample validation library. *)

(** ** The rule engine *)

(** Two required rules on a field without value, validated serially: only
    the first is evaluated and reported. *)
Lemma serial_two_failing_rules :
  let A := fillRule 0 (sampleRule Required None) in
  let B := fillRule 1 (sampleRule Required None) in
  filledRules [sampleRule Required None; sampleRule Required None] = [] ++ A :: [B]
  /\ validateRule sampleErrors sampleMessages "user" VUndefined A sampleOptions ∅ <> []
  /\ validateRules sampleErrors sampleMessages [SegStr "user"] VUndefined
       [sampleRule Required None; sampleRule Required None] sampleOptions
       ValidateFirstTrue ∅ []
     = {| summaryPromise :=
            Rejected [ {| errors := ["'user' is required"]; rule := A |} ];
          evaluated := [A] |}.
Proof.
  intros A B.
  assert (H1 : filledRules [sampleRule Required None; sampleRule Required None]
               = [] ++ A :: [B]) by reflexivity.
  assert (H2 : validateRule sampleErrors sampleMessages "user" VUndefined A
                 sampleOptions ∅ <> []) by discriminate.
  split; [exact H1|]. split; [exact H2|].
  exact (validateRules_serial_first_failure sampleErrors sampleMessages
           [SegStr "user"] VUndefined
           [sampleRule Required None; sampleRule Required None] sampleOptions ∅ []
           [] [B] A H1 (Forall_nil_2 _) H2).
Defined.

(** A rule that only warns before a rule that fails: the second comes first
    and keeps the index 1. *)
Lemma filledRules_example :
  let rules := [warningRule Required; sampleRule Required None] in
  filledRules rules
  = [fillRule 1 (sampleRule Required None); fillRule 0 (warningRule Required)]
  /\ map ruleIndex (imap fillRule rules) = [0; 1].
Proof.
  intros rules.
  destruct (filledRules_partition rules) as (H1 & H2 & _).
  split; [exact H1|exact H2].
Defined.



(** A validator that throws, under a message table whose [default] entry the
    caller has replaced: the message is the caller's. *)
Lemma logic_error_message_is_overridable :
  let options :=
    {| triggerName := None;
       validateMessages := Some {| mo_default := Some "Oops"; mo_entries := ∅ |};
       recursive := false |} in
  let rule := fillRule 0 (sampleRule Unconstrained (Some (fun _ => Throws))) in
  validateRule sampleErrors sampleMessages "user" VUndefined rule options ∅ = ["Oops"]
  /\ validateRule sampleErrors sampleMessages "user" VUndefined rule options ∅
     <> [replaceMessage (vm_default sampleMessages)
           (messageContext rule "user" ∅)].
Proof. split; [reflexivity|discriminate]. Qed.

(** A validator that throws, under the default message table. *)
Lemma validator_throws_example :
  let currentRule := sampleRule Unconstrained (Some (fun _ => Throws)) in
  validator currentRule = Some (fun _ => Throws)
  /\ validateRule sampleErrors sampleMessages "user" VUndefined
       (fillRule 0 currentRule) sampleOptions ∅
     = ["Validation error on field 'user'"].
Proof.
  intros currentRule.
  assert (H1 : validator currentRule = Some (fun _ => Throws)) by reflexivity.
  split; [exact H1|].
  exact (proj2 (validateRule_validator_throws sampleErrors sampleMessages "user"
                  VUndefined currentRule 0 (fun _ => Throws) sampleOptions ∅
                  H1 eq_refl)).
Defined.

(** ** The form store *)

(** Two calls of [validateFields] in a row, then everything settles, the
    first call first: the rules of the first call land on a field that
    validates for the second, the first caller is told [outOfDate], the
    second is not. *)
Lemma two_validations_in_a_row :
  let st := userStore sampleErrors sampleMessages sampleStrictEq true Required in
  let st1 := validateFields sampleMessages st None sampleOptions in
  let st2 := run sampleErrors sampleMessages sampleStrictEq st1 [] in
  let st3 := validateFields sampleMessages st2 None sampleOptions in
  let events :=
    [EvRunJob 0 []; EvRunJob 0 []; EvRunJob 0 []; EvRunJob 0 [];
     EvSettleSummary 1 (Rejected [userRequired]); EvRunJob 0 []; EvRunJob 0 [];
     EvSettleSummary 3 (Rejected [userRequired]); EvRunJob 0 []; EvRunJob 0 []] in
  let st4 := run sampleErrors sampleMessages sampleStrictEq st3 events in
  lastValidatePromise st1 = Some 1
  /\ (forall o, ~ In (1, o) (returned st2))
  /\ map fst (returned st4) = [1; 3]
  /\ (forall o, In (1, o) (returned st4) ->
                exists e, o = Rejected e /\ outOfDate e = true)
  /\ In (3, Rejected {| values := VObj [(SegStr "user", VUndefined)];
                        errorFields := [userRequired];
                        outOfDate := false |}) (returned st4).
Proof.
  intros st st1 st2 st3 events st4.
  assert (H1 : lastValidatePromise st1 = Some 1) by (vm_compute; reflexivity).
  assert (H2 : forall o, ~ In (1, o) (returned st2))
    by (intros o H; vm_compute in H; exact H).
  split; [exact H1|]. split; [exact H2|].
  split; [vm_compute; reflexivity|].
  split; [|vm_compute; right; left; reflexivity].
  exact (proj1 (proj2 (superseded_validation_is_out_of_date
                         sampleErrors sampleMessages sampleStrictEq
                         st None None sampleOptions sampleOptions
                         [] events 1 H1 H2))).
Defined.

(** A call of [validateFields] that a second call supersedes before its
    summary promise is fulfilled: the reaction that notifies the fields is
    queued all the same, and reaches the field. *)
Lemma superseded_validation_still_notifies :
  let st := userStore sampleErrors sampleMessages sampleStrictEq true Required in
  let st1 := validateFields sampleMessages st None sampleOptions in
  let events := [EvValidateFields None sampleOptions] in
  let st2 := run sampleErrors sampleMessages sampleStrictEq st1 events in
  let st3 := settleSummary st2 1 (Fulfilled [userRequired]) in
  lastValidatePromise st1 = Some 1
  /\ forallb (fun ev => negb (settles 1 ev)) events = true
  /\ lastValidatePromise st2 = Some 3
  /\ In (JobValidateFinish 1 [userRequired]) (jobs st3)
  /\ storeChanges (log st3) = []
  /\ storeChanges
       (log (runJob sampleErrors sampleMessages sampleStrictEq st3
               (JobValidateFinish 1 [userRequired]) []))
     = [(1, ValidateFinishInfo)].
Proof.
  intros st st1 events st2 st3.
  assert (H1 : lastValidatePromise st1 = Some 1) by (vm_compute; reflexivity).
  assert (H2 : forallb (fun ev => negb (settles 1 ev)) events = true)
    by (vm_compute; reflexivity).
  split; [exact H1|]. split; [exact H2|]. split; [vm_compute; reflexivity|].
  split; [|split; vm_compute; reflexivity].
  exact (proj1 (validateFinish_not_gated sampleErrors sampleMessages sampleStrictEq
                  st None sampleOptions events 1 [userRequired] false H1 H2)).
Defined.

(** A store that is not in subscribe mode: the field validates, the summary
    promise settles, its reaction runs, and no field is notified; the root is
    updated instead. *)
Lemma validateFinish_without_subscription :
  let st0 := userStore sampleErrors sampleMessages sampleStrictEq false Required in
  let st :=
    run sampleErrors sampleMessages sampleStrictEq st0
      [EvValidateFields None sampleOptions;
       EvSettleSummary 1 (Rejected [userRequired]);
       EvRunJob 1 []] in
  map fid (fieldEntities st) = [1]
  /\ notifications (log st)
     = [(Some [[SegStr "user"]], ValidateFinishInfo)]
  /\ storeChanges (log st) = []
  /\ In FxForceRootUpdate (log st).
Proof.
  intros st0 st.
  split; [vm_compute; reflexivity|]. split; [vm_compute; reflexivity|].
  split; [vm_compute; reflexivity|].
  vm_compute. do 4 right. left. reflexivity.
Qed.

(** [setFieldsValue] on a field that was never touched. *)
Lemma external_update_example :
  let st0 := userStore sampleErrors sampleMessages sampleStrictEq true Required in
  let field := userField Required in
  let values := VObj [(SegStr "user", VStr "x")] in
  let nextStore := setValues (store st0) [values] in
  let st := setFieldsValue sampleStrictEq st0 (Some values) in
  subscribable (config st0) = true
  /\ In field (fieldEntities st0)
  /\ sampleStrictEq (getValue (store st0) (fieldNamePath field))
                    (getValue nextStore (fieldNamePath field)) = false
  /\ In (externalUpdate field) (fieldEntities st).
Proof.
  intros st0 field values nextStore st.
  assert (H1 : subscribable (config st0) = true)
    by (vm_compute; reflexivity).
  assert (H2 : In field (fieldEntities st0))
    by (vm_compute; left; reflexivity).
  assert (H3 : sampleStrictEq
                 (getValue (store st0) (fieldNamePath field))
                 (getValue nextStore (fieldNamePath field)) = false)
    by (vm_compute; reflexivity).
  split; [exact H1|]. split; [exact H2|]. split; [exact H3|].
  exact (proj1 (setFieldsValue_marks_changed_fields sampleStrictEq
                  st0 values field H1 H2 H3)).
Defined.

(** The field was neither touched nor dirty; the external update leaves it
    touched and dirty. *)
Lemma external_update_marks_touched :
  let st0 := userStore sampleErrors sampleMessages sampleStrictEq true Required in
  let values := VObj [(SegStr "user", VStr "x")] in
  let st := setFieldsValue sampleStrictEq st0 (Some values) in
  map (fun f => (touched f, dirty f)) (fieldEntities st0) = [(false, false)]
  /\ store st = VObj [(SegStr "user", VStr "x")]
  /\ map (fun f => (touched f, dirty f)) (fieldEntities st) = [(true, true)].
Proof. repeat split; vm_compute; reflexivity. Qed.

(** ** The dependency cascade *)

Lemma cascade_example :
  let st := cascadeStore sampleErrors sampleMessages sampleStrictEq Required in
  NoDup (map fid (fieldEntities st))
  /\ fillChildren st (S (length (fieldEntities st)))
       [SegStr "user"] {| children := []; childrenFields := [] |} <> None
  /\ getDependencyChildrenFields st [SegStr "user"] = [[SegStr "confirm"]].
Proof.
  intros st.
  assert (H : NoDup (map fid (fieldEntities st))).
  { apply (bool_decide_unpack _). vm_compute. exact I. }
  split; [exact H|]. split; [|vm_compute; reflexivity].
  exact (proj1 (dependency_cascade_collects st [SegStr "user"] H)).
Defined.

(** [confirm] declares an initial value; nobody has touched or validated
    it, its dirty flag is down, and the cascade from [user] collects it. *)
Lemma cascade_collects_untouched_field :
  let st := cascadeStore sampleErrors sampleMessages sampleStrictEq Required in
  getDependencyChildrenFields st [SegStr "user"] = [[SegStr "confirm"]]
  /\ map (fun f => (fieldNamePath f, touched f, dirty f, validatePromise f))
         (fieldEntities st)
     = [([SegStr "user"], false, false, None);
        ([SegStr "confirm"], false, false, None)].
Proof. split; vm_compute; reflexivity. Qed.

(** ** Reset *)


(** ** Further examples: the rule engine *)

(** The message of the sample library for a missing value. *)
Lemma required_message_example :
  isPlaceholderKey "name" = true
  /\ replaceMessage "'${name}' is required" nameVariables = "'user' is required".
Proof.
  assert (H : isPlaceholderKey "name" = true) by reflexivity.
  split; [exact H|].
  exact (replaceMessage_substitutes nameVariables "'" "name" "' is required" H).
Defined.

(** Braces without dollar sign are no placeholder. *)
Lemma plain_message_example :
  noDollar "It costs 5 {dollars}" = true
  /\ replaceMessage "It costs 5 {dollars}" nameVariables = "It costs 5 {dollars}".
Proof.
  assert (H : noDollar "It costs 5 {dollars}" = true) by reflexivity.
  split; [exact H|].
  exact (replaceMessage_plain nameVariables "It costs 5 {dollars}" H).
Defined.

(** A validator whose promise is rejected with a template, in the rule at
    position 2. *)
Lemma validator_rejects_with_template :
  let reason := "rule ${ruleIndex} of ${name} failed" in
  let currentRule :=
    sampleRule Unconstrained (Some (fun _ => PromiseRejected (Some reason))) in
  validator currentRule = Some (fun _ => PromiseRejected (Some reason))
  /\ validateRule sampleErrors sampleMessages "user" VUndefined
       (fillRule 2 currentRule) sampleOptions ∅
     = ["rule 2 of user failed"].
Proof.
  intros reason currentRule.
  assert (H : validator currentRule = Some (fun _ => PromiseRejected (Some reason)))
    by reflexivity.
  split; [exact H|].
  exact (proj1 (validateRule_validator_outcome sampleErrors sampleMessages "user"
                  VUndefined currentRule 2 (fun _ => PromiseRejected (Some reason))
                  sampleOptions ∅ reason H eq_refl)).
Defined.

(** The violated rule settles first and rejects the promise; the rule that
    settles later changes nothing. *)
Lemma parallel_settles_once_example :
  let rules := [sampleRule Unconstrained None; sampleRule Required None] in
  let result completion :=
    summaryPromise
      (validateRules sampleErrors sampleMessages [SegStr "user"] VUndefined rules
         sampleOptions ValidateFirstParallel ∅ completion) in
  result [1] <> Pending
  /\ result ([1] ++ [0]) = result [1].
Proof.
  intros rules result.
  assert (H : result [1] <> Pending) by (vm_compute; discriminate).
  split; [exact H|].
  exact (validateRules_parallel_settles_once sampleErrors sampleMessages
           [SegStr "user"] VUndefined rules sampleOptions ∅ [1] [0] H).
Defined.

(** A field in ['parallel'] mode whose only rule waits for [onBlur],
    validated under [onChange]. *)
Lemma disarmed_parallel_field_keeps_validating :
  let f0 := codeField [blurRule Required] in
  let st0 :=
    run sampleErrors sampleMessages sampleStrictEq
      (sampleStore (sampleConfig true (VObj [])) (VObj [])) [EvRegisterField f0] in
  let st := validateFields sampleMessages st0 None changeOptions in
  let f := withState f0 false true (Some (RootPromise 0)) [] [] in
  let options := fieldOptions sampleMessages st0 changeOptions in
  fieldEntities st = [f]
  /\ jobs st = [JobRootBody 3 0 [SegStr "code"] VUndefined options]
  /\ runJob sampleErrors sampleMessages sampleStrictEq st
       (JobRootBody 3 0 [SegStr "code"] VUndefined options) []
     = st
  /\ isFieldsValidating st None = true.
Proof.
  intros f0 st0 st f options.
  assert (H1 : List.find (fun g => Nat.eqb (fid g) (fid f)) (fieldEntities st) = Some f)
    by (vm_compute; reflexivity).
  assert (H2 : validateFirst (props f) = ValidateFirstParallel) by reflexivity.
  assert (H3 : filteredRules f options = []) by reflexivity.
  split; [vm_compute; reflexivity|]. split; [vm_compute; reflexivity|].
  split; [|vm_compute; reflexivity].
  exact (proj2 (proj2 (proj2
           (validateRules_without_rules sampleErrors sampleMessages sampleStrictEq
              [SegStr "code"] VUndefined options ∅ [])))
           st f 0 H1 H2 H3).
Defined.


(** ** Further examples: the queries *)

(** A name no field is registered under. *)
Lemma unknown_name_has_no_errors :
  let st := userStore sampleErrors sampleMessages sampleStrictEq true Required in
  let ghost := NameScalar (SegStr "ghost") in
  Forall (fun field => fieldNamePath field <> getNamePath ghost)
         (getFieldEntities st true)
  /\ getFieldsError st (Some [NameScalar (SegStr "user"); ghost])
     = [ {| fe_name := [SegStr "user"]; fe_errors := []; fe_warnings := [] |};
         {| fe_name := [SegStr "ghost"]; fe_errors := []; fe_warnings := [] |} ]
  /\ getFieldError st ghost = [].
Proof.
  intros st ghost.
  assert (H : Forall (fun field => fieldNamePath field <> getNamePath ghost)
                     (getFieldEntities st true))
    by (vm_compute; repeat constructor; discriminate).
  split; [exact H|]. split; [vm_compute; reflexivity|].
  exact (proj1 (proj2 (proj2 (getFieldsError_by_name st
                                [NameScalar (SegStr "user"); ghost]) ghost H))).
Defined.

(** Two fields under the name [user], the first with a rule that fails,
    the second without rules: [getFieldError] answers for the second. *)
Lemma last_registered_field_answers :
  let st :=
    run sampleErrors sampleMessages sampleStrictEq
      (twinStore sampleErrors sampleMessages sampleStrictEq Required)
      [EvValidateFields None sampleOptions; EvRunJob 0 [0]; EvRunJob 0 []] in
  let user := NameScalar (SegStr "user") in
  let twin := sampleField 2 "user" [] [] VUndefined in
  map getErrors (fieldEntities st) = [["'user' is required"]; []]
  /\ fieldEntities st = take 1 (fieldEntities st) ++ twin :: []
  /\ fieldNamePath twin = getNamePath user
  /\ getNamePath user <> []
  /\ getFieldError st user = [].
Proof.
  intros st user twin.
  assert (H1 : fieldEntities st = take 1 (fieldEntities st) ++ twin :: [])
    by (vm_compute; reflexivity).
  assert (H2 : fieldNamePath twin = getNamePath user) by reflexivity.
  assert (H3 : getNamePath user <> []) by discriminate.
  split; [vm_compute; reflexivity|]. split; [exact H1|]. split; [exact H2|].
  split; [exact H3|].
  exact (proj1 (getFieldError_last_registered st user (take 1 (fieldEntities st)) []
                  twin H1 H2 H3 (Forall_nil_2 _))).
Defined.

(** ** Further examples: the operations of the store *)

(** The user types in [user]; [resetFields(['user'])] puts the field back
    in the state of a new field. *)
Lemma reset_after_change_example :
  let st :=
    run sampleErrors sampleMessages sampleStrictEq
      (userStore sampleErrors sampleMessages sampleStrictEq true Required)
      [EvTriggerChange 1 (VStr "x")] in
  subscribable (config st) = true
  /\ map (fun f => (touched f, dirty f)) (fieldEntities st) = [(true, true)]
  /\ fieldEntities (resetFields sampleStrictEq st (Some [NameScalar (SegStr "user")]))
     = [userField Required].
Proof.
  intros st.
  assert (H : subscribable (config st) = true) by (vm_compute; reflexivity).
  split; [exact H|]. split; [vm_compute; reflexivity|].
  rewrite (resetFields_named_fields sampleStrictEq st [NameScalar (SegStr "user")] H).
  vm_compute. reflexivity.
Defined.

(** The user types in [user] and the form is validated; [resetFields()]
    while the rules are on their way. *)
Lemma reset_during_validation_example :
  let st :=
    run sampleErrors sampleMessages sampleStrictEq
      (userStore sampleErrors sampleMessages sampleStrictEq true Required)
      [EvTriggerChange 1 (VStr "x"); EvValidateFields None sampleOptions] in
  let st' := resetFields sampleStrictEq st None in
  subscribable (config st) = true
  /\ isFieldsTouched st TouchedNoArgs = true
  /\ isFieldsValidating st None = true
  /\ isFieldsTouched st' TouchedNoArgs = false
  /\ isFieldsValidating st' None = false.
Proof.
  intros st st'.
  assert (H : subscribable (config st) = true) by (vm_compute; reflexivity).
  split; [exact H|]. split; [vm_compute; reflexivity|].
  split; [vm_compute; reflexivity|].
  destruct (resetFields_clears_every_field sampleErrors sampleMessages
              sampleStrictEq st H) as (_ & Ht & Hv & _).
  split; [exact Ht|exact Hv].
Defined.

(** Without subscription the field keeps its state through a reset. *)
Lemma unsubscribed_reset_example :
  let st :=
    run sampleErrors sampleMessages sampleStrictEq
      (userStore sampleErrors sampleMessages sampleStrictEq false Required)
      [EvTriggerChange 1 (VStr "x")] in
  subscribable (config st) = false
  /\ map touched (fieldEntities st) = [true]
  /\ fieldEntities (resetFields sampleStrictEq st None) = fieldEntities st.
Proof.
  intros st.
  assert (H : subscribable (config st) = false) by (vm_compute; reflexivity).
  split; [exact H|]. split; [vm_compute; reflexivity|].
  exact (proj1 (unsubscribed_store_keeps_field_state sampleStrictEq st None []
                  None H)).
Defined.

(** [setFields] with errors for [user], then [getFieldError]. *)
Lemma setFields_errors_example :
  let st := twinStore sampleErrors sampleMessages sampleStrictEq Required in
  let user := NameScalar (SegStr "user") in
  let data :=
    {| fd_name := user; fd_value := None; fd_touched := None;
       fd_validating := None; fd_errors := Some ["taken"]; fd_warnings := None;
       fd_originRCField := false |} in
  let twin := sampleField 2 "user" [] [] VUndefined in
  subscribable (config st) = true
  /\ fieldEntities st = [userField Required] ++ twin :: []
  /\ fieldNamePath twin = getNamePath user
  /\ getNamePath user <> []
  /\ getFieldError (setFields sampleStrictEq st [data]) user = ["taken"].
Proof.
  intros st user data twin.
  assert (H0 : subscribable (config st) = true) by (vm_compute; reflexivity).
  assert (H1 : fieldEntities st = [userField Required] ++ twin :: [])
    by (vm_compute; reflexivity).
  assert (H2 : fieldNamePath twin = getNamePath user) by reflexivity.
  assert (H3 : getNamePath user <> []) by discriminate.
  split; [exact H0|]. split; [exact H1|]. split; [exact H2|]. split; [exact H3|].
  exact (proj1 (setFields_then_getFieldError sampleStrictEq st data
                  [userField Required] [] twin H0 H1 H2 H3 (Forall_nil_2 _))).
Defined.

(** ** Further examples: registration *)

(** [confirm] is unregistered from a form that preserves values. *)
Lemma unregister_preserved_example :
  let st := cascadeStore sampleErrors sampleMessages sampleStrictEq Required in
  let st' :=
    unregisterField sampleMessages sampleStrictEq st (confirmField Required)
      false None [] in
  isMergedPreserve st None = true
  /\ getFieldValue st' (NameScalar (SegStr "confirm")) = VNum 5
  /\ store st' = store st
  /\ fieldEntities st' = [userField Required].
Proof.
  intros st st'.
  assert (H : isMergedPreserve st None = true) by (vm_compute; reflexivity).
  split; [exact H|]. split; [vm_compute; reflexivity|].
  destruct (proj2 (unregisterField_keeps_value sampleMessages sampleStrictEq st
                     (confirmField Required) false None []) (or_introl H))
    as (Hs & _ & Hf).
  split; [exact Hs|]. unfold st'. rewrite Hf. vm_compute. reflexivity.
Defined.

(** [confirm] is registered and unregistered again: its initial value
    stays in the store. *)
Lemma register_then_cancel_example :
  let st := userStore sampleErrors sampleMessages sampleStrictEq true Required in
  let entity := confirmField Required in
  let st1 := step sampleErrors sampleMessages sampleStrictEq st (EvRegisterField entity) in
  let st2 :=
    step sampleErrors sampleMessages sampleStrictEq st1 (EvCancelRegister (fid entity)) in
  Forall (fun g => fid g <> fid entity) (fieldEntities st)
  /\ isMergedPreserve st (preserve (props entity)) = true
  /\ fieldEntities st2 = fieldEntities st
  /\ store st2 = VObj [(SegStr "confirm", VNum 5)].
Proof.
  intros st entity st1 st2.
  assert (H1 : Forall (fun g => fid g <> fid entity) (fieldEntities st))
    by (vm_compute; repeat constructor; discriminate).
  assert (H2 : isMergedPreserve st (preserve (props entity)) = true)
    by (vm_compute; reflexivity).
  split; [exact H1|]. split; [exact H2|].
  destruct (register_then_cancel sampleErrors sampleMessages sampleStrictEq
              st entity H1 H2) as (Hf & Hs & _).
  split; [exact Hf|]. unfold st2, st1. rewrite Hs. vm_compute. reflexivity.
Defined.

(** ** Further examples: changes of value *)

(** The user types in [user]. *)
Lemma user_types_example :
  let st := userStore sampleErrors sampleMessages sampleStrictEq true Required in
  let f := userField Required in
  let st' := triggerChange sampleMessages sampleStrictEq st (fid f) (VStr "x") in
  List.find (fun g => Nat.eqb (fid g) (fid f)) (fieldEntities st) = Some f
  /\ isFieldsTouched st TouchedNoArgs = false
  /\ store st' = VObj [(SegStr "user", VStr "x")]
  /\ isFieldsTouched st' TouchedNoArgs = true.
Proof.
  intros st f st'.
  assert (H : List.find (fun g => Nat.eqb (fid g) (fid f)) (fieldEntities st) = Some f)
    by (vm_compute; reflexivity).
  split; [exact H|]. split; [vm_compute; reflexivity|].
  split; [vm_compute; reflexivity|].
  exact (proj2 (proj2 (triggerChange_touches sampleMessages sampleStrictEq st f
                         (VStr "x") H))
           ltac:(discriminate)).
Defined.

(** No field depends on [user]: a change of its value validates nothing. *)
Lemma change_without_dependents_example :
  let st := userStore sampleErrors sampleMessages sampleStrictEq true Required in
  let user := NameScalar (SegStr "user") in
  let st' := updateValue sampleMessages sampleStrictEq st user (VStr "x") in
  Forall (fun f => declaresDependency f (getNamePath user) = false) (fieldEntities st)
  /\ fieldEntities st' = fieldEntities st
  /\ jobs st' = [].
Proof.
  intros st user st'.
  assert (H : Forall (fun f => declaresDependency f (getNamePath user) = false)
                     (fieldEntities st))
    by (vm_compute; repeat constructor).
  split; [exact H|]. split; [|vm_compute; reflexivity].
  exact (proj1 (proj2 (updateValue_without_dependents sampleMessages sampleStrictEq
                         st user (VStr "x") H))).
Defined.

(** [confirm] depends on [user] and declares an initial value: a change of
    [user] validates it. *)
Lemma change_revalidates_confirm :
  let st := cascadeStore sampleErrors sampleMessages sampleStrictEq Required in
  let user := NameScalar (SegStr "user") in
  let child := confirmField Required in
  let st' := updateValue sampleMessages sampleStrictEq st user (VStr "x") in
  NoDup (map fid (fieldEntities st))
  /\ In child (fieldEntities st)
  /\ declaresDependency child (getNamePath user) = true
  /\ isFieldDirty st child = true
  /\ fieldNamePath child <> []
  /\ rules (props child) <> []
  /\ exists root,
       In (withState child false true (Some (RootPromise root)) [] [])
          (fieldEntities st').
Proof.
  intros st user child st'.
  assert (H1 : NoDup (map fid (fieldEntities st))).
  { apply (bool_decide_unpack _). vm_compute. exact I. }
  assert (H2 : In child (fieldEntities st)) by (vm_compute; right; left; reflexivity).
  assert (H3 : declaresDependency child (getNamePath user) = true)
    by (vm_compute; reflexivity).
  assert (H4 : isFieldDirty st child = true) by (vm_compute; reflexivity).
  assert (H5 : fieldNamePath child <> []) by discriminate.
  assert (H6 : rules (props child) <> []) by discriminate.
  split; [exact H1|]. split; [exact H2|]. split; [exact H3|]. split; [exact H4|].
  split; [exact H5|]. split; [exact H6|].
  destruct (updateValue_revalidates_dependents sampleMessages sampleStrictEq st
              user (VStr "x") child H1 H2 H3 H4 H5 H6) as (root & _ & Hin).
  exists root. exact Hin.
Defined.

(** ** Further examples: validation *)

(** [submit], then [validateFields] before the submit is answered, then
    everything settles: the submit is rejected with [outOfDate] and calls
    [onFinishFailed]. *)
Lemma submit_superseded_example :
  let st := userStore sampleErrors sampleMessages sampleStrictEq true Required in
  let st1 := submit sampleMessages st in
  let st2 := run sampleErrors sampleMessages sampleStrictEq st1 [] in
  let st3 := validateFields sampleMessages st2 None sampleOptions in
  let events :=
    [EvRunJob 0 []; EvRunJob 0 []; EvRunJob 0 []; EvRunJob 0 [];
     EvSettleSummary 1 (Rejected [userRequired]); EvRunJob 0 []; EvRunJob 0 [];
     EvSettleSummary 3 (Rejected [userRequired]); EvRunJob 0 []; EvRunJob 0 []] in
  let st4 := run sampleErrors sampleMessages sampleStrictEq st3 events in
  let later :=
    setCallbacks st4
      {| onValuesChange := false; onFieldsChange := false;
         onFinish := true; onFinishFailed := true |} in
  let e :=
    {| values := VObj [(SegStr "user", VUndefined)];
       errorFields := [userRequired];
       outOfDate := true |} in
  lastValidatePromise st1 = Some 1
  /\ (forall o, ~ In (1, o) (returned st2))
  /\ In (1, Rejected e) (returned st4)
  /\ submitReaction later (Rejected e) = [OnFinishFailed e]
  /\ exists e', OnFinishFailed e = OnFinishFailed e' /\ outOfDate e' = true.
Proof.
  intros st st1 st2 st3 events st4 later e.
  assert (H1 : lastValidatePromise st1 = Some 1) by (vm_compute; reflexivity).
  assert (H2 : forall o, ~ In (1, o) (returned st2))
    by (intros o H; vm_compute in H; exact H).
  assert (H3 : In (1, Rejected e) (returned st4)) by (vm_compute; left; reflexivity).
  assert (H4 : In (OnFinishFailed e) (submitReaction later (Rejected e)))
    by (vm_compute; left; reflexivity).
  split; [exact H1|]. split; [exact H2|]. split; [exact H3|].
  split; [vm_compute; reflexivity|].
  exact (submit_superseded sampleErrors sampleMessages sampleStrictEq st None
           sampleOptions [] events 1 H1 H2 (Rejected e) H3 later (OnFinishFailed e) H4).
Defined.

(** The rule of [user], from [validateFields] to the error of the field. *)
Lemma validate_user_example :
  let st := userStore sampleErrors sampleMessages sampleStrictEq true Required in
  let f := userField Required in
  let st1 := validateFields sampleMessages st None sampleOptions in
  let job :=
    JobRootBody 1 0 [SegStr "user"] VUndefined (fieldOptions sampleMessages st sampleOptions) in
  let ruleErrors :=
    [ {| errors := ["'user' is required"];
         rule := fillRule 0 (sampleRule Required None) |} ] in
  let reaction := JobRuleReaction 1 0 ruleErrors in
  NoDup (map fid (fieldEntities st))
  /\ In f (fieldEntities st)
  /\ validates None sampleOptions f = true
  /\ mounted f = true
  /\ jobs st1 = [job]
  /\ FormStore_isFieldValidating st1 (NameList [SegStr "user"]) = true
  /\ jobs (runJob sampleErrors sampleMessages sampleStrictEq st1 job [0])
     = jobs st1 ++ [reaction]
  /\ map getErrors
       (fieldEntities
          (runJob sampleErrors sampleMessages sampleStrictEq
             (runJob sampleErrors sampleMessages sampleStrictEq st1 job [0])
             reaction []))
     = [["'user' is required"]].
Proof.
  intros st f st1 job ruleErrors reaction.
  assert (H1 : NoDup (map fid (fieldEntities st))).
  { apply (bool_decide_unpack _). vm_compute. exact I. }
  assert (H2 : In f (fieldEntities st)) by (vm_compute; left; reflexivity).
  assert (H3 : validates None sampleOptions f = true) by (vm_compute; reflexivity).
  assert (H4 : mounted f = true) by reflexivity.
  split; [exact H1|]. split; [exact H2|]. split; [exact H3|]. split; [exact H4|].
  split; [vm_compute; reflexivity|].
  destruct (validateFields_to_errors sampleErrors sampleMessages sampleStrictEq st
              None sampleOptions f H1 H2 H3 H4) as (root & _ & Hjob & _ & Hv & Hrun).
  split; [exact Hv|].
  assert (Hroot : root = 0).
  { vm_compute in Hjob. destruct Hjob as [Hjob|[]]. by injection Hjob. }
  subst root.
  split; [|vm_compute; reflexivity].
  exact (proj1 (Hrun [0] ruleErrors (or_intror eq_refl))).
Defined.

(** ** Further examples: the registry and the watchers *)

(** A change, a validation and a reset: the registry is as it was. *)
Lemma registry_example :
  let st := cascadeStore sampleErrors sampleMessages sampleStrictEq Required in
  let events :=
    [EvTriggerChange 1 (VStr "x"); EvValidateFields None sampleOptions;
     EvRunJob 0 [0]; EvResetFields None] in
  forallb (fun ev => negb (isRegistration ev)) events = true
  /\ map fid (fieldEntities (run sampleErrors sampleMessages sampleStrictEq st events))
     = [1; 2].
Proof.
  intros st events.
  assert (H : forallb (fun ev => negb (isRegistration ev)) events = true)
    by reflexivity.
  split; [exact H|].
  pose proof (proj2 (run_keeps_registry sampleErrors sampleMessages sampleStrictEq
                       st events) H) as Hreg.
  apply (f_equal (map (fun e : nat * InternalFieldProps * bool => fst (fst e)))) in Hreg.
  rewrite !map_map in Hreg. cbn [entityOf fst] in Hreg.
  etransitivity; [exact Hreg|]. vm_compute. reflexivity.
Defined.

(** A watcher is registered, the user types, the watcher is cancelled, the
    user types again: the watcher hears of the first change only. *)
Lemma watcher_example :
  let st0 := userStore sampleErrors sampleMessages sampleStrictEq true Required in
  let st :=
    run sampleErrors sampleMessages sampleStrictEq (registerWatch st0 7)
      [EvTriggerChange 1 (VStr "x")] in
  let st' :=
    run sampleErrors sampleMessages sampleStrictEq (cancelWatch st 7)
      [EvTriggerChange 1 (VStr "xy")] in
  ~ In 7 (watchList (config st0))
  /\ cancelWatch (registerWatch st0 7) 7 = st0
  /\ List.filter (callsWatch 7) (log st)
     = [FxWatch 7 (VObj [(SegStr "user", VStr "x")]) [[SegStr "user"]]]
  /\ List.filter (callsWatch 7) (log st') = List.filter (callsWatch 7) (log st).
Proof.
  intros st0 st st'.
  assert (H : ~ In 7 (watchList (config st0))) by (vm_compute; tauto).
  split; [exact H|].
  split; [exact (proj1 (proj2 (watch_registration sampleErrors sampleMessages
                                 sampleStrictEq st0 7 [] []) H))|].
  split; [vm_compute; reflexivity|].
  exact (proj1 (watch_registration sampleErrors sampleMessages sampleStrictEq st 7
                  [EvTriggerChange 1 (VStr "xy")] [])).
Defined.

